(** * Dominant-colour extraction for crop images: a shallow embedding

    The three scripts [extract_crop_colors.py] (plain),
    [extract_crop_colors_improved.py] (filtered) and
    [extract_crop_colors_hsv.py] (HSV) are embedded as Rocq functions.

    - 8-bit channels and pixel counts are integers ([Z], [nat]).
    - Python and numpy floating-point values are read as exact rationals
      ([Q]); the literal [0.1] is [1#10].  Module [Ieee] evaluates the two
      decisions that sit on a boundary (the ten-percent tests and the
      saturation mask) in IEEE arithmetic as well, and Part II checks that
      it agrees with the rational reading there.  Scores are compared as
      rationals: two scores that the scripts' floating-point arithmetic
      separates by a rounding error only can compare differently there.
      The circular hue mean uses sine, cosine and arctangent and is stated
      over the reals ([R]); module [Single] evaluates the same expression
      in [float32], with numpy's functions as a record of functions, and
      Part II bounds the distance between the two.
    - Calls into scikit-learn, Pillow's decoder and resampler, the network
      and the file system are oracles collected in the record [env]; the
      mutable part (cache directory, cache files, request log, printed
      warnings) is the record [world], threaded through an error/state
      monad.
    - Pillow reads pixel data lazily: a payload whose header is accepted
      and whose data is broken raises at the first use of the pixels, which
      for an RGB image is in the extraction routine.  The oracle
      [image_open] stands for header and data together, so the error
      surfaces in [download_image]; both calls sit in the same [try] block
      of [main], which sees no difference. *)

From Stdlib Require Import ZArith QArith Qround Qabs Reals Lra Lqa Lia.
From Stdlib Require Import List Sorted Ascii String HexString SpecFloat.
From stdpp Require Import gmap strings list fin_maps.

(* ===================================================================== *)
(** * Part I: definitions *)
(* ===================================================================== *)

(** ** Python built-ins *)

Module Py.

(** Strict comparison on rationals, as a boolean. *)
Definition Qltb (x y : Q) : bool := negb (Qle_bool y x).

(** [max(xs, key=key)]: scans left to right and replaces the current best
    only when the new key is strictly greater, so the first maximal item
    wins.  [None] stands for the [ValueError] raised on an empty
    sequence. *)
Fixpoint max_from {A : Type} (key : A -> Q) (best : A) (xs : list A) : A :=
  match xs with
  | [] => best
  | x :: rest =>
      if Qltb (key best) (key x) then max_from key x rest
      else max_from key best rest
  end.

Definition max_by {A : Type} (key : A -> Q) (xs : list A) : option A :=
  match xs with
  | [] => None
  | x :: rest => Some (max_from key x rest)
  end.

(** [int(round(c))]: rounding to the nearest integer, a tie going to the
    even neighbour. *)
Definition round_half_even (q : Q) : Z :=
  let f := Qfloor q in
  let d := (q - inject_Z f)%Q in
  if Qltb d (1#2) then f
  else if Qltb (1#2) d then (f + 1)%Z
  else if Z.even f then f else (f + 1)%Z.

(** [int(x)] on a float: truncation toward zero. *)
Definition int_trunc (q : Q) : Z :=
  if Qle_bool 0 q then Qfloor q else Qceiling q.

(** [x % 1.0]. *)
Definition mod1 (q : Q) : Q := (q - inject_Z (Qfloor q))%Q.

(** [format(n, "02x")]: lowercase hexadecimal, at least two digits. *)
Definition hex_digits (n : Z) : string :=
  match n with
  | Z0 => "0"%string
  | Zpos p => HexString.Raw.of_pos p EmptyString
  | Zneg p => String "-"%char (HexString.Raw.of_pos p EmptyString)
  end.

Definition format_02x (n : Z) : string :=
  let s := hex_digits n in
  if (String.length s <? 2)%nat then String "0"%char s else s.

End Py.

(** ** numpy array operations used by the scripts *)

Module Np.

(** Number of entries equal to [l]. *)
Definition occurrences (l : nat) (labels : list nat) : nat :=
  List.length (List.filter (Nat.eqb l) labels).

(** [np.unique(labels, return_counts=True)]: the distinct labels in
    ascending order, each paired with its number of occurrences. *)
Definition unique_counts (labels : list nat) : list (nat * nat) :=
  List.filter (fun lc => negb (Nat.eqb (snd lc) 0))
    (List.map (fun l => (l, occurrences l labels))
       (List.seq 0 (S (list_max labels)))).

(** [counts.argmax()]: index of the first maximal entry; [None] stands for
    the [ValueError] numpy raises on an empty array. *)
Fixpoint argmax_from (best_i best_v i : nat) (xs : list nat) : nat :=
  match xs with
  | [] => best_i
  | x :: rest =>
      if (best_v <? x)%nat then argmax_from i x (S i) rest
      else argmax_from best_i best_v (S i) rest
  end.

Definition argmax (xs : list nat) : option nat :=
  match xs with
  | [] => None
  | x :: rest => Some (argmax_from 0 x 1 rest)
  end.

(** Boolean-mask indexing [xs[mask]]. *)
Fixpoint mask_select {A : Type} (mask : list bool) (xs : list A) : list A :=
  match mask, xs with
  | m :: mask', x :: xs' =>
      if m then x :: mask_select mask' xs' else mask_select mask' xs'
  | _, _ => []
  end.

(** [mask.sum()]. *)
Definition mask_sum (mask : list bool) : nat :=
  List.length (List.filter (fun b => b) mask).

(** [np.mean(xs)]; the running sum is kept in lowest terms. *)
Definition qsum (xs : list Q) : Q :=
  List.fold_left (fun acc x => Qred (acc + x)) xs 0%Q.

Definition mean (xs : list Q) : Q :=
  (qsum xs / inject_Z (Z.of_nat (List.length xs)))%Q.

(** [np.radians], [np.degrees], [np.arctan2], [np.mean] and [x % m] on
    real numbers. *)
Definition radians (d : R) : R := (d * PI / 180)%R.
Definition degrees (r : R) : R := (r * 180 / PI)%R.

Definition arctan2 (y x : R) : R :=
  if Rlt_dec 0 x then atan (y / x)
  else if Rlt_dec x 0 then
    (if Rle_dec 0 y then atan (y / x) + PI else atan (y / x) - PI)%R
  else if Rlt_dec 0 y then (PI / 2)%R
  else if Rlt_dec y 0 then (- (PI / 2))%R
  else 0%R.

Definition rsum (xs : list R) : R := List.fold_right Rplus 0%R xs.

Definition rmean (xs : list R) : R :=
  (rsum xs / INR (List.length xs))%R.

Definition rmod (x m : R) : R := (x - m * IZR (Int_part (x / m)))%R.

End Np.

(** ** The standard module [colorsys] *)

Module Colorsys.

Definition qmax (x y : Q) : Q := if Py.Qltb x y then y else x.
Definition qmin (x y : Q) : Q := if Py.Qltb y x then y else x.

(** [colorsys.rgb_to_hsv(r, g, b)]: all three results lie in [0,1]. *)
Definition rgb_to_hsv (r g b : Q) : Q * Q * Q :=
  let maxc := qmax (qmax r g) b in
  let minc := qmin (qmin r g) b in
  let rangec := (maxc - minc)%Q in
  let v := maxc in
  if Qeq_bool minc maxc then (0%Q, 0%Q, v)
  else
    let s := (rangec / maxc)%Q in
    let rc := ((maxc - r) / rangec)%Q in
    let gc := ((maxc - g) / rangec)%Q in
    let bc := ((maxc - b) / rangec)%Q in
    let h :=
      if Qeq_bool r maxc then (bc - gc)%Q
      else if Qeq_bool g maxc then (2 + rc - bc)%Q
      else (4 + gc - rc)%Q in
    (Py.mod1 (h / 6), s, v).

(** [int(x)] on a real: truncation toward zero. *)
Definition rtrunc (x : R) : Z :=
  if Rle_dec 0 x then Int_part x else (- Int_part (- x))%Z.

(** [colorsys.hsv_to_rgb(h, s, v)] on reals. *)
Definition hsv_to_rgb (h s v : R) : R * R * R :=
  if Req_dec_T s 0 then (v, v, v)
  else
    let i := rtrunc (h * 6) in
    let f := (h * 6 - IZR i)%R in
    let p := (v * (1 - s))%R in
    let q := (v * (1 - s * f))%R in
    let t := (v * (1 - s * (1 - f)))%R in
    match (i mod 6)%Z with
    | 0%Z => (v, t, p)
    | 1%Z => (q, v, p)
    | 2%Z => (p, v, t)
    | 3%Z => (p, q, v)
    | 4%Z => (t, p, v)
    | _ => (v, p, q)
    end.

End Colorsys.

(** ** IEEE arithmetic, to cross-check the rational reading *)

Module Ieee.

(** The double nearest to [m * 2^e], and the double of an integer. *)
Definition double (m e : Z) : spec_float := binary_normalize 53 1024 m e false.
Definition of_int (n : Z) : spec_float := double n 0.

(** The double written [0.1]. *)
Definition tenth : spec_float := double 7205759403792794 (-56).

Definition mul : spec_float -> spec_float -> spec_float := SFmul 53 1024.
Definition div : spec_float -> spec_float -> spec_float := SFdiv 53 1024.
Definition sub : spec_float -> spec_float -> spec_float := SFsub 53 1024.

(** Storing a double into a [float32] array. *)
Definition to_single (x : spec_float) : spec_float :=
  match x with
  | S754_finite s m e =>
      binary_normalize 24 128 (if s then Z.neg m else Z.pos m) e s
  | _ => x
  end.

(** [len(kept) < len(total) * 0.1] and [kept > len(total) * 0.1]. *)
Definition below_tenth (kept total : Z) : bool :=
  SFltb (of_int kept) (mul (of_int total) tenth).
Definition above_tenth (kept total : Z) : bool :=
  SFltb (mul (of_int total) tenth) (of_int kept).

(** The saturation cell [rgb_to_hsv_array] stores for a pixel whose largest
    channel is [hi] and whose smallest channel is [lo < hi]. *)
Definition saturation_cell (hi lo : Z) : spec_float :=
  let maxc := div (of_int hi) (of_int 255) in
  let minc := div (of_int lo) (of_int 255) in
  to_single (mul (div (sub maxc minc) maxc) (of_int 100)).

(** [hsv_pixels[:, 1] > 15] on that cell. *)
Definition high_saturation (hi lo : Z) : bool :=
  SFltb (to_single (of_int 15)) (saturation_cell hi lo).

End Ieee.

(** ** The hue expression in [float32] *)

(** [hsv_pixels] is a [float32] array, so [np.radians], [np.sin], [np.cos],
    [np.mean], [np.arctan2], [np.degrees] and the final [% 360] of
    [dominant_color_hsv] all work on [float32] values.  A [float32] value
    is written here as the rational it denotes. *)
Module Single.

(** Rounding to the nearest [float32], a tie going to the even neighbour,
    of a rational in [128, 512): the [float32] values are 2^-16 apart
    below 256 and 2^-15 apart from 256 on. *)
Definition round (q : Q) : Q :=
  if Py.Qltb q 256 then (inject_Z (Py.round_half_even (q * 65536)) / 65536)%Q
  else (inject_Z (Py.round_half_even (q * 32768)) / 32768)%Q.

(** [x % 360] on a [float32] [x] of magnitude at most 180, the range of
    [np.degrees(np.arctan2(..))]: the C remainder [fmod(x, 360)] is [x]
    itself; numpy returns it when it is positive, returns 0 when it is
    zero, and adds 360 to it when it is negative.  The sum is formed in
    [float32] (numpy 2 keeps the type of a [float32] scalar against the
    Python integer 360) and is therefore rounded. *)
Definition mod360 (x : Q) : Q :=
  if Qeq_bool x 0 then 0%Q
  else if Py.Qltb x 0 then round (x + 360)
  else x.

(** The numpy functions of the hue expression, on [float32] values. *)
Record numpy : Type := Numpy {
  np_radians : Q -> Q;
  np_sin : Q -> Q;
  np_cos : Q -> Q;
  np_mean : list Q -> Q;
  np_arctan2 : Q -> Q -> Q;
  np_degrees : Q -> Q
}.

(** [np.degrees(np.arctan2(np.mean(np.sin(np.radians(h))),
    np.mean(np.cos(np.radians(h)))))] for the hue column [h]. *)
Definition angle (N : numpy) (hues : list Q) : Q :=
  np_degrees N
    (np_arctan2 N
       (np_mean N (List.map (fun h => np_sin N (np_radians N h)) hues))
       (np_mean N (List.map (fun h => np_cos N (np_radians N h)) hues))).

(** [avg_h]: that angle [% 360]. *)
Definition avg_h (N : numpy) (hues : list Q) : Q := mod360 (angle N hues).

(** The IEEE 754 binary32 operations, against which the rounding above and
    the arithmetic entries of a table of values are checked. *)
Definition b32 (m e : Z) : spec_float := binary_normalize 24 128 m e false.
Definition add : spec_float -> spec_float -> spec_float := SFadd 24 128.
Definition mul : spec_float -> spec_float -> spec_float := SFmul 24 128.
Definition div : spec_float -> spec_float -> spec_float := SFdiv 24 128.

Definition to_Q (x : spec_float) : Q :=
  match x with
  | S754_finite s m e =>
      let v := (inject_Z (Z.pos m) * 2 ^ e)%Q in if s then (- v)%Q else v
  | _ => 0%Q
  end.

(** The [float32] constants [pi / 180] and [180 / pi] by which
    [np.radians] and [np.degrees] multiply. *)
Definition deg2rad : spec_float := b32 9370165 (-29).
Definition rad2deg : spec_float := b32 15019745 (-18).

End Single.

(** ** Exceptions, the environment and the mutable world *)

(** The exceptions the scripts can meet.  [KeyboardInterrupt] derives from
    [BaseException] only; every other one derives from [Exception]. *)
Inductive exn : Type :=
| ConnectionError
| Timeout
| HTTPError (status : Z)
| OSError (errno : string)
| UnidentifiedImageError
| ValueError
| IndexError
| KeyError (key : string)
| KeyboardInterrupt.

Definition is_Exception (e : exn) : bool :=
  match e with
  | KeyboardInterrupt => false
  | _ => true
  end.

Definition bytes : Type := list Byte.byte.
Definition rgb : Type := (Z * Z * Z)%type.
Definition rgba : Type := (Z * Z * Z * Z)%type.

(** A decoded Pillow image: its mode and its pixels in row-major order.
    The modes are 8-bit grey, grey with alpha, palette, RGB and RGB with
    alpha. *)
Inductive image : Type :=
| ImageL (px : list Z)
| ImageLA (px : list (Z * Z))
| ImageP (palette : list rgb) (px : list nat)
| ImageRGB (px : list rgb)
| ImageRGBA (px : list rgba).

(** What [KMeans(...).fit_predict] leaves behind: one label per sample and
    one centre per requested cluster. *)
Record clustering : Type := Clustering {
  labels_ : list nat;
  cluster_centers_ : list (list Q)
}.

(** Outcome of [open(path, "wb")] followed by [f.write(content)]. *)
Inductive write_outcome : Type :=
| Stored
| Refused (e : exn)
| Torn (e : exn) (kept : nat).

Record env : Type := Env {
  sha256_hexdigest : string -> string;
  (** [requests.get(url, timeout=30)] and [raise_for_status()], for the
      n-th request of the run; the payload is [resp.content]. *)
  http_get : nat -> string -> exn + bytes;
  makedirs_fault : option exn;
  open_wb : string -> write_outcome;
  image_open : bytes -> exn + image;
  resize : nat * nat -> list rgb -> list rgb;
  (** [KMeans(n_clusters, n_init="auto", random_state=0).fit_predict] on
      rows with rational entries; the centres are read back by the caller. *)
  kmeans : nat -> list (list Q) -> exn + clustering;
  (** The same on the trigonometric feature rows of the HSV script, which
      reads back the labels only. *)
  kmeans_real : nat -> list (list R) -> exn + list nat
}.

Record world : Type := World {
  cache_dir_exists : bool;
  files : gmap string bytes;
  requests_log : list string;
  stdout : list (string * exn)
}.

(** Computations that may raise and that change the world. *)
Definition M (A : Type) : Type := world -> (exn + A) * world.

Definition ret {A : Type} (a : A) : M A := fun w => (inr a, w).
Definition raise {A : Type} (e : exn) : M A := fun w => (inl e, w).
Definition bind {A B : Type} (m : M A) (k : A -> M B) : M B :=
  fun w =>
    match m w with
    | (inl e, w') => (inl e, w')
    | (inr a, w') => k a w'
    end.
Definition lift {A : Type} (r : exn + A) : M A :=
  fun w => (r, w).

#[export] Instance M_ret : MRet M := @ret.
#[export] Instance M_bind : MBind M := fun A B k m => bind m k.

(** The same for code that only raises. *)
Definition bindE {A B : Type} (r : exn + A) (k : A -> exn + B) : exn + B :=
  match r with
  | inl e => inl e
  | inr a => k a
  end.
#[export] Instance result_bind : MBind (sum exn) := fun A B k r => bindE r k.

Definition of_option {A : Type} (e : exn) (o : option A) : exn + A :=
  match o with
  | Some a => inr a
  | None => inl e
  end.

(** [try: body  except Exception as e: handler(e)]. *)
Definition try_except {A : Type} (body : M A) (handler : exn -> M A) : M A :=
  fun w =>
    match body w with
    | (inl e, w') => if is_Exception e then handler e w' else (inl e, w')
    | (inr a, w') => (inr a, w')
    end.

(** ** Pillow: mode conversion and masked paste *)

Module Pillow.

Definition mode (img : image) : string :=
  match img with
  | ImageL _ => "L"
  | ImageLA _ => "LA"
  | ImageP _ _ => "P"
  | ImageRGB _ => "RGB"
  | ImageRGBA _ => "RGBA"
  end.

(** [img.convert("RGB")]: grey levels are replicated, palette indices are
    looked up, and an alpha band is discarded. *)
Definition convert_RGB (img : image) : list rgb :=
  match img with
  | ImageL px => List.map (fun l => (l, l, l)) px
  | ImageLA px => List.map (fun la => (fst la, fst la, fst la)) px
  | ImageP palette px =>
      List.map (fun i => List.nth i palette (0, 0, 0)%Z) px
  | ImageRGB px => px
  | ImageRGBA px =>
      List.map (fun p => match p with (r, g, b, _) => (r, g, b) end) px
  end.

(** Rounded division by 255 as Pillow does it on 8-bit products. *)
Definition div255 (a : Z) : Z :=
  let tmp := (a + 128)%Z in
  Z.shiftr (Z.shiftr tmp 8 + tmp) 8.

(** One channel of [paste] under an 8-bit mask. *)
Definition blend8 (mask dst src : Z) : Z :=
  div255 (dst * (255 - mask) + src * mask).

(** [Image.new("RGB", img.size, (255, 255, 255))]. *)
Definition new_white (n : nat) : list rgb :=
  List.repeat (255, 255, 255)%Z n.

(** [background.paste(img, mask=img.split()[-1])] for an RGBA [img]. *)
Definition paste_rgba (background : list rgb) (img : list rgba) : list rgb :=
  List.map
    (fun bp =>
       match bp with
       | ((br, bg, bb), (r, g, b, a)) =>
           (blend8 a br r, blend8 a bg g, blend8 a bb b)
       end)
    (List.combine background img).

End Pillow.

(** The mode dispatch of [download_image] in the two later scripts:
    [if img.mode == 'RGBA': ... elif img.mode != 'RGB': ...]. *)
Definition composite_on_white (img : image) : list rgb :=
  if String.eqb (Pillow.mode img) "RGBA" then
    match img with
    | ImageRGBA px =>
        Pillow.paste_rgba (Pillow.new_white (List.length px)) px
    | _ => Pillow.convert_RGB img
    end
  else if negb (String.eqb (Pillow.mode img) "RGB") then
    Pillow.convert_RGB img
  else
    match img with
    | ImageRGB px => px
    | _ => Pillow.convert_RGB img
    end.

(** ** The cache and [download_image] *)

Section Cache.

Variable E : env.

Definition CACHE_DIR : string := ".image_cache".

Definition ensure_cache : M unit :=
  fun w =>
    if cache_dir_exists w then (inr tt, w)
    else
      match makedirs_fault E with
      | Some e => (inl e, w)
      | None =>
          (inr tt,
           World true (files w) (requests_log w) (stdout w))
      end.

Definition filename_for_url (url : string) : string :=
  let h := sha256_hexdigest E url in
  (CACHE_DIR ++ "/" ++ h ++ ".img")%string.

Definition path_exists (path : string) : M bool :=
  fun w => (inr (bool_decide (is_Some (files w !! path))), w).

Definition requests_get (url : string) : M bytes :=
  fun w =>
    (http_get E (List.length (requests_log w)) url,
     World (cache_dir_exists w) (files w)
           (requests_log w ++ [url]) (stdout w)).

Definition write_file (path : string) (content : bytes) : M unit :=
  fun w =>
    let put (b : bytes) :=
      World (cache_dir_exists w) (<[path := b]> (files w))
            (requests_log w) (stdout w) in
    match open_wb E path with
    | Stored => (inr tt, put content)
    | Refused e => (inl e, w)
    | Torn e kept => (inl e, put (List.firstn kept content))
    end.

Definition read_file (path : string) : M bytes :=
  fun w =>
    match files w !! path with
    | Some b => (inr b, w)
    | None => (inl (OSError "ENOENT"), w)
    end.

(** The part of [download_image] shared by the three scripts: everything
    up to and including the read of the cache file. *)
Definition fetch_cached (url : string) : M bytes :=
  ensure_cache ;;
  let path := filename_for_url url in
  present ← path_exists path ;
  (if present : bool then ret tt
   else (content ← requests_get url ; write_file path content)) ;;
  read_file path.

End Cache.

(** ** pandas: the table and the batch driver *)

Module Pandas.

(** A cell is a string or missing ([NaN] on input, [None] or [NaN] on
    output; [to_csv] writes both as an empty field). *)
Definition cell : Type := option string.

(** A frame is its columns in header order; all have the same length. *)
Definition DataFrame : Type := list (string * list cell).

Definition column (name : string) (df : DataFrame) : exn + list cell :=
  match List.find (fun c => String.eqb (fst c) name) df with
  | Some c => inr (snd c)
  | None => inl (KeyError name)
  end.

(** [Series.dropna()]. *)
Definition dropna (s : list cell) : list string := omap (fun c => c) s.

(** [Series.unique()]: distinct values in order of first appearance. *)
Fixpoint unique_from (seen : list string) (xs : list string) : list string :=
  match xs with
  | [] => []
  | x :: rest =>
      if bool_decide (x ∈ seen) then unique_from seen rest
      else x :: unique_from (x :: seen) rest
  end.

Definition unique (xs : list string) : list string := unique_from [] xs.

(** [Series.map(d)] for a dict [d]: a missing cell stays missing, a key
    absent from [d] gives a missing cell. *)
Definition series_map (d : gmap string cell) (s : list cell) : list cell :=
  List.map
    (fun c =>
       match c with
       | None => None
       | Some u => match d !! u with Some v => v | None => None end
       end) s.

(** [df[name] = values]: replaces the column of that name, or appends a
    new last column. *)
Fixpoint set_column (name : string) (values : list cell) (df : DataFrame)
  : DataFrame :=
  match df with
  | [] => [(name, values)]
  | (n, vs) :: rest =>
      if String.eqb n name then (name, values) :: rest
      else (n, vs) :: set_column name values rest
  end.

End Pandas.

Section Batch.

(** The scripts differ only in the loader and the extraction routine. *)
Variable download : string -> M (list rgb).
Variable extract : list rgb -> exn + string.

Definition print_warning (url : string) (e : exn) : M unit :=
  fun w =>
    (inr tt,
     World (cache_dir_exists w) (files w) (requests_log w)
           (stdout w ++ [(url, e)])).

(** The body of the [try] statement. *)
Definition attempt (url_to_color : gmap string Pandas.cell) (url : string)
  : M (gmap string Pandas.cell) :=
  img ← download url ;
  c ← lift (extract img) ;
  ret (<[url := Some c]> url_to_color).

(** One iteration of the loop over [unique_urls]. *)
Definition process_url (url_to_color : gmap string Pandas.cell)
    (url : string) : M (gmap string Pandas.cell) :=
  try_except (attempt url_to_color url)
    (fun e => print_warning url e ;; ret (<[url := None]> url_to_color)).

Fixpoint process_all (urls : list string)
    (url_to_color : gmap string Pandas.cell)
  : M (gmap string Pandas.cell) :=
  match urls with
  | [] => ret url_to_color
  | url :: rest =>
      d ← process_url url_to_color url ;
      process_all rest d
  end.

(** [main], from the frame read by [read_csv] to the frame handed to
    [to_csv]. *)
Definition main_with (df : Pandas.DataFrame) : M Pandas.DataFrame :=
  image_url ← lift (Pandas.column "image_url" df) ;
  let unique_urls := Pandas.unique (Pandas.dropna image_url) in
  url_to_color ← process_all unique_urls ∅ ;
  ret (Pandas.set_column "dominant_color"
         (Pandas.series_map url_to_color image_url) df).

End Batch.

(** ** Helpers shared by the extraction routines *)

Definition rgb_features (pixels : list rgb) : list (list Q) :=
  List.map
    (fun p => match p with (r, g, b) => [inject_Z r; inject_Z g; inject_Z b] end)
    pixels.

(** [r, g, b = [...]]: unpacking fails unless there are three items. *)
Definition unpack3 {A : Type} (xs : list A) : exn + (A * A * A) :=
  match xs with
  | [a; b; c] => inr (a, b, c)
  | _ => inl ValueError
  end.

Definition hex_color (c : rgb) : string :=
  match c with
  | (r, g, b) =>
      ("#" ++ Py.format_02x r ++ Py.format_02x g ++ Py.format_02x b)%string
  end.

(** [len(kept) < len(total) * 0.1]. *)
Definition below_tenth (kept total : nat) : bool :=
  Py.Qltb (inject_Z (Z.of_nat kept))
          (inject_Z (Z.of_nat total) * (1#10))%Q.

(** [kept > len(total) * 0.1]. *)
Definition above_tenth (kept total : nat) : bool :=
  Py.Qltb (inject_Z (Z.of_nat total) * (1#10))%Q
          (inject_Z (Z.of_nat kept)).

(** ** [extract_crop_colors.py] *)

Module Plain.

Definition default_k : nat := 4.
Definition default_resize : nat * nat := (120, 120)%nat.

Definition download_image (E : env) (url : string) : M (list rgb) :=
  raw ← fetch_cached E url ;
  img ← lift (image_open E raw) ;
  ret (Pillow.convert_RGB img).

(** The cluster count handed to [KMeans]: [n_clusters=k], whatever the
    sample. *)
Definition n_clusters (k : nat) (pixels : list rgb) : nat := k.

(** From the fitted model to the rounded centre of the largest cluster. *)
Definition select (km : clustering) : exn + rgb :=
  let counts := List.map snd (Np.unique_counts (labels_ km)) in
  dominant_idx ← of_option ValueError (Np.argmax counts) ;
  color ← of_option IndexError (cluster_centers_ km !! dominant_idx) ;
  unpack3 (List.map Py.round_half_even color).

Definition dominant_color (E : env) (img : list rgb)
    (k : nat) (size : nat * nat) : exn + string :=
  let pixels := resize E size img in
  km ← kmeans E (n_clusters k pixels) (rgb_features pixels) ;
  c ← select km ;
  inr (hex_color c).

Definition main (E : env) : Pandas.DataFrame -> M Pandas.DataFrame :=
  main_with (download_image E)
    (fun img => dominant_color E img default_k default_resize).

End Plain.

(** ** [extract_crop_colors_improved.py] *)

Module Improved.

Definition default_k : nat := 5.
Definition default_resize : nat * nat := (150, 150)%nat.

Definition download_image (E : env) (url : string) : M (list rgb) :=
  raw ← fetch_cached E url ;
  img ← lift (image_open E raw) ;
  ret (composite_on_white img).

Definition rgb_to_hsv (r g b : Z) : Q * Q * Q :=
  Colorsys.rgb_to_hsv (inject_Z r / 255) (inject_Z g / 255)
                      (inject_Z b / 255).

Definition is_extreme_color (r g b : Z) (threshold : Z) : bool :=
  if (r <? threshold)%Z && (g <? threshold)%Z && (b <? threshold)%Z
  then true
  else if (255 - threshold <? r)%Z && (255 - threshold <? g)%Z
          && (255 - threshold <? b)%Z
  then true
  else false.

Definition get_color_saturation (r g b : Z) : Q :=
  match rgb_to_hsv r g b with (h, s, v) => s end.

(** The loop that collects the pixels that are not extreme. *)
Definition non_extreme (pixels : list rgb) : list rgb :=
  List.filter
    (fun p => match p with (r, g, b) => negb (is_extreme_color r g b 20) end)
    pixels.

(** ... and the fallback to the whole sample. *)
Definition filter_pixels (pixels : list rgb) : list rgb :=
  let filtered_pixels := non_extreme pixels in
  if below_tenth (List.length filtered_pixels) (List.length pixels)
  then pixels
  else filtered_pixels.

Definition n_clusters (k : nat) (filtered_pixels : list rgb) : nat :=
  Nat.min k (List.length filtered_pixels).

Record cluster_entry : Type := ClusterEntry {
  color : rgb;
  count : nat;
  saturation : Q;
  score : Q
}.

(** The body of the loop over [zip(unique_labels, counts)]. *)
Definition describe (km : clustering) (lc : nat * nat)
  : exn + cluster_entry :=
  centre ← of_option IndexError (cluster_centers_ km !! fst lc) ;
  c ← unpack3 (List.map Py.round_half_even centre) ;
  match c with
  | (r, g, b) =>
      let s := get_color_saturation r g b in
      inr (ClusterEntry (r, g, b) (snd lc) s
             (inject_Z (Z.of_nat (snd lc)) * (1 + s * 2))%Q)
  end.

Fixpoint describe_all (km : clustering) (lcs : list (nat * nat))
  : exn + list cluster_entry :=
  match lcs with
  | [] => inr []
  | lc :: rest =>
      e ← describe km lc ;
      es ← describe_all km rest ;
      inr (e :: es)
  end.

Definition cluster_info (km : clustering) : exn + list cluster_entry :=
  describe_all km (Np.unique_counts (labels_ km)).

Definition select (km : clustering) : exn + cluster_entry :=
  info ← cluster_info km ;
  of_option ValueError (Py.max_by score info).

Definition dominant_color (E : env) (img : list rgb)
    (k : nat) (size : nat * nat) : exn + string :=
  let pixels := resize E size img in
  let filtered_pixels := filter_pixels pixels in
  km ← kmeans E (n_clusters k filtered_pixels)
                (rgb_features filtered_pixels) ;
  best ← select km ;
  inr (hex_color (color best)).

Definition main (E : env) : Pandas.DataFrame -> M Pandas.DataFrame :=
  main_with (download_image E)
    (fun img => dominant_color E img default_k default_resize).

End Improved.

(** ** [extract_crop_colors_hsv.py] *)

Module Hsv.

Definition default_k : nat := 5.
Definition default_resize : nat * nat := (150, 150)%nat.

(** A row of [hsv_pixels]: hue in degrees, saturation and value in
    percent. *)
Definition hsv : Type := (Q * Q * Q)%type.
Definition hue (p : hsv) : Q := fst (fst p).
Definition sat (p : hsv) : Q := snd (fst p).
Definition val (p : hsv) : Q := snd p.

Definition download_image (E : env) (url : string) : M (list rgb) :=
  raw ← fetch_cached E url ;
  img ← lift (image_open E raw) ;
  ret (composite_on_white img).

Definition rgb_to_hsv_row (p : rgb) : hsv :=
  match p with
  | (r, g, b) =>
      match Colorsys.rgb_to_hsv (inject_Z r / 255) (inject_Z g / 255)
                                (inject_Z b / 255) with
      | (h, s, v) => (h * 360, s * 100, v * 100)%Q
      end
  end.

Definition rgb_to_hsv_array (rgb_array : list rgb) : list hsv :=
  List.map rgb_to_hsv_row rgb_array.

(** [hsv_to_rgb(h, s, v)] of the script, on reals. *)
Definition hsv_to_rgb (h s v : R) : rgb :=
  match Colorsys.hsv_to_rgb (h / 360) (s / 100) (v / 100) with
  | (r, g, b) =>
      (Colorsys.rtrunc (r * 255), Colorsys.rtrunc (g * 255),
       Colorsys.rtrunc (b * 255))
  end.

Definition is_extreme_color (r g b : Z) (threshold : Z) : bool :=
  if (r <? threshold)%Z && (g <? threshold)%Z && (b <? threshold)%Z
  then true
  else if (255 - threshold <? r)%Z && (255 - threshold <? g)%Z
          && (255 - threshold <? b)%Z
  then true
  else false.

Definition non_extreme (pixels : list rgb) : list rgb :=
  List.filter
    (fun p => match p with (r, g, b) => negb (is_extreme_color r g b 20) end)
    pixels.

(** Extreme-colour filter with its fallback. *)
Definition filter_pixels (pixels : list rgb) : list rgb :=
  let filtered_pixels := non_extreme pixels in
  if below_tenth (List.length filtered_pixels) (List.length pixels)
  then pixels
  else filtered_pixels.

(** [hsv_pixels[:, 1] > 15]. *)
Definition high_saturation_mask (hsv_pixels : list hsv) : list bool :=
  List.map (fun p => Py.Qltb 15 (sat p)) hsv_pixels.

(** The low-saturation step: both arrays are indexed by the same mask, or
    both are left alone. *)
Definition saturation_filter (hsv_pixels : list hsv)
    (filtered_pixels : list rgb) : list hsv * list rgb :=
  let mask := high_saturation_mask hsv_pixels in
  if above_tenth (Np.mask_sum mask) (List.length hsv_pixels)
  then (Np.mask_select mask hsv_pixels, Np.mask_select mask filtered_pixels)
  else (hsv_pixels, filtered_pixels).

(** The two working arrays as they stand when clustering starts. *)
Definition sample (pixels : list rgb) : list hsv * list rgb :=
  let filtered_pixels := filter_pixels pixels in
  let hsv_pixels := rgb_to_hsv_array filtered_pixels in
  match saturation_filter hsv_pixels filtered_pixels with
  | (hsv_pixels, filtered_pixels) =>
      if (List.length hsv_pixels =? 0)%nat
      then (rgb_to_hsv_array pixels, pixels)
      else (hsv_pixels, filtered_pixels)
  end.

Definition clustering_features (hsv_pixels : list hsv) : list (list R) :=
  List.map
    (fun p =>
       let h_rad := Np.radians (Q2R (hue p)) in
       [cos h_rad * 2; sin h_rad * 2; Q2R (sat p) / 50; Q2R (val p) / 100]%R)
    hsv_pixels.

Definition n_clusters (k : nat) (hsv_pixels : list hsv) : nat :=
  Nat.min k (List.length hsv_pixels).

(** The circular mean of the hues of a cluster, in degrees, in exact
    arithmetic; [Single.avg_h] is its [float32] evaluation. *)
Definition circular_mean_hue (hues : list R) : R :=
  Np.rmod
    (Np.degrees
       (Np.arctan2
          (Np.rmean (List.map (fun h => sin (Np.radians h)) hues))
          (Np.rmean (List.map (fun h => cos (Np.radians h)) hues))))
    360.

Definition avg_h (cluster_hsv : list hsv) : R :=
  circular_mean_hue (List.map (fun p => Q2R (hue p)) cluster_hsv).

Record cluster_entry : Type := ClusterEntry {
  cluster_hsv : list hsv;
  cluster_rgb : list rgb;
  count : nat;
  saturation : Q;
  value : Q;
  score : Q
}.

(** The body of the loop over [zip(unique_labels, counts)], up to the
    score; hue and colour follow from [cluster_hsv]. *)
Definition describe (hsv_pixels : list hsv) (filtered_pixels : list rgb)
    (labels : list nat) (lc : nat * nat) : cluster_entry :=
  let member := List.map (Nat.eqb (fst lc)) labels in
  let c_hsv := Np.mask_select member hsv_pixels in
  let c_rgb := Np.mask_select member filtered_pixels in
  let avg_s := Np.mean (List.map sat c_hsv) in
  let avg_v := Np.mean (List.map val c_hsv) in
  ClusterEntry c_hsv c_rgb (snd lc) avg_s avg_v
    (inject_Z (Z.of_nat (snd lc)) * (1 + avg_s / 50))%Q.

Definition cluster_info (hsv_pixels : list hsv) (filtered_pixels : list rgb)
    (labels : list nat) : list cluster_entry :=
  List.map (describe hsv_pixels filtered_pixels labels)
    (Np.unique_counts labels).

Definition select (hsv_pixels : list hsv) (filtered_pixels : list rgb)
    (labels : list nat) : exn + cluster_entry :=
  of_option ValueError
    (Py.max_by score (cluster_info hsv_pixels filtered_pixels labels)).

(** The colour stored for a cluster. *)
Definition entry_color (e : cluster_entry) : rgb :=
  hsv_to_rgb (avg_h (cluster_hsv e)) (Q2R (saturation e)) (Q2R (value e)).

Definition dominant_color_hsv (E : env) (img : list rgb)
    (k : nat) (size : nat * nat) : exn + string :=
  let pixels := resize E size img in
  match sample pixels with
  | (hsv_pixels, filtered_pixels) =>
      labels ← kmeans_real E (n_clusters k hsv_pixels)
                           (clustering_features hsv_pixels) ;
      best ← select hsv_pixels filtered_pixels labels ;
      inr (hex_color (entry_color best))
  end.

Definition main (E : env) : Pandas.DataFrame -> M Pandas.DataFrame :=
  main_with (download_image E)
    (fun img => dominant_color_hsv E img default_k default_resize).

End Hsv.

(** ** Proof automation *)

(** Unfolds the monadic plumbing of a script. *)
Ltac run_script :=
  unfold mbind, M_bind, result_bind, mret, M_ret, bind, bindE, ret, lift, raise.

(** ** Vocabulary of the statements *)

(** [best], at position [i] of [xs], has a maximal key, and every earlier
    item has a strictly smaller one. *)
Definition first_max_at {A : Type} (key : A -> Q) (xs : list A) (i : nat)
    (best : A) : Prop :=
  xs !! i = Some best /\
  (forall (j : nat) (x : A), xs !! j = Some x -> (key x <= key best)%Q) /\
  (forall (j : nat) (x : A),
      (j < i)%nat -> xs !! j = Some x -> (key x < key best)%Q).

(** The score of the plain script: the member count. *)
Definition count_key (lc : nat * nat) : Q := inject_Z (Z.of_nat (snd lc)).

(** A fitted model over three-channel rows: at least one sample, and a
    three-component centre for every label in use. *)
Definition well_formed (km : clustering) : Prop :=
  labels_ km <> [] /\
  forall l : nat, List.In l (labels_ km) ->
    exists a b c : Q, cluster_centers_ km !! l = Some [a; b; c].

(** No cluster index below a label in use is left without members. *)
Definition gap_free (labels : list nat) : Prop :=
  forall l l' : nat, List.In l labels -> (l' < l)%nat -> List.In l' labels.

(** What the filtered script records for the cluster [lc = (label, count)]. *)
Definition improved_entry_of (km : clustering) (lc : nat * nat)
    (e : Improved.cluster_entry) : Prop :=
  exists a b c : Q,
    cluster_centers_ km !! fst lc = Some [a; b; c] /\
    Improved.color e =
      (Py.round_half_even a, Py.round_half_even b, Py.round_half_even c) /\
    Improved.count e = snd lc /\
    Improved.saturation e =
      snd (fst (Colorsys.rgb_to_hsv (inject_Z (Py.round_half_even a) / 255)
                                    (inject_Z (Py.round_half_even b) / 255)
                                    (inject_Z (Py.round_half_even c) / 255))) /\
    (Improved.score e ==
     inject_Z (Z.of_nat (Improved.count e)) * (1 + 2 * Improved.saturation e))%Q.

(** What the HSV script records for the cluster [lc = (label, count)]. *)
Definition hsv_entry_of (hsv_pixels : list Hsv.hsv) (labels : list nat)
    (lc : nat * nat) (e : Hsv.cluster_entry) : Prop :=
  Hsv.cluster_hsv e =
    List.map snd (List.filter (fun lx => Nat.eqb (fst lc) (fst lx))
                              (List.combine labels hsv_pixels)) /\
  Hsv.count e = snd lc /\
  (Hsv.saturation e ==
   List.fold_right Qplus 0 (List.map Hsv.sat (Hsv.cluster_hsv e))
   / inject_Z (Z.of_nat (List.length (Hsv.cluster_hsv e))))%Q /\
  (Hsv.score e ==
   inject_Z (Z.of_nat (Hsv.count e)) * (1 + Hsv.saturation e / 50))%Q.

(** The number of distinct rows of a sample, as the specification counts
    them. *)
Definition distinct_sample_count (sample : list rgb) : nat :=
  List.length (remove_dups sample).

(** The world after the warning for [url] has been printed. *)
Definition warned (url : string) (e : exn) (w : world) : world :=
  World (cache_dir_exists w) (files w) (requests_log w) (stdout w ++ [(url, e)]).

(** A computation that raises nothing outside the [Exception] hierarchy. *)
Definition raises_only_Exception {A B : Type} (f : A -> M B) : Prop :=
  forall (a : A) (w w' : world) (e : exn),
    f a w = (inl e, w') -> is_Exception e = true.

(** The angle of which the circular mean is the remainder modulo 360, in
    exact arithmetic: [np.degrees(np.arctan2(mean sine, mean cosine))]. *)
Definition mean_angle (hues : list R) : R :=
  Np.degrees
    (Np.arctan2
       (Np.rmean (List.map (fun h => sin (Np.radians h)) hues))
       (Np.rmean (List.map (fun h => cos (Np.radians h)) hues))).

(** ** Concrete inputs *)

Definition red : rgb := (255, 0, 0)%Z.
Definition black : rgb := (0, 0, 0)%Z.
Definition grey : rgb := (128, 128, 128)%Z.
Definition dusty_pink : rgb := (200, 170, 170)%Z.

(** [n] copies of one pixel; the count is binary so that a full 150x150
    matrix stays small as a term. *)
Definition block (p : rgb) (n : N) : list rgb := List.repeat p (N.to_nat n).

(** 150x150 matrices: 15 rows of red over 135 rows of black, respectively
    grey; 75 rows of a pink of saturation 15 over 75 rows of red; all grey. *)
Definition boundary_luminance_pixels : list rgb :=
  block red 2250 ++ block black 20250.
Definition boundary_saturation_pixels : list rgb :=
  block red 2250 ++ block grey 20250.
Definition saturation_15_pixels : list rgb :=
  block dusty_pink 11250 ++ block red 11250.
Definition monochrome_pixels : list rgb := block grey 22500.

Definition rice_url : string := "http://example.com/rice.png".
Definition rice_digest : string :=
  "04f38bf6216e36d8a75f3fb6087fd8395d16aaa908d66447d97512e70bef5d4f".
Definition rice_path : string :=
  ".image_cache/04f38bf6216e36d8a75f3fb6087fd8395d16aaa908d66447d97512e70bef5d4f.img".

(** SHA-256 restricted to the one URL of the examples; any other argument
    gets the digest of the empty string. *)
Definition digest_table (url : string) : string :=
  if String.eqb url rice_url then rice_digest
  else "e3b0c44298fc1c149afbf4c8996fb92427ae41e4649b934ca495991b7852b855".

Definition png_magic : bytes := [Byte.x89; Byte.x50; Byte.x4e; Byte.x47].

(** A 1x1 image whose only pixel is fully transparent black. *)
Definition transparent_image : image := ImageRGBA [(0, 0, 0, 0)%Z].

(** A clustering oracle that puts every row in cluster 0, centred on the
    first row. *)
Definition one_cluster (n : nat) (rows : list (list Q)) : exn + clustering :=
  match rows with
  | [] => inl ValueError
  | r :: _ => inr (Clustering (List.map (fun _ => 0%nat) rows) [r])
  end.

Definition one_cluster_real (n : nat) (rows : list (list R)) : exn + list nat :=
  match rows with
  | [] => inl ValueError
  | _ :: _ => inr (List.map (fun _ => 0%nat) rows)
  end.

(** An environment whose server always answers, whose decoder always yields
    [transparent_image] and whose resampler is the identity; the two
    arguments choose the file-system faults. *)
Definition example_env (fault : option exn) (wr : write_outcome) : env :=
  Env digest_table (fun _ _ => inr png_magic) fault (fun _ => wr)
      (fun _ => inr transparent_image) (fun _ px => px)
      one_cluster one_cluster_real.

Definition fresh_world : world := World false ∅ [] [].
Definition warm_world : world := World true {[ rice_path := png_magic ]} [] [].

Definition example_frame : Pandas.DataFrame :=
  [("crop_name"%string, [Some "rice"; Some "unknown"; Some "paddy"]%string);
   ("image_url"%string, [Some rice_url; None; Some rice_url])].

Definition example_colors : list Pandas.cell :=
  [Some "#ffffff"; None; Some "#ffffff"]%string.

(** Five samples in two clusters; cluster 1 is the larger one. *)
Definition example_clustering : clustering :=
  Clustering [0; 1; 1; 0; 1]%nat
    [[21 # 2; 20; 30]; [200; 502 # 5; 50]]%Q.

(** A fitted model whose cluster 0 has no member: three samples, two in
    cluster 1 and one in cluster 2. *)
Definition gap_clustering : clustering :=
  Clustering [1; 1; 2]%nat [[10; 10; 10]; [200; 0; 0]; [0; 0; 200]]%Q.

(** A cluster of two reds on either side of the hue 0: the [hsv_pixels]
    rows of the pixels (130, 101, 100) and (130, 100, 101). *)
Definition wrap_cluster : list Hsv.hsv :=
  [(2, 300 # 13, 2600 # 51); (358, 300 # 13, 2600 # 51)]%Q.

(** The [float32] values met on the hues 2 and 358: the two radians, their
    sines and cosines, the two means, the arctangent and its degrees.  The
    sines, the cosines and the arctangent are the correctly rounded ones;
    the other entries are binary32 arithmetic.  Elsewhere the table is not
    consulted and holds 0. *)
Definition numpy_at_wrap : Single.numpy :=
  Single.Numpy
    (fun h => if Qeq_bool h 2 then 9370165 # 268435456
              else if Qeq_bool h 358 then 6551795 # 1048576 else 0)%Q
    (fun a => if Qeq_bool a (9370165 # 268435456) then 4684131 # 134217728
              else if Qeq_bool a (6551795 # 1048576)
                   then (-4684145) # 134217728 else 0)%Q
    (fun a => if Qeq_bool a (9370165 # 268435456) then 4191749 # 4194304
              else if Qeq_bool a (6551795 # 1048576)
                   then 4191749 # 4194304 else 0)%Q
    Np.mean
    (fun y x => if Qeq_bool y ((-7) # 134217728)
                   && Qeq_bool x (4191749 # 4194304)
                then (-3672253) # 70368744177664 else 0)%Q
    (fun a => if Qeq_bool a ((-3672253) # 70368744177664)
              then (-821893) # 274877906944 else 0)%Q.

(** ** Vocabulary of the further properties *)

(** An 8-bit channel value, and pixels made of such channels. *)
Definition channel_8bit (c : Z) : Prop := (0 <= c <= 255)%Z.
Definition rgb_8bit (p : rgb) : Prop :=
  match p with
  | (r, g, b) => channel_8bit r /\ channel_8bit g /\ channel_8bit b
  end.
Definition rgba_8bit (p : rgba) : Prop :=
  match p with
  | (r, g, b, a) =>
      channel_8bit r /\ channel_8bit g /\ channel_8bit b /\ channel_8bit a
  end.

(** Near-black and near-white, as [is_extreme_color] reads them at its
    default threshold of 20. *)
Definition near_black (p : rgb) : Prop :=
  match p with (r, g, b) => (r < 20 /\ g < 20 /\ b < 20)%Z end.
Definition near_white (p : rgb) : Prop :=
  match p with (r, g, b) => (235 < r /\ 235 < g /\ 235 < b)%Z end.

(** A pixel whose three channels are equal. *)
Definition grey_pixel (p : rgb) : Prop :=
  match p with (r, g, b) => r = g /\ g = b end.

(** The largest and the smallest channel of a pixel. *)
Definition max_channel (p : rgb) : Z :=
  match p with (r, g, b) => Z.max (Z.max r g) b end.
Definition min_channel (p : rgb) : Z :=
  match p with (r, g, b) => Z.min (Z.min r g) b end.

(** A row of [hsv_pixels] within the ranges [rgb_to_hsv_array] documents:
    hue in [0,360), saturation and value in [0,100]. *)
Definition hsv_row (p : Hsv.hsv) : Prop :=
  (0 <= Hsv.hue p < 360)%Q /\ (0 <= Hsv.sat p <= 100)%Q /\
  (0 <= Hsv.val p <= 100)%Q.

(** The four features of a row, within the ranges the comments of the HSV
    script give: the hue as a point of the circle of radius 2, the
    saturation in [0,2], the value in [0,1]. *)
Definition feature_row (row : list R) : Prop :=
  exists x y s v : R,
    row = [x; y; s; v] /\ (x * x + y * y = 4)%R /\
    (-2 <= x <= 2)%R /\ (-2 <= y <= 2)%R /\ (0 <= s <= 2)%R /\ (0 <= v <= 1)%R.

(** The composited pixel [c] is no darker than the source pixel [p] in any
    channel, and equals it where the source is opaque. *)
Definition lightened (p : rgba) (c : rgb) : Prop :=
  match p, c with
  | (r, g, b, a), (r', g', b') =>
      (r <= r' <= 255)%Z /\ (g <= g' <= 255)%Z /\ (b <= b' <= 255)%Z /\
      (a = 255%Z -> c = (r, g, b))
  end.

(** The lowercase hexadecimal digit of a value below 16, its inverse, and
    the two digits of a value below 256. *)
Definition nibble (d : Z) : ascii :=
  match String.get (Z.to_nat d) "0123456789abcdef" with
  | Some c => c
  | None => "0"%char
  end.

Definition nibble_value (c : ascii) : Z :=
  match List.find (fun d => Ascii.eqb (nibble d) c)
                  (List.map Z.of_nat (List.seq 0 16)) with
  | Some d => d
  | None => 0
  end.

Definition two_digits (n : Z) : string :=
  String (nibble (n / 16)) (String (nibble (n mod 16)) EmptyString).

(** Every centre of a fitted model lies in the cube of 8-bit colours, as
    the means of 8-bit samples do. *)
Definition centres_in_cube (km : clustering) : Prop :=
  List.Forall (List.Forall (fun c => 0 <= c <= 255)%Q) (cluster_centers_ km).

(** The cache directory is there or can be created. *)
Definition cache_dir_ready (E : env) (w : world) : Prop :=
  cache_dir_exists w = true \/ makedirs_fault E = None.

(** What a call adds to the request log: nothing, or the URL it was given,
    and the latter only when the URL had no cache file. *)
Definition requests_at_most (E : env) (url : string) (w w' : world) : Prop :=
  requests_log w' = requests_log w \/
  (files w !! filename_for_url E url = None /\
   requests_log w' = requests_log w ++ [url]).

(** The URLs of a list that have no cache file. *)
Definition uncached (E : env) (w : world) (urls : list string) : list string :=
  List.filter (fun u => bool_decide (files w !! filename_for_url E u = None)) urls.

(** The URLs whose entry in [url_to_color] is [None]. *)
Definition failed_urls (d : gmap string Pandas.cell) (urls : list string)
  : list string :=
  List.filter (fun u => bool_decide (d !! u = Some None)) urls.

(** An environment whose server cannot be reached. *)
Definition offline_env : env :=
  Env digest_table (fun _ _ => inl ConnectionError) None (fun _ => Stored)
      (fun _ => inr transparent_image) (fun _ px => px)
      one_cluster one_cluster_real.

(** An environment whose decoder rejects every payload. *)
Definition corrupt_env : env :=
  Env digest_table (fun _ _ => inr png_magic) None (fun _ => Stored)
      (fun _ => inl UnidentifiedImageError) (fun _ px => px)
      one_cluster one_cluster_real.

(** The output of an earlier run, read back as input. *)
Definition stale_frame : Pandas.DataFrame :=
  [("crop_name"%string, [Some "rice"; Some "unknown"; Some "paddy"]%string);
   ("image_url"%string, [Some rice_url; None; Some rice_url]);
   ("dominant_color"%string, [Some "#000000"%string; None; None])].

(** Decides the sign tests of [arctan2] by linear arithmetic. *)
Ltac arctan2_tests :=
  repeat match goal with
         | |- context [Rlt_dec ?x ?y] => destruct (Rlt_dec x y); try Lra.lra
         | |- context [Rle_dec ?x ?y] => destruct (Rle_dec x y); try Lra.lra
         end.

(* ===================================================================== *)
(** * Part II: facts about the embedding *)
(* ===================================================================== *)

(** ** Comparisons and the ten-percent thresholds *)

Lemma Qltb_lt (x y : Q) : Py.Qltb x y = true <-> (x < y)%Q.
Proof.
  unfold Py.Qltb. rewrite negb_true_iff.
  split.
  - intros H. apply Qnot_le_lt. intros Hle.
    apply Qle_bool_iff in Hle. congruence.
  - intros H. destruct (Qle_bool y x) eqn:E; [|reflexivity].
    apply Qle_bool_iff in E. exfalso. revert E. apply Qlt_not_le. exact H.
Qed.

Lemma Qltb_ge (x y : Q) : Py.Qltb x y = false <-> (y <= x)%Q.
Proof.
  unfold Py.Qltb. rewrite negb_false_iff. apply Qle_bool_iff.
Qed.

Lemma below_tenth_spec (kept total : nat) :
  below_tenth kept total = true <-> (10 * kept < total)%nat.
Proof.
  unfold below_tenth. rewrite Qltb_lt.
  unfold Qlt, Qmult, inject_Z. simpl Qnum. simpl Qden. lia.
Qed.

Lemma above_tenth_spec (kept total : nat) :
  above_tenth kept total = true <-> (total < 10 * kept)%nat.
Proof.
  unfold above_tenth. rewrite Qltb_lt.
  unfold Qlt, Qmult, inject_Z. simpl Qnum. simpl Qden. lia.
Qed.

Lemma below_tenth_ltb (kept total : nat) :
  below_tenth kept total = (10 * kept <? total)%nat.
Proof.
  destruct (10 * kept <? total)%nat eqn:E.
  - apply below_tenth_spec. apply Nat.ltb_lt. exact E.
  - destruct (below_tenth kept total) eqn:B; [|reflexivity].
    apply below_tenth_spec in B. apply Nat.ltb_ge in E. lia.
Qed.

Lemma above_tenth_ltb (kept total : nat) :
  above_tenth kept total = (total <? 10 * kept)%nat.
Proof.
  destruct (total <? 10 * kept)%nat eqn:E.
  - apply above_tenth_spec. apply Nat.ltb_lt. exact E.
  - destruct (above_tenth kept total) eqn:B; [|reflexivity].
    apply above_tenth_spec in B. apply Nat.ltb_ge in E. lia.
Qed.

Lemma below_tenth_Z (kept total : nat) :
  below_tenth kept total = (10 * Z.of_nat kept <? Z.of_nat total)%Z.
Proof.
  rewrite below_tenth_ltb.
  destruct (10 * Z.of_nat kept <? Z.of_nat total)%Z eqn:E.
  - apply Nat.ltb_lt. apply Z.ltb_lt in E. lia.
  - apply Nat.ltb_ge. apply Z.ltb_ge in E. lia.
Qed.

Lemma above_tenth_Z (kept total : nat) :
  above_tenth kept total = (Z.of_nat total <? 10 * Z.of_nat kept)%Z.
Proof.
  rewrite above_tenth_ltb.
  destruct (Z.of_nat total <? 10 * Z.of_nat kept)%Z eqn:E.
  - apply Nat.ltb_lt. apply Z.ltb_lt in E. lia.
  - apply Nat.ltb_ge. apply Z.ltb_ge in E. lia.
Qed.

(** ** The same tests in IEEE arithmetic *)

(** On a 150x150 matrix the double [22500 * 0.1] is exactly 2250, and around
    that value the double comparison and the rational one agree. *)
Lemma ieee_tenth_of_matrix :
  SFeqb (Ieee.mul (Ieee.of_int 22500) Ieee.tenth) (Ieee.of_int 2250) = true /\
  List.map (fun kept => (Ieee.below_tenth kept 22500, Ieee.above_tenth kept 22500))
           [2249; 2250; 2251]%Z =
  List.map (fun kept => ((10 * kept <? 22500)%Z, (22500 <? 10 * kept)%Z))
           [2249; 2250; 2251]%Z.
Proof. split; vm_compute; reflexivity. Qed.

(** The twelve pairs (largest, smallest channel) of rational saturation 15
    are stored as the single 15 exactly, and are masked out. *)
Lemma ieee_saturation_15 :
  List.forallb
    (fun k => SFeqb (Ieee.saturation_cell (20 * k) (17 * k))
                    (Ieee.to_single (Ieee.of_int 15))
              && negb (Ieee.high_saturation (20 * k) (17 * k)))
    [1; 2; 3; 4; 5; 6; 7; 8; 9; 10; 11; 12]%Z = true.
Proof. vm_compute. reflexivity. Qed.

(** Their neighbours fall on the same side in both readings. *)
Lemma ieee_saturation_near_15 :
  List.map (fun lo => Ieee.high_saturation 200 lo) [169; 170; 171]%Z =
  List.map (fun lo => Py.Qltb 15 (Hsv.sat (Hsv.rgb_to_hsv_row (200, lo, lo)%Z)))
           [169; 170; 171]%Z.
Proof. vm_compute. reflexivity. Qed.

(** ** Masks, filters and blocks of equal pixels *)

Section MaskFacts.
Context {A B : Type}.

Lemma mask_select_map_filter (f : A -> bool) (xs : list A) :
  Np.mask_select (List.map f xs) xs = List.filter f xs.
Proof.
  induction xs as [|x xs IH]; simpl; [reflexivity|].
  destruct (f x); rewrite IH; reflexivity.
Qed.

Lemma mask_select_map (g : A -> B) (mask : list bool) (xs : list A) :
  Np.mask_select mask (List.map g xs) = List.map g (Np.mask_select mask xs).
Proof.
  revert xs. induction mask as [|m mask IH]; intros [|x xs]; simpl; try reflexivity.
  destruct m; simpl; rewrite IH; reflexivity.
Qed.

Lemma mask_sum_map (f : A -> bool) (xs : list A) :
  Np.mask_sum (List.map f xs) = List.length (List.filter f xs).
Proof.
  unfold Np.mask_sum.
  induction xs as [|x xs IH]; simpl; [reflexivity|].
  destruct (f x); simpl; rewrite IH; reflexivity.
Qed.

Lemma mask_select_combine (f : B -> bool) (ls : list B) (xs : list A) :
  Np.mask_select (List.map f ls) xs =
  List.map snd (List.filter (fun lx => f (fst lx)) (List.combine ls xs)).
Proof.
  revert xs. induction ls as [|l ls IH]; intros [|x xs]; simpl; try reflexivity.
  destruct (f l); simpl; rewrite IH; reflexivity.
Qed.

Lemma filter_repeat (f : A -> bool) (x : A) (n : nat) :
  List.filter f (List.repeat x n) = if f x then List.repeat x n else [].
Proof.
  induction n as [|n IH]; simpl.
  - destruct (f x); reflexivity.
  - destruct (f x) eqn:E; rewrite IH; reflexivity.
Qed.
End MaskFacts.

Lemma mask_select_length {A B : Type} (f : B -> bool) (ls : list B) (xs : list A) :
  List.length ls = List.length xs ->
  List.length (Np.mask_select (List.map f ls) xs) = List.length (List.filter f ls).
Proof.
  revert xs. induction ls as [|l ls IH]; intros [|x xs] Hlen; simpl in *;
    try reflexivity; try discriminate.
  destruct (f l); simpl; rewrite IH by lia; reflexivity.
Qed.

Lemma filter_all {A : Type} (f : A -> bool) (xs : list A) :
  (forall x, List.In x xs -> f x = true) -> List.filter f xs = xs.
Proof.
  induction xs as [|x xs IH]; intros H; simpl; [reflexivity|].
  rewrite (H x) by (left; reflexivity). rewrite IH; [reflexivity|].
  intros y Hy. apply H. right. exact Hy.
Qed.

Lemma block_length p n : Z.of_nat (List.length (block p n)) = Z.of_N n.
Proof. unfold block. rewrite List.repeat_length. apply N_nat_Z. Qed.

Lemma remove_dups_repeat (p : rgb) (n : nat) :
  remove_dups (List.repeat p (S n)) = [p].
Proof.
  induction n as [|n IH]; [reflexivity|].
  change (List.repeat p (S (S n))) with (p :: List.repeat p (S n)).
  cbn [remove_dups].
  destruct (decide_rel elem_of p (List.repeat p (S n))) as [_|Hn]; [exact IH|].
  exfalso. apply Hn. simpl. left.
Qed.

(** ** The pixel filters and their fallbacks *)

Lemma filter_pixels_same (pixels : list rgb) :
  Hsv.filter_pixels pixels = Improved.filter_pixels pixels.
Proof. reflexivity. Qed.

Lemma filter_pixels_cases (pixels : list rgb) :
  Improved.filter_pixels pixels =
  if (10 * List.length (Improved.non_extreme pixels) <? List.length pixels)%nat
  then pixels else Improved.non_extreme pixels.
Proof. unfold Improved.filter_pixels. rewrite below_tenth_ltb. reflexivity. Qed.

Lemma saturation_filter_cases (hsv_pixels : list Hsv.hsv) (filtered_pixels : list rgb) :
  Hsv.saturation_filter hsv_pixels filtered_pixels =
  let mask := Hsv.high_saturation_mask hsv_pixels in
  if (List.length hsv_pixels <? 10 * Np.mask_sum mask)%nat
  then (Np.mask_select mask hsv_pixels, Np.mask_select mask filtered_pixels)
  else (hsv_pixels, filtered_pixels).
Proof. unfold Hsv.saturation_filter. rewrite above_tenth_ltb. reflexivity. Qed.

Lemma filter_pixels_nonempty (pixels : list rgb) :
  pixels <> [] -> Improved.filter_pixels pixels <> [].
Proof.
  intros Hne. rewrite filter_pixels_cases.
  destruct (10 * List.length (Improved.non_extreme pixels) <? List.length pixels)%nat eqn:E;
    [exact Hne|].
  apply Nat.ltb_ge in E. intros Hnil. rewrite Hnil in E. simpl in E.
  destruct pixels; [congruence | simpl in E; lia].
Qed.

Lemma masked_hsv_is_filter (hsv_pixels : list Hsv.hsv) :
  Np.mask_select (Hsv.high_saturation_mask hsv_pixels) hsv_pixels =
  List.filter (fun p => Py.Qltb 15 (Hsv.sat p)) hsv_pixels.
Proof. apply mask_select_map_filter. Qed.

Lemma saturation_filter_nonempty (hsv_pixels : list Hsv.hsv) (filtered_pixels : list rgb) :
  hsv_pixels <> [] ->
  fst (Hsv.saturation_filter hsv_pixels filtered_pixels) <> [].
Proof.
  intros Hne. rewrite saturation_filter_cases. cbv zeta.
  destruct (List.length hsv_pixels <? _)%nat eqn:E; simpl; [|exact Hne].
  apply Nat.ltb_lt in E. rewrite masked_hsv_is_filter.
  unfold Hsv.high_saturation_mask in E. rewrite mask_sum_map in E.
  intros Hnil. rewrite Hnil in E. simpl in E. lia.
Qed.

Lemma saturation_filter_lockstep (filtered_pixels : list rgb) :
  fst (Hsv.saturation_filter (Hsv.rgb_to_hsv_array filtered_pixels) filtered_pixels) =
  Hsv.rgb_to_hsv_array
    (snd (Hsv.saturation_filter (Hsv.rgb_to_hsv_array filtered_pixels) filtered_pixels)).
Proof.
  unfold Hsv.saturation_filter.
  destruct (above_tenth _ _); simpl; [|reflexivity].
  unfold Hsv.rgb_to_hsv_array. apply mask_select_map.
Qed.

Lemma sample_lockstep (pixels : list rgb) :
  fst (Hsv.sample pixels) = Hsv.rgb_to_hsv_array (snd (Hsv.sample pixels)).
Proof.
  unfold Hsv.sample.
  pose proof (saturation_filter_lockstep (Hsv.filter_pixels pixels)) as H.
  destruct (Hsv.saturation_filter _ _) as [h f]. simpl in H.
  destruct (List.length h =? 0)%nat; simpl; [reflexivity | exact H].
Qed.

Lemma sample_nonempty (pixels : list rgb) :
  pixels <> [] -> fst (Hsv.sample pixels) <> [].
Proof.
  intros Hne. unfold Hsv.sample.
  pose proof (saturation_filter_nonempty
                (Hsv.rgb_to_hsv_array (Hsv.filter_pixels pixels))
                (Hsv.filter_pixels pixels)) as H.
  destruct (Hsv.saturation_filter _ _) as [h f]. simpl in H.
  destruct (List.length h =? 0)%nat eqn:E; simpl.
  - unfold Hsv.rgb_to_hsv_array. destruct pixels; [congruence | discriminate].
  - apply H. unfold Hsv.rgb_to_hsv_array.
    pose proof (filter_pixels_nonempty pixels Hne) as Hf.
    rewrite <- filter_pixels_same in Hf.
    destruct (Hsv.filter_pixels pixels); [congruence | discriminate].
Qed.

(** The empty-sample branch of [sample] is never taken on a non-empty
    image. *)
Lemma sample_is_saturation_filter (pixels : list rgb) :
  pixels <> [] ->
  Hsv.sample pixels =
  Hsv.saturation_filter (Hsv.rgb_to_hsv_array (Hsv.filter_pixels pixels))
                        (Hsv.filter_pixels pixels).
Proof.
  intros Hne. unfold Hsv.sample.
  pose proof (saturation_filter_nonempty
                (Hsv.rgb_to_hsv_array (Hsv.filter_pixels pixels))
                (Hsv.filter_pixels pixels)) as H.
  destruct (Hsv.saturation_filter _ _) as [h f]. simpl in H.
  destruct (List.length h =? 0)%nat eqn:E; [|reflexivity].
  apply Nat.eqb_eq in E. exfalso. apply H.
  - unfold Hsv.rgb_to_hsv_array.
    pose proof (filter_pixels_nonempty pixels Hne) as Hf.
    rewrite <- filter_pixels_same in Hf.
    destruct (Hsv.filter_pixels pixels); [congruence | discriminate].
  - destruct h; [reflexivity | discriminate].
Qed.

Lemma monochrome_unfiltered : Improved.filter_pixels monochrome_pixels = monochrome_pixels.
Proof.
  unfold Improved.filter_pixels.
  assert (Hn : Improved.non_extreme monochrome_pixels = monochrome_pixels).
  { unfold Improved.non_extreme, monochrome_pixels, block. rewrite filter_repeat.
    change (negb (Improved.is_extreme_color 128 128 128 20)) with true.
    reflexivity. }
  rewrite Hn. destruct (below_tenth _ _); reflexivity.
Qed.

(** ** The enumeration of clusters *)

Lemma occurrences_pos_In (l : nat) (labels : list nat) :
  (0 < Np.occurrences l labels)%nat <-> List.In l labels.
Proof.
  unfold Np.occurrences. split.
  - intros H. destruct (List.filter (Nat.eqb l) labels) as [|x xs] eqn:E;
      [simpl in H; lia|].
    assert (Hx : List.In x (List.filter (Nat.eqb l) labels)) by (rewrite E; left; reflexivity).
    apply List.filter_In in Hx. destruct Hx as [Hin Heq].
    apply Nat.eqb_eq in Heq. subst x. exact Hin.
  - intros H.
    assert (Hx : List.In l (List.filter (Nat.eqb l) labels)).
    { apply List.filter_In. split; [exact H | apply Nat.eqb_refl]. }
    destruct (List.filter (Nat.eqb l) labels); [destruct Hx | simpl; lia].
Qed.

Lemma In_le_list_max (l : nat) (labels : list nat) :
  List.In l labels -> (l <= list_max labels)%nat.
Proof.
  intros H.
  pose proof (proj1 (list_max_le labels (list_max labels)) (Nat.le_refl _)) as HF.
  rewrite List.Forall_forall in HF. apply HF. exact H.
Qed.

Lemma unique_counts_In (labels : list nat) (l n : nat) :
  List.In (l, n) (Np.unique_counts labels) <->
  n = Np.occurrences l labels /\ (0 < n)%nat.
Proof.
  unfold Np.unique_counts. rewrite List.filter_In, List.in_map_iff. cbn [snd].
  split.
  - intros [(x & Hx & _) Hn]. inversion Hx; subst.
    split; [reflexivity|].
    destruct (Np.occurrences l labels); [discriminate | lia].
  - intros [-> Hpos]. split.
    + exists l. split; [reflexivity|]. apply List.in_seq.
      apply occurrences_pos_In in Hpos. apply In_le_list_max in Hpos. lia.
    + destruct (Np.occurrences l labels); [lia | reflexivity].
Qed.

Lemma unique_counts_nonempty (labels : list nat) :
  labels <> [] -> Np.unique_counts labels <> [].
Proof.
  destruct labels as [|l rest]; [congruence|]. intros _ Hnil.
  assert (H : List.In (l, Np.occurrences l (l :: rest)) (Np.unique_counts (l :: rest))).
  { apply unique_counts_In. split; [reflexivity|].
    apply occurrences_pos_In. left. reflexivity. }
  rewrite Hnil in H. destruct H.
Qed.

(** Labels come out in strictly ascending order. *)
Lemma filter_seq_sorted (f : nat * nat -> bool) (g : nat -> nat) (len a : nat) :
  StronglySorted lt
    (List.map fst (List.filter f (List.map (fun l => (l, g l)) (List.seq a len)))) /\
  List.Forall (fun l => a <= l)%nat
    (List.map fst (List.filter f (List.map (fun l => (l, g l)) (List.seq a len)))).
Proof.
  revert a. induction len as [|len IH]; intros a; simpl.
  - split; constructor.
  - destruct (IH (S a)) as [Hs Hb].
    assert (Hb' : List.Forall (fun l => a <= l)%nat
              (List.map fst (List.filter f
                 (List.map (fun l => (l, g l)) (List.seq (S a) len))))).
    { eapply List.Forall_impl; [|exact Hb]. simpl. intros; lia. }
    destruct (f (a, g a)); simpl.
    + split.
      * constructor; [exact Hs|].
        eapply List.Forall_impl; [|exact Hb]. simpl. intros; lia.
      * constructor; [lia | exact Hb'].
    + split; [exact Hs | exact Hb'].
Qed.

Lemma unique_counts_sorted (labels : list nat) :
  StronglySorted lt (List.map fst (Np.unique_counts labels)).
Proof. unfold Np.unique_counts. apply filter_seq_sorted. Qed.

Lemma list_max_In (labels : list nat) :
  labels <> [] -> List.In (list_max labels) labels.
Proof.
  induction labels as [|x rest IH]; [congruence|]. intros _.
  destruct rest as [|y rest'].
  - left. simpl. lia.
  - change (list_max (x :: y :: rest')) with (Nat.max x (list_max (y :: rest'))).
    destruct (Nat.max_spec x (list_max (y :: rest'))) as [[_ ->]|[_ ->]].
    + right. apply IH. discriminate.
    + left. reflexivity.
Qed.

Lemma gap_free_unique_counts (labels : list nat) :
  gap_free labels -> labels <> [] ->
  Np.unique_counts labels =
  List.map (fun l => (l, Np.occurrences l labels)) (List.seq 0 (S (list_max labels))).
Proof.
  intros Hgap Hne. unfold Np.unique_counts. apply filter_all.
  intros [l n] Hin. apply List.in_map_iff in Hin. destruct Hin as (x & Hx & Hseq).
  inversion Hx; subst. cbn [snd]. apply List.in_seq in Hseq.
  assert (Hin : List.In l labels).
  { destruct (decide (l = list_max labels)) as [->|Hneq].
    - apply list_max_In. exact Hne.
    - apply (Hgap (list_max labels)); [apply list_max_In; exact Hne | lia]. }
  apply occurrences_pos_In in Hin.
  destruct (Np.occurrences l labels); [lia | reflexivity].
Qed.

Lemma gap_free_lookup (labels : list nat) (i l n : nat) :
  gap_free labels -> labels <> [] ->
  Np.unique_counts labels !! i = Some (l, n) -> l = i.
Proof.
  intros Hgap Hne. rewrite (gap_free_unique_counts labels Hgap Hne).
  rewrite list_lookup_fmap. intros H.
  destruct (List.seq 0 (S (list_max labels)) !! i) as [x|] eqn:E; [|discriminate].
  simpl in H. inversion H; subst.
  apply lookup_seq in E. lia.
Qed.

(** ** First maxima *)

Lemma max_from_first_max {A : Type} (key : A -> Q) (xs : list A) (b : A) :
  exists i : nat, first_max_at key (b :: xs) i (Py.max_from key b xs).
Proof.
  revert b. induction xs as [|x rest IH]; intros b.
  - exists 0%nat. repeat split.
    + intros [|j] y Hy; simpl in Hy; [|discriminate].
      inversion Hy; subst. apply Qle_refl.
    + intros j y Hj. lia.
  - simpl. destruct (Py.Qltb (key b) (key x)) eqn:E.
    + apply Qltb_lt in E.
      destruct (IH x) as (i & Hi & Hall & Hbefore).
      assert (Hx : (key x <= key (Py.max_from key x rest))%Q)
        by (apply (Hall 0%nat); reflexivity).
      exists (S i). repeat split.
      * exact Hi.
      * intros [|j] y Hy; simpl in Hy.
        -- inversion Hy; subst. apply Qlt_le_weak.
           eapply Qlt_le_trans; [exact E | exact Hx].
        -- apply (Hall j). exact Hy.
      * intros [|j] y Hj Hy; simpl in Hy.
        -- inversion Hy; subst. eapply Qlt_le_trans; [exact E | exact Hx].
        -- apply (Hbefore j); [lia | exact Hy].
    + apply Qltb_ge in E.
      destruct (IH b) as (i & Hi & Hall & Hbefore).
      assert (Hb : (key b <= key (Py.max_from key b rest))%Q)
        by (apply (Hall 0%nat); reflexivity).
      destruct i as [|i].
      * exists 0%nat. repeat split.
        -- exact Hi.
        -- intros [|[|j]] y Hy; simpl in Hy.
           ++ inversion Hy; subst. exact Hb.
           ++ inversion Hy; subst. eapply Qle_trans; [exact E | exact Hb].
           ++ apply (Hall (S j)). exact Hy.
        -- intros j y Hj. lia.
      * exists (S (S i)). repeat split.
        -- exact Hi.
        -- intros [|[|j]] y Hy; simpl in Hy.
           ++ inversion Hy; subst. exact Hb.
           ++ inversion Hy; subst. eapply Qle_trans; [exact E | exact Hb].
           ++ apply (Hall (S j)). exact Hy.
        -- intros [|[|j]] y Hj Hy; simpl in Hy.
           ++ inversion Hy; subst. apply (Hbefore 0%nat); [lia | reflexivity].
           ++ inversion Hy; subst. eapply Qle_lt_trans; [exact E|].
              apply (Hbefore 0%nat); [lia | reflexivity].
           ++ apply (Hbefore (S j)); [lia | exact Hy].
Qed.

Lemma max_by_first_max {A : Type} (key : A -> Q) (xs : list A) :
  xs <> [] ->
  exists (i : nat) (best : A),
    Py.max_by key xs = Some best /\ first_max_at key xs i best.
Proof.
  destruct xs as [|b rest]; [congruence|]. intros _.
  destruct (max_from_first_max key rest b) as (i & Hi).
  exists i, (Py.max_from key b rest). split; [reflexivity | exact Hi].
Qed.

(** The first maximal position is unique. *)
Lemma first_max_at_unique {A : Type} (key : A -> Q) (xs : list A) (i j : nat) (a b : A) :
  first_max_at key xs i a -> first_max_at key xs j b -> i = j /\ a = b.
Proof.
  intros (Hi & Ha & Hia) (Hj & Hb & Hjb).
  assert (i = j) as ->.
  { destruct (Nat.lt_trichotomy i j) as [Hlt | [Heq | Hgt]]; [|exact Heq|].
    - exfalso. pose proof (Hjb i a Hlt Hi) as H1. pose proof (Ha j b Hj) as H2.
      apply (Qlt_not_le _ _ H1 H2).
    - exfalso. pose proof (Hia j b Hgt Hj) as H1. pose proof (Hb i a Hi) as H2.
      apply (Qlt_not_le _ _ H1 H2). }
  split; [reflexivity | congruence].
Qed.

Lemma argmax_from_spec (xs : list nat) (pre : list nat) (bi bv : nat) :
  pre !! bi = Some bv ->
  (forall j x, pre !! j = Some x -> (x <= bv)%nat) ->
  (forall j x, (j < bi)%nat -> pre !! j = Some x -> (x < bv)%nat) ->
  let r := Np.argmax_from bi bv (List.length pre) xs in
  exists v, (pre ++ xs) !! r = Some v /\
    (forall j x, (pre ++ xs) !! j = Some x -> (x <= v)%nat) /\
    (forall j x, (j < r)%nat -> (pre ++ xs) !! j = Some x -> (x < v)%nat).
Proof.
  revert pre bi bv. induction xs as [|x rest IH]; intros pre bi bv Hbi Hall Hbefore; simpl.
  - exists bv. rewrite List.app_nil_r. repeat split; assumption.
  - destruct (bv <? x)%nat eqn:E.
    + apply Nat.ltb_lt in E.
      specialize (IH (pre ++ [x]) (List.length pre) x).
      rewrite List.length_app in IH. simpl in IH.
      replace (List.length pre + 1)%nat with (S (List.length pre)) in IH by lia.
      rewrite <- List.app_assoc in IH. simpl in IH. apply IH.
      * rewrite lookup_app_r by lia. rewrite Nat.sub_diag. reflexivity.
      * intros j y Hy. destruct (decide (j < List.length pre)%nat) as [Hlt|Hge].
        -- rewrite lookup_app_l in Hy by exact Hlt. specialize (Hall j y Hy). lia.
        -- rewrite lookup_app_r in Hy by lia.
           destruct (j - List.length pre)%nat; simpl in Hy; [|discriminate].
           inversion Hy; lia.
      * intros j y Hj Hy. rewrite lookup_app_l in Hy by exact Hj.
        specialize (Hall j y Hy). lia.
    + apply Nat.ltb_ge in E.
      specialize (IH (pre ++ [x]) bi bv).
      rewrite List.length_app in IH. simpl in IH.
      replace (List.length pre + 1)%nat with (S (List.length pre)) in IH by lia.
      rewrite <- List.app_assoc in IH. simpl in IH.
      assert (Hlt : (bi < List.length pre)%nat) by (eapply lookup_lt_Some; exact Hbi).
      apply IH.
      * rewrite lookup_app_l by exact Hlt. exact Hbi.
      * intros j y Hy. destruct (decide (j < List.length pre)%nat) as [Hl|Hge].
        -- rewrite lookup_app_l in Hy by exact Hl. apply (Hall j). exact Hy.
        -- rewrite lookup_app_r in Hy by lia.
           destruct (j - List.length pre)%nat; simpl in Hy; [|discriminate].
           inversion Hy; lia.
      * intros j y Hj Hy. rewrite lookup_app_l in Hy by lia.
        apply (Hbefore j); assumption.
Qed.

Lemma argmax_spec (xs : list nat) :
  xs <> [] ->
  exists i v, Np.argmax xs = Some i /\ xs !! i = Some v /\
    (forall j x, xs !! j = Some x -> (x <= v)%nat) /\
    (forall j x, (j < i)%nat -> xs !! j = Some x -> (x < v)%nat).
Proof.
  destruct xs as [|x rest]; [congruence|]. intros _.
  pose proof (argmax_from_spec rest [x] 0 x) as H. simpl in H.
  destruct H as (v & Hv & Hall & Hbefore).
  - reflexivity.
  - intros [|j] y Hy; simpl in Hy; [inversion Hy; lia | discriminate].
  - intros j y Hj. lia.
  - exists (Np.argmax_from 0 x 1 rest), v. repeat split; assumption.
Qed.

(** ** Rounding, saturation and means *)

Lemma round_half_even_nearest (q : Q) :
  (Qabs (inject_Z (Py.round_half_even q) - q) <= 1 # 2)%Q.
Proof.
  pose proof (Qfloor_le q) as Hlo. pose proof (Qlt_floor q) as Hhi.
  assert (Hup : (inject_Z (Qfloor q + 1) == inject_Z (Qfloor q) + 1)%Q)
    by (rewrite inject_Z_plus; reflexivity).
  rewrite Hup in Hhi.
  apply Qabs_Qle_condition. unfold Py.round_half_even.
  destruct (Py.Qltb (q - inject_Z (Qfloor q)) (1 # 2)) eqn:E1;
    [apply Qltb_lt in E1 | apply Qltb_ge in E1;
     destruct (Py.Qltb (1 # 2) (q - inject_Z (Qfloor q))) eqn:E2;
     [apply Qltb_lt in E2 | apply Qltb_ge in E2; destruct (Z.even (Qfloor q))]];
    rewrite ?Hup; revert Hlo Hhi E1; try revert E2;
    generalize (inject_Z (Qfloor q)); intros lo; intros; split; Lqa.lra.
Qed.

Lemma round_half_even_between (lo hi : Z) (q : Q) :
  (inject_Z lo <= q <= inject_Z hi)%Q -> (lo <= Py.round_half_even q <= hi)%Z.
Proof.
  intros [H1 H2]. pose proof (round_half_even_nearest q) as H.
  apply Qabs_Qle_condition in H. destruct H as [H3 H4].
  set (n := Py.round_half_even q) in *.
  assert (Hlo : (inject_Z lo < inject_Z (n + 1))%Q).
  { rewrite inject_Z_plus. change (inject_Z 1) with 1%Q. Lqa.lra. }
  assert (Hhi : (inject_Z n < inject_Z (hi + 1))%Q).
  { rewrite inject_Z_plus. change (inject_Z 1) with 1%Q. Lqa.lra. }
  rewrite <- Zlt_Qlt in Hlo, Hhi. lia.
Qed.

Lemma round_half_even_nonneg (q : Q) : (0 <= q)%Q -> (0 <= Py.round_half_even q)%Z.
Proof.
  intros H1. pose proof (round_half_even_nearest q) as H.
  apply Qabs_Qle_condition in H. destruct H as [H3 H4].
  set (n := Py.round_half_even q) in *.
  assert (Hlo : (inject_Z 0 < inject_Z (n + 1))%Q).
  { rewrite inject_Z_plus. change (inject_Z 1) with 1%Q. change (inject_Z 0) with 0%Q.
    Lqa.lra. }
  rewrite <- Zlt_Qlt in Hlo. lia.
Qed.

Lemma round_half_even_up (n : Z) (q : Q) :
  (inject_Z n - (1 # 2) <= q)%Q -> (q < inject_Z n)%Q -> Z.even n = true ->
  Py.round_half_even q = n.
Proof.
  intros Hlo Hhi Hev.
  pose proof (Qfloor_le q) as Hf1. pose proof (Qlt_floor q) as Hf2.
  assert (Hd : (inject_Z (n - 1) == inject_Z n - 1)%Q).
  { unfold Z.sub. rewrite inject_Z_plus, inject_Z_opp. reflexivity. }
  assert (Hf : Qfloor q = (n - 1)%Z).
  { assert (H1 : (inject_Z (Qfloor q) < inject_Z n)%Q) by Lqa.lra.
    assert (H2 : (inject_Z (n - 1) < inject_Z (Qfloor q + 1))%Q).
    { rewrite Hd. Lqa.lra. }
    rewrite <- Zlt_Qlt in H1, H2. lia. }
  unfold Py.round_half_even. rewrite Hf.
  destruct (Py.Qltb (q - inject_Z (n - 1)) (1 # 2)) eqn:E1.
  { apply Qltb_lt in E1. rewrite Hd in E1. Lqa.lra. }
  destruct (Py.Qltb (1 # 2) (q - inject_Z (n - 1))) eqn:E2; [lia|].
  replace (Z.even (n - 1)) with false; [lia|].
  symmetry. rewrite Z.even_sub, Hev. reflexivity.
Qed.

Lemma qmax_cases (x y : Q) :
  (Colorsys.qmax x y = x /\ (y <= x)%Q) \/ (Colorsys.qmax x y = y /\ (x < y)%Q).
Proof.
  unfold Colorsys.qmax. destruct (Py.Qltb x y) eqn:E.
  - right. split; [reflexivity | apply Qltb_lt; exact E].
  - left. split; [reflexivity | apply Qltb_ge; exact E].
Qed.

Lemma qmin_cases (x y : Q) :
  (Colorsys.qmin x y = x /\ (x <= y)%Q) \/ (Colorsys.qmin x y = y /\ (y < x)%Q).
Proof.
  unfold Colorsys.qmin. destruct (Py.Qltb y x) eqn:E.
  - right. split; [reflexivity | apply Qltb_lt; exact E].
  - left. split; [reflexivity | apply Qltb_ge; exact E].
Qed.

(** The saturation computed by [colorsys] is the relative spread of the
    channels and lies between 0 and 1. *)
Lemma colorsys_saturation_range (r g b : Q) :
  (0 <= r)%Q -> (0 <= g)%Q -> (0 <= b)%Q ->
  (0 <= snd (fst (Colorsys.rgb_to_hsv r g b)) <= 1)%Q.
Proof.
  intros Hr Hg Hb. unfold Colorsys.rgb_to_hsv.
  set (maxc := Colorsys.qmax (Colorsys.qmax r g) b).
  set (minc := Colorsys.qmin (Colorsys.qmin r g) b).
  assert (Hmin0 : (0 <= minc)%Q).
  { subst minc. destruct (qmin_cases (Colorsys.qmin r g) b) as [[-> _]|[-> _]];
      [|exact Hb].
    destruct (qmin_cases r g) as [[-> _]|[-> _]]; assumption. }
  assert (Hle : (minc <= maxc)%Q).
  { subst minc maxc.
    destruct (qmin_cases (Colorsys.qmin r g) b) as [[-> H1]|[-> H1]];
      destruct (qmax_cases (Colorsys.qmax r g) b) as [[-> H2]|[-> H2]];
      destruct (qmin_cases r g) as [[E3 H3]|[E3 H3]];
      destruct (qmax_cases r g) as [[E4 H4]|[E4 H4]];
      rewrite ?E3, ?E4 in *; Lqa.lra. }
  destruct (Qeq_bool minc maxc) eqn:E; simpl.
  - split; Lqa.lra.
  - assert (Hne : ~ (minc == maxc)%Q) by (apply Qeq_bool_neq; exact E).
    assert (Hpos : (0 < maxc)%Q) by Lqa.lra.
    split.
    + apply Qle_shift_div_l; [exact Hpos | Lqa.lra].
    + apply Qle_shift_div_r; [exact Hpos | Lqa.lra].
Qed.

Lemma channel_nonneg (c : Z) : (0 <= c)%Z -> (0 <= inject_Z c / 255)%Q.
Proof.
  intros H. apply Qle_shift_div_l; [reflexivity|].
  rewrite Qmult_0_l. change 0%Q with (inject_Z 0). rewrite <- Zle_Qle. exact H.
Qed.

Lemma improved_saturation_range (r g b : Z) :
  (0 <= r)%Z -> (0 <= g)%Z -> (0 <= b)%Z ->
  (0 <= Improved.get_color_saturation r g b <= 1)%Q.
Proof.
  intros Hr Hg Hb. unfold Improved.get_color_saturation, Improved.rgb_to_hsv.
  pose proof (colorsys_saturation_range _ _ _ (channel_nonneg r Hr)
                (channel_nonneg g Hg) (channel_nonneg b Hb)) as H.
  destruct (Colorsys.rgb_to_hsv _ _ _) as [[h s] v]. exact H.
Qed.

Lemma hsv_saturation_range (r g b : Z) :
  (0 <= r)%Z -> (0 <= g)%Z -> (0 <= b)%Z ->
  (0 <= Hsv.sat (Hsv.rgb_to_hsv_row (r, g, b)) <= 100)%Q.
Proof.
  intros Hr Hg Hb. unfold Hsv.rgb_to_hsv_row, Hsv.sat.
  pose proof (colorsys_saturation_range _ _ _ (channel_nonneg r Hr)
                (channel_nonneg g Hg) (channel_nonneg b Hb)) as H.
  destruct (Colorsys.rgb_to_hsv _ _ _) as [[h s] v]. simpl in *. Lqa.lra.
Qed.

Lemma qsum_from (xs : list Q) (acc : Q) :
  (List.fold_left (fun a x => Qred (a + x)) xs acc == acc + List.fold_right Qplus 0 xs)%Q.
Proof.
  revert acc. induction xs as [|x xs IH]; intros acc; simpl.
  - Lqa.lra.
  - rewrite IH, Qred_correct. Lqa.lra.
Qed.

Lemma mean_is_arithmetic (xs : list Q) :
  (Np.mean xs == List.fold_right Qplus 0 xs / inject_Z (Z.of_nat (List.length xs)))%Q.
Proof.
  unfold Np.mean, Np.qsum. rewrite qsum_from. rewrite Qplus_0_l. reflexivity.
Qed.

(** ** Scoring and selection *)

Lemma describe_all_ok (km : clustering) (lcs : list (nat * nat)) :
  (forall lc, List.In lc lcs ->
     exists a b c : Q, cluster_centers_ km !! fst lc = Some [a; b; c]) ->
  exists info : list Improved.cluster_entry,
    Improved.describe_all km lcs = inr info /\
    List.Forall2 (improved_entry_of km) lcs info.
Proof.
  induction lcs as [|lc rest IH]; intros H.
  - exists []. split; [reflexivity | constructor].
  - destruct (H lc (or_introl eq_refl)) as (a & b & c & Hc).
    destruct IH as (info & Hinfo & HF).
    { intros lc' Hin. apply H. right. exact Hin. }
    cbn [Improved.describe_all]. unfold Improved.describe at 1.
    rewrite Hc. cbn. rewrite Hinfo. cbn.
    eexists. split; [reflexivity|].
    constructor; [|exact HF].
    exists a, b, c. cbn.
    split; [exact Hc|]. split; [reflexivity|]. split; [reflexivity|]. split.
    + unfold Improved.get_color_saturation, Improved.rgb_to_hsv.
      destruct (Colorsys.rgb_to_hsv _ _ _) as [[h s] v]. reflexivity.
    + ring.
Qed.

Lemma hsv_cluster_info_ok (hsv_pixels : list Hsv.hsv) (filtered_pixels : list rgb)
    (labels : list nat) (lcs : list (nat * nat)) :
  List.Forall2 (hsv_entry_of hsv_pixels labels) lcs
    (List.map (Hsv.describe hsv_pixels filtered_pixels labels) lcs).
Proof.
  induction lcs as [|lc rest IH]; simpl; constructor; [|exact IH].
  unfold hsv_entry_of, Hsv.describe. cbn.
  split; [apply mask_select_combine|].
  split; [reflexivity|].
  split; [|reflexivity].
  rewrite mean_is_arithmetic, List.length_map. reflexivity.
Qed.

Lemma Forall2_nonempty {A B : Type} (P : A -> B -> Prop) (xs : list A) (ys : list B) :
  List.Forall2 P xs ys -> xs <> [] -> ys <> [].
Proof. intros H Hne. destruct H; [congruence | discriminate]. Qed.

Lemma plain_select_ok (km : clustering) :
  well_formed km -> gap_free (labels_ km) ->
  exists (i n : nat) (a b c : Q),
    first_max_at count_key (Np.unique_counts (labels_ km)) i (i, n) /\
    cluster_centers_ km !! i = Some [a; b; c] /\
    Plain.select km =
      inr (Py.round_half_even a, Py.round_half_even b, Py.round_half_even c).
Proof.
  intros [Hne Hcentres] Hgap.
  set (ucs := Np.unique_counts (labels_ km)).
  assert (Hucs : ucs <> []) by (apply unique_counts_nonempty; exact Hne).
  assert (Hcounts : List.map snd ucs <> []).
  { destruct ucs; [congruence | discriminate]. }
  destruct (argmax_spec _ Hcounts) as (i & v & Harg & Hi & Hall & Hbefore).
  rewrite list_lookup_fmap in Hi.
  destruct (ucs !! i) as [[l n]|] eqn:E; [|discriminate].
  simpl in Hi. inversion Hi; subst v. clear Hi.
  assert (l = i) as -> by (eapply gap_free_lookup; eassumption).
  assert (Hin : List.In (i, n) ucs).
  { apply list_elem_of_In. eapply list_elem_of_lookup_2. exact E. }
  apply unique_counts_In in Hin. destruct Hin as [Hn Hpos].
  rewrite Hn in Hpos. apply occurrences_pos_In in Hpos.
  destruct (Hcentres i Hpos) as (a & b & c & Hc).
  exists i, n, a, b, c. split; [|split; [exact Hc|]].
  - split; [exact E|]. unfold count_key. split.
    + intros j [l' n'] Hj. cbn [snd]. rewrite <- Zle_Qle.
      apply Nat2Z.inj_le. apply (Hall j). rewrite list_lookup_fmap, Hj. reflexivity.
    + intros j [l' n'] Hlt Hj. cbn [snd]. rewrite <- Zlt_Qlt.
      apply Nat2Z.inj_lt. apply (Hbefore j); [exact Hlt|].
      rewrite list_lookup_fmap, Hj. reflexivity.
  - unfold Plain.select. fold ucs. rewrite Harg. cbn. rewrite Hc. reflexivity.
Qed.

(** Where the labels do leave a gap, position and label part ways: with
    labels 1, 1, 2 the plain script returns the rounded centre of cluster 0,
    which has no member, while the filtered script returns that of
    cluster 1. *)
Lemma select_on_a_gap :
  let km := Clustering [1; 1; 2]%nat [[10; 10; 10]; [200; 0; 0]; [0; 0; 200]]%Q in
  Plain.select km = inr (10, 10, 10)%Z /\
  (e ← Improved.select km ; inr (Improved.color e)) = inr (200, 0, 0)%Z.
Proof. split; vm_compute; reflexivity. Qed.

(** ** Positions in a strictly ascending list of labels *)

Lemma sorted_after_head (a : nat) (xs : list nat) (j l : nat) :
  StronglySorted lt (a :: xs) -> xs !! j = Some l -> (a + S j <= l)%nat.
Proof.
  revert a j. induction xs as [|b ys IH]; intros a j Hs Hj; [discriminate|].
  apply StronglySorted_inv in Hs. destruct Hs as [Hs Hall].
  apply List.Forall_inv in Hall as Hab.
  destruct j as [|j'].
  - cbn in Hj. inversion Hj; subst. lia.
  - cbn in Hj. specialize (IH b j' Hs Hj). lia.
Qed.

Lemma sorted_gap (xs : list nat) (j i a b : nat) :
  StronglySorted lt xs ->
  xs !! j = Some a -> xs !! i = Some b -> (j <= i)%nat -> (a + (i - j) <= b)%nat.
Proof.
  revert j i. induction xs as [|x rest IH]; intros j i Hs Hj Hi Hle; [discriminate|].
  destruct j as [|j'].
  - cbn in Hj. inversion Hj; subst x.
    destruct i as [|i']; [cbn in Hi; inversion Hi; lia|].
    cbn in Hi. pose proof (sorted_after_head a rest i' b Hs Hi). lia.
  - destruct i as [|i']; [lia|]. cbn in Hj, Hi.
    apply StronglySorted_inv in Hs. destruct Hs as [Hs _].
    specialize (IH j' i' Hs Hj Hi). lia.
Qed.

Lemma sorted_index_le (xs : list nat) (i l : nat) :
  StronglySorted lt xs -> xs !! i = Some l -> (i <= l)%nat.
Proof.
  intros Hs Hi. destruct xs as [|x rest]; [discriminate|].
  destruct i as [|i']; [lia|]. cbn in Hi.
  pose proof (sorted_after_head x rest i' l Hs Hi). lia.
Qed.

(** The position of a label among the labels in use is the label itself
    exactly when no smaller label is missing. *)
Lemma sorted_position (xs : list nat) (i l : nat) :
  StronglySorted lt xs -> xs !! i = Some l ->
  (i = l <-> forall l' : nat, (l' < l)%nat -> List.In l' xs).
Proof.
  intros Hs Hi. split.
  - intros <- l' Hl'.
    assert (Hlen : (l' < List.length xs)%nat).
    { apply lookup_lt_Some in Hi. lia. }
    destruct (lookup_lt_is_Some_2 xs l' Hlen) as [a Ha].
    pose proof (sorted_index_le xs l' a Hs Ha).
    pose proof (sorted_gap xs l' i a i Hs Ha Hi ltac:(lia)).
    assert (a = l') by lia. subst a.
    apply list_elem_of_In. eapply list_elem_of_lookup_2. exact Ha.
  - intros Hall. pose proof (sorted_index_le xs i l Hs Hi) as Hle.
    assert (Hincl : List.incl (List.seq 0 l) (List.firstn i xs)).
    { intros l' Hin. apply List.in_seq in Hin.
      specialize (Hall l' ltac:(lia)).
      apply list_elem_of_In, list_elem_of_lookup_1 in Hall.
      destruct Hall as [j Hj].
      apply list_elem_of_In, elem_of_take. exists j. split; [exact Hj|].
      destruct (Nat.lt_ge_cases j i) as [Hlt|Hge]; [exact Hlt|].
      pose proof (sorted_gap xs i j l l' Hs Hi Hj Hge). lia. }
    apply List.NoDup_incl_length in Hincl; [|apply List.seq_NoDup].
    rewrite List.length_seq in Hincl.
    pose proof (List.firstn_le_length i xs). lia.
Qed.

(** The plain script reads the centre at the position, among the labels in
    use, of the first cluster of maximal count. *)
Lemma plain_select_position (km : clustering) :
  labels_ km <> [] ->
  exists i l n : nat,
    first_max_at count_key (Np.unique_counts (labels_ km)) i (l, n) /\
    n = Np.occurrences l (labels_ km) /\
    (0 < n)%nat /\
    Plain.select km =
      (color ← of_option IndexError (cluster_centers_ km !! i) ;
       unpack3 (List.map Py.round_half_even color)) /\
    (i <= l)%nat /\
    (i = l <-> forall l' : nat, (l' < l)%nat -> List.In l' (labels_ km)).
Proof.
  intros Hne.
  set (ucs := Np.unique_counts (labels_ km)).
  assert (Hucs : ucs <> []) by (apply unique_counts_nonempty; exact Hne).
  assert (Hcounts : List.map snd ucs <> []).
  { destruct ucs; [congruence | discriminate]. }
  destruct (argmax_spec _ Hcounts) as (i & v & Harg & Hi & Hall & Hbefore).
  rewrite list_lookup_fmap in Hi.
  destruct (ucs !! i) as [[l n]|] eqn:Hl; [|discriminate].
  cbn in Hi. inversion Hi; subst v. clear Hi.
  assert (Hin : List.In (l, n) ucs).
  { apply list_elem_of_In. eapply list_elem_of_lookup_2. exact Hl. }
  apply unique_counts_In in Hin. destruct Hin as [Hn Hpos].
  assert (Hfst : List.map fst ucs !! i = Some l).
  { rewrite list_lookup_fmap, Hl. reflexivity. }
  pose proof (unique_counts_sorted (labels_ km)) as Hs. fold ucs in Hs.
  exists i, l, n. split; [|split; [exact Hn|split; [exact Hpos|split; [|split]]]].
  - split; [exact Hl|]. split.
    + intros j [l' n'] Hj. unfold count_key. cbn [snd].
      rewrite <- Zle_Qle. apply inj_le. apply (Hall j).
      rewrite list_lookup_fmap, Hj. reflexivity.
    + intros j [l' n'] Hlt Hj. unfold count_key. cbn [snd].
      rewrite <- Zlt_Qlt. apply inj_lt. apply (Hbefore j); [exact Hlt|].
      rewrite list_lookup_fmap, Hj. reflexivity.
  - unfold Plain.select. fold ucs. rewrite Harg. reflexivity.
  - eapply sorted_index_le; eassumption.
  - rewrite (sorted_position _ i l Hs Hfst). split.
    + intros H l' Hl'. specialize (H l' Hl').
      apply List.in_map_iff in H. destruct H as ([l0 n0] & Heq & Hin0).
      cbn in Heq. subst l0. apply unique_counts_In in Hin0.
      destruct Hin0 as [-> Hp]. apply occurrences_pos_In. exact Hp.
    + intros H l' Hl'. specialize (H l' Hl').
      apply List.in_map_iff. exists (l', Np.occurrences l' (labels_ km)).
      split; [reflexivity|]. apply unique_counts_In. split; [reflexivity|].
      apply occurrences_pos_In. exact H.
Qed.

(** ** The cache *)

Lemma fetch_cached_hit (E : env) (url : string) (w : world) (content : bytes) :
  cache_dir_exists w = true ->
  files w !! filename_for_url E url = Some content ->
  fetch_cached E url w = (inr content, w).
Proof.
  intros Hdir Hfile. unfold fetch_cached, ensure_cache, path_exists, read_file.
  run_script. rewrite Hdir, Hfile.
  rewrite bool_decide_eq_true_2 by (eexists; reflexivity).
  cbn. rewrite Hfile. reflexivity.
Qed.

Lemma fetch_cached_keeps_files (E : env) (url : string) (w : world)
    (p : string) (b : bytes) :
  files w !! p = Some b ->
  files (snd (fetch_cached E url w)) !! p = Some b.
Proof.
  intros Hp. unfold fetch_cached, ensure_cache, path_exists, read_file,
    requests_get, write_file.
  run_script.
  destruct (cache_dir_exists w) eqn:Hdir;
    [|destruct (makedirs_fault E); [exact Hp|]]; cbn [files cache_dir_exists].
  all: destruct (files w !! filename_for_url E url) as [c|] eqn:Hc.
  all: try (rewrite bool_decide_eq_true_2 by (eexists; reflexivity);
            cbn; rewrite ?Hc; cbn; exact Hp).
  all: rewrite bool_decide_eq_false_2 by (intros [? ?]; discriminate).
  all: cbn.
  all: assert (Hneq : filename_for_url E url <> p) by congruence.
  all: destruct (http_get E _ url); cbn; [exact Hp|].
  all: destruct (open_wb E _); cbn; rewrite ?lookup_insert_eq; cbn;
       rewrite ?lookup_insert_ne by exact Hneq; exact Hp.
Qed.

Lemma fetch_cached_success (E : env) (url : string) (w w1 : world) (c : bytes) :
  fetch_cached E url w = (inr c, w1) ->
  cache_dir_exists w1 = true /\ files w1 !! filename_for_url E url = Some c.
Proof.
  unfold fetch_cached, ensure_cache, path_exists, read_file,
    requests_get, write_file.
  run_script.
  destruct (cache_dir_exists w) eqn:Hdir;
    [|destruct (makedirs_fault E); [discriminate|]]; cbn [files cache_dir_exists].
  all: destruct (files w !! filename_for_url E url) as [c0|] eqn:Hc.
  all: try (rewrite bool_decide_eq_true_2 by (eexists; reflexivity);
            cbn; rewrite ?Hc; cbn; intros H; inversion H; subst; cbn; auto).
  all: rewrite bool_decide_eq_false_2 by (intros [? ?]; discriminate).
  all: cbn.
  all: destruct (http_get E _ url); cbn; [discriminate|].
  all: destruct (open_wb E _); cbn; try discriminate.
  all: rewrite lookup_insert_eq; intros H; inversion H; subst; cbn.
  all: rewrite lookup_insert_eq; auto.
Qed.

Lemma ensure_cache_fault (E : env) (w : world) (e : exn) :
  cache_dir_exists w = false -> makedirs_fault E = Some e ->
  forall url, fetch_cached E url w = (inl e, w).
Proof.
  intros Hdir Hf url. unfold fetch_cached, ensure_cache. run_script.
  rewrite Hdir, Hf. reflexivity.
Qed.

Lemma write_refused (E : env) (url : string) (w : world) (content : bytes) (e : exn) :
  cache_dir_exists w = true ->
  files w !! filename_for_url E url = None ->
  http_get E (List.length (requests_log w)) url = inr content ->
  open_wb E (filename_for_url E url) = Refused e ->
  fetch_cached E url w =
  (inl e, World (cache_dir_exists w) (files w) (requests_log w ++ [url]) (stdout w)).
Proof.
  intros Hdir Hnone Hget Hopen.
  unfold fetch_cached, ensure_cache, path_exists, requests_get, write_file.
  run_script. rewrite Hdir, Hnone.
  rewrite bool_decide_eq_false_2 by (intros [? ?]; discriminate).
  cbn. rewrite Hget. cbn. rewrite Hopen, Hdir. reflexivity.
Qed.

Lemma download_raises (E : env) (url : string) (w w' : world) (e : exn) :
  fetch_cached E url w = (inl e, w') ->
  Plain.download_image E url w = (inl e, w') /\
  Improved.download_image E url w = (inl e, w') /\
  Hsv.download_image E url w = (inl e, w').
Proof.
  intros H. unfold Plain.download_image, Improved.download_image, Hsv.download_image.
  run_script. rewrite H. repeat split.
Qed.

(** ** Compositing over white *)

Lemma div255_exact (k : Z) : (0 <= k <= 255)%Z -> Pillow.div255 (255 * k) = k.
Proof.
  intros H. unfold Pillow.div255. rewrite !Z.shiftr_div_pow2 by lia.
  change (2 ^ 8)%Z with 256%Z. Z.to_euclidean_division_equations. lia.
Qed.

Lemma blend8_transparent (dst src : Z) :
  (0 <= dst <= 255)%Z -> Pillow.blend8 0 dst src = dst.
Proof.
  intros H. unfold Pillow.blend8.
  replace (dst * (255 - 0) + src * 0)%Z with (255 * dst)%Z by lia.
  apply div255_exact. exact H.
Qed.

Lemma blend8_opaque (dst src : Z) :
  (0 <= src <= 255)%Z -> Pillow.blend8 255 dst src = src.
Proof.
  intros H. unfold Pillow.blend8.
  replace (dst * (255 - 255) + src * 255)%Z with (255 * src)%Z by lia.
  apply div255_exact. exact H.
Qed.

Lemma blend8_on_white (a c : Z) :
  (0 <= a <= 255)%Z -> (0 <= c <= 255)%Z ->
  (c <= Pillow.blend8 a 255 c <= 255)%Z.
Proof.
  intros Ha Hc. unfold Pillow.blend8, Pillow.div255.
  rewrite !Z.shiftr_div_pow2 by lia. change (2 ^ 8)%Z with 256%Z.
  assert (H1 : (0 <= c * a <= 255 * a)%Z) by nia.
  assert (H2 : (0 <= (255 - a) * (255 - c))%Z) by nia.
  assert (H3 : ((255 - a) * (255 - c) = 65025 - 255 * a - 255 * c + c * a)%Z) by ring.
  revert H1 H2 H3. generalize (c * a)%Z. intros ca H1 H2 H3.
  Z.to_euclidean_division_equations. lia.
Qed.

Lemma paste_rgba_lookup (px : list rgba) (i : nat) (r g b a : Z) :
  px !! i = Some (r, g, b, a) ->
  Pillow.paste_rgba (Pillow.new_white (List.length px)) px !! i =
  Some (Pillow.blend8 a 255 r, Pillow.blend8 a 255 g, Pillow.blend8 a 255 b).
Proof.
  unfold Pillow.paste_rgba, Pillow.new_white.
  revert i. induction px as [|p px IH]; intros i Hi; [discriminate|].
  destruct i as [|i]; simpl in *.
  - inversion Hi; subst. reflexivity.
  - apply IH. exact Hi.
Qed.

Lemma paste_rgba_length (px : list rgba) :
  List.length (Pillow.paste_rgba (Pillow.new_white (List.length px)) px) = List.length px.
Proof.
  unfold Pillow.paste_rgba, Pillow.new_white.
  rewrite List.length_map, List.length_combine, List.repeat_length. lia.
Qed.

(** ** The batch loop *)

Section BatchFacts.
Variable download : string -> M (list rgb).
Variable extract : list rgb -> exn + string.

Lemma process_url_cases (d : gmap string Pandas.cell) (url : string) (w : world) :
  process_url download extract d url w =
  match attempt download extract d url w with
  | (inl e, w') =>
      if is_Exception e then (inr (<[url := None]> d), warned url e w')
      else (inl e, w')
  | (inr d', w') => (inr d', w')
  end.
Proof.
  unfold process_url, try_except.
  destruct (attempt download extract d url w) as [[e|d'] w']; [|reflexivity].
  destruct (is_Exception e); reflexivity.
Qed.

Lemma attempt_cases (d : gmap string Pandas.cell) (url : string) (w : world) :
  attempt download extract d url w =
  match download url w with
  | (inl e, w') => (inl e, w')
  | (inr img, w') =>
      match extract img with
      | inl e => (inl e, w')
      | inr c => (inr (<[url := Some c]> d), w')
      end
  end.
Proof.
  unfold attempt. run_script.
  destruct (download url w) as [[e|img] w']; [reflexivity|].
  destruct (extract img); reflexivity.
Qed.

Lemma process_url_lookup (d d' : gmap string Pandas.cell) (url : string)
    (w w' : world) :
  process_url download extract d url w = (inr d', w') ->
  (forall u, u <> url -> d' !! u = d !! u) /\ is_Some (d' !! url).
Proof.
  rewrite process_url_cases, attempt_cases.
  destruct (download url w) as [[e|img] w1].
  - destruct (is_Exception e); [|discriminate].
    intros H; inversion H; subst. split.
    + intros u Hu. apply lookup_insert_ne. congruence.
    + rewrite lookup_insert_eq. eexists; reflexivity.
  - destruct (extract img) as [e|c].
    + destruct (is_Exception e); [|discriminate].
      intros H; inversion H; subst. split.
      * intros u Hu. apply lookup_insert_ne. congruence.
      * rewrite lookup_insert_eq. eexists; reflexivity.
    + intros H; inversion H; subst. split.
      * intros u Hu. apply lookup_insert_ne. congruence.
      * rewrite lookup_insert_eq. eexists; reflexivity.
Qed.

Lemma process_url_no_Exception (d : gmap string Pandas.cell) (url : string)
    (w w' : world) (e : exn) :
  process_url download extract d url w = (inl e, w') -> is_Exception e = false.
Proof.
  rewrite process_url_cases.
  destruct (attempt download extract d url w) as [[e0|d'] w1]; [|discriminate].
  destruct (is_Exception e0) eqn:E; [discriminate|].
  intros H; inversion H; subst. exact E.
Qed.

Lemma process_all_cons (url : string) (rest : list string)
    (d : gmap string Pandas.cell) (w : world) :
  process_all download extract (url :: rest) d w =
  match process_url download extract d url w with
  | (inl e, w') => (inl e, w')
  | (inr d', w') => process_all download extract rest d' w'
  end.
Proof. reflexivity. Qed.

Lemma process_all_app (pre post : list string) (d : gmap string Pandas.cell)
    (w : world) :
  process_all download extract (pre ++ post) d w =
  match process_all download extract pre d w with
  | (inl e, w') => (inl e, w')
  | (inr d', w') => process_all download extract post d' w'
  end.
Proof.
  revert d w. induction pre as [|u pre IH]; intros d w; [reflexivity|].
  simpl List.app. rewrite !process_all_cons.
  destruct (process_url download extract d u w) as [[e|d'] w']; [reflexivity|].
  apply IH.
Qed.

Lemma process_all_no_Exception (urls : list string) (d : gmap string Pandas.cell)
    (w w' : world) (e : exn) :
  process_all download extract urls d w = (inl e, w') -> is_Exception e = false.
Proof.
  revert d w. induction urls as [|u rest IH]; intros d w; [discriminate|].
  rewrite process_all_cons.
  destruct (process_url download extract d u w) as [[e0|d'] w1] eqn:E.
  - intros H; inversion H; subst. eapply process_url_no_Exception. exact E.
  - apply IH.
Qed.

Lemma process_all_lookup (urls : list string) (d d' : gmap string Pandas.cell)
    (w w' : world) :
  process_all download extract urls d w = (inr d', w') ->
  (forall u, ~ List.In u urls -> d' !! u = d !! u) /\
  (forall u, List.In u urls -> is_Some (d' !! u)).
Proof.
  revert d w. induction urls as [|x rest IH]; intros d w.
  - intros H; inversion H; subst. split; [reflexivity | intros u []].
  - rewrite process_all_cons.
    destruct (process_url download extract d x w) as [[e|d1] w1] eqn:E;
      [discriminate|].
    intros H. destruct (IH _ _ H) as [Hout Hin].
    destruct (process_url_lookup _ _ _ _ _ E) as [Hne Hx].
    split.
    + intros u Hu. rewrite Hout by (intros Hr; apply Hu; right; exact Hr).
      apply Hne. intros ->. apply Hu. left. reflexivity.
    + intros u [<-|Hu]; [|apply Hin; exact Hu].
      destruct (List.in_dec string_dec x rest) as [Hr|Hr]; [apply Hin; exact Hr|].
      rewrite Hout by exact Hr. exact Hx.
Qed.

Lemma process_all_total (urls : list string) (d : gmap string Pandas.cell)
    (w : world) :
  raises_only_Exception download ->
  (forall img e, extract img = inl e -> is_Exception e = true) ->
  exists d' w', process_all download extract urls d w = (inr d', w').
Proof.
  intros Hd He. revert d w. induction urls as [|u rest IH]; intros d w.
  - eexists _, _. reflexivity.
  - rewrite process_all_cons, process_url_cases, attempt_cases.
    destruct (download u w) as [[e|img] w1] eqn:E.
    + rewrite (Hd _ _ _ _ E). apply IH.
    + destruct (extract img) as [e|c] eqn:E2; [|apply IH].
      rewrite (He _ _ E2). apply IH.
Qed.
End BatchFacts.

(** ** The table *)

Lemma unique_from_spec (seen xs : list string) :
  List.NoDup (Pandas.unique_from seen xs) /\
  forall u, List.In u (Pandas.unique_from seen xs) <->
            List.In u xs /\ ~ List.In u seen.
Proof.
  revert seen. induction xs as [|x rest IH]; intros seen.
  - split; [constructor|]. intros u. simpl. tauto.
  - cbn [Pandas.unique_from]. destruct (bool_decide (x ∈ seen)) eqn:E.
    + apply bool_decide_eq_true in E. apply list_elem_of_In in E.
      destruct (IH seen) as [Hnd Hin]. split; [exact Hnd|].
      intros u. rewrite Hin. simpl. split.
      * intros [H1 H2]. split; [right; exact H1 | exact H2].
      * intros [[<-|H1] H2]; [contradiction | split; assumption].
    + apply bool_decide_eq_false in E. rewrite list_elem_of_In in E.
      destruct (IH (x :: seen)) as [Hnd Hin]. split.
      * constructor; [|exact Hnd]. rewrite Hin. simpl. tauto.
      * intros u. simpl. rewrite Hin. simpl. split.
        -- intros [<-|[H1 H2]]; [split; [left; reflexivity | exact E]|].
           split; [right; exact H1 | tauto].
        -- intros [[<-|H1] H2]; [left; reflexivity|].
           destruct (string_dec x u) as [->|Hne]; [left; reflexivity|].
           right. split; [exact H1|]. intros [Hx|Hs]; [contradiction | contradiction].
Qed.

Lemma unique_NoDup (xs : list string) : List.NoDup (Pandas.unique xs).
Proof. apply unique_from_spec. Qed.

Lemma set_column_fresh (name : string) (values : list Pandas.cell)
    (df : Pandas.DataFrame) :
  Pandas.column name df = inl (KeyError name) ->
  Pandas.set_column name values df = df ++ [(name, values)].
Proof.
  unfold Pandas.column. induction df as [|[n vs] rest IH]; [reflexivity|].
  simpl. destruct (String.eqb n name) eqn:E; [discriminate|].
  intros H. rewrite IH by exact H. reflexivity.
Qed.

Lemma series_map_lookup (d : gmap string Pandas.cell) (s : list Pandas.cell) (i : nat) :
  Pandas.series_map d s !! i =
  match s !! i with
  | Some None => Some None
  | Some (Some u) => Some (match d !! u with Some v => v | None => None end)
  | None => None
  end.
Proof.
  revert i. induction s as [|c s IH]; intros [|i]; simpl; try reflexivity.
  - destruct c; reflexivity.
  - apply IH.
Qed.

Lemma series_map_length (d : gmap string Pandas.cell) (s : list Pandas.cell) :
  List.length (Pandas.series_map d s) = List.length s.
Proof. apply List.length_map. Qed.

(** ** The circular mean *)

Section HueFacts.
Local Open Scope R_scope.

Lemma rmod_range (x m : R) : 0 < m -> 0 <= Np.rmod x m < m.
Proof.
  intros Hm. unfold Np.rmod.
  destruct (base_Int_part (x / m)) as [Hlo Hhi].
  assert (Hx : x = m * (x / m)) by (field; Lra.lra).
  set (k := IZR (Int_part (x / m))) in *.
  assert (H1 : 0 <= x / m - k < 1) by Lra.lra.
  replace (x - m * k) with (m * (x / m - k)) by (rewrite Rmult_minus_distr_l, <- Hx; reflexivity).
  revert H1. generalize (x / m - k). intros d Hd. split.
  - apply Rmult_le_pos; Lra.lra.
  - replace m with (m * 1) at 2 by ring. apply Rmult_lt_compat_l; Lra.lra.
Qed.

Lemma rmod_zero (m : R) : 0 < m -> Np.rmod 0 m = 0.
Proof.
  intros Hm. unfold Np.rmod.
  replace (0 / m) with 0 by (field; Lra.lra).
  replace (Int_part 0) with 0%Z; [Lra.lra|].
  apply Int_part_spec. simpl. Lra.lra.
Qed.

Lemma radians_reflect (x : R) : Np.radians (360 - x) = 2 * PI - Np.radians x.
Proof. unfold Np.radians. field. Qed.

Lemma sin_reflect (a : R) : sin (2 * PI - a) = - sin a.
Proof. rewrite sin_minus, sin_2PI, cos_2PI. ring. Qed.

Lemma cos_reflect (a : R) : cos (2 * PI - a) = cos a.
Proof. rewrite cos_minus, sin_2PI, cos_2PI. ring. Qed.

Lemma cos_radians_pos (x : R) : 0 <= x < 90 -> 0 < cos (Np.radians x).
Proof.
  intros Hx. apply cos_gt_0; unfold Np.radians; pose proof PI_RGT_0 as Hpi.
  - apply Rlt_le_trans with 0; [Lra.lra|].
    unfold Rdiv. apply Rmult_le_pos; [apply Rmult_le_pos; Lra.lra | Lra.lra].
  - replace (PI / 2) with (90 * PI / 180) by field.
    unfold Rdiv. apply Rmult_lt_compat_r; [Lra.lra|].
    apply Rmult_lt_compat_r; Lra.lra.
Qed.

Lemma arctan2_zero_pos (c : R) : 0 < c -> Np.arctan2 0 c = 0.
Proof.
  intros Hc. unfold Np.arctan2.
  destruct (Rlt_dec 0 c) as [_|Hn]; [|contradiction].
  replace (0 / c) with 0 by (field; Lra.lra). apply atan_0.
Qed.

Lemma circular_mean_symmetric (x : R) :
  0 <= x < 90 -> Hsv.circular_mean_hue [x; 360 - x] = 0.
Proof.
  intros Hx. unfold Hsv.circular_mean_hue, Np.rmean, Np.rsum.
  cbn [List.map List.fold_right List.length INR].
  rewrite radians_reflect, sin_reflect, cos_reflect.
  replace ((sin (Np.radians x) + (- sin (Np.radians x) + 0)) / (1 + 1)) with 0 by field.
  replace ((cos (Np.radians x) + (cos (Np.radians x) + 0)) / (1 + 1))
    with (cos (Np.radians x)) by field.
  rewrite arctan2_zero_pos by (apply cos_radians_pos; exact Hx).
  unfold Np.degrees. replace (0 * 180 / PI) with 0
    by (field; pose proof PI_RGT_0; Lra.lra).
  apply rmod_zero. Lra.lra.
Qed.

Lemma tan_shift (a : R) : sin (a + PI) / cos (a + PI) = sin a / cos a.
Proof.
  rewrite neg_sin, neg_cos.
  destruct (Req_dec (cos a) 0) as [E|E].
  - rewrite E. unfold Rdiv. rewrite Ropp_0, Rinv_0. Lra.lra.
  - field. exact E.
Qed.

(** [arctan2] inverts the pair (sine, cosine) on the half-open turn
    around zero. *)
Lemma arctan2_sin_cos (a : R) :
  - PI < a <= PI -> Np.arctan2 (sin a) (cos a) = a.
Proof.
  intros [Hlo Hhi]. pose proof PI_RGT_0 as Hpi. unfold Np.arctan2.
  destruct (Rlt_dec a (- (PI / 2))) as [H1|H1].
  { (* third quadrant *)
    assert (Hc : cos a < 0).
    { rewrite <- cos_neg. apply cos_lt_0; Lra.lra. }
    assert (Hs : sin a < 0) by (apply sin_lt_0_var; Lra.lra).
    destruct (Rlt_dec 0 (cos a)); [Lra.lra|].
    destruct (Rlt_dec (cos a) 0); [|Lra.lra].
    destruct (Rle_dec 0 (sin a)); [Lra.lra|].
    rewrite <- tan_shift. change (sin (a + PI) / cos (a + PI)) with (tan (a + PI)).
    rewrite atan_tan by Lra.lra. Lra.lra. }
  destruct (Req_dec a (- (PI / 2))) as [H2|H2].
  { subst a. rewrite cos_neg, sin_neg, cos_PI2, sin_PI2. arctan2_tests. }
  destruct (Rlt_dec a (PI / 2)) as [H3|H3].
  { assert (Hc : 0 < cos a) by (apply cos_gt_0; Lra.lra).
    destruct (Rlt_dec 0 (cos a)); [|Lra.lra].
    change (sin a / cos a) with (tan a). apply atan_tan. Lra.lra. }
  destruct (Req_dec a (PI / 2)) as [H4|H4].
  { subst a. rewrite cos_PI2, sin_PI2. arctan2_tests. }
  (* second quadrant *)
  assert (Hc : cos a < 0) by (apply cos_lt_0; Lra.lra).
  assert (Hs : 0 <= sin a) by (apply sin_ge_0; Lra.lra).
  destruct (Rlt_dec 0 (cos a)); [Lra.lra|].
  destruct (Rlt_dec (cos a) 0); [|Lra.lra].
  destruct (Rle_dec 0 (sin a)); [|Lra.lra].
  replace (sin a / cos a) with (tan (a - PI)).
  - rewrite atan_tan by Lra.lra. Lra.lra.
  - unfold tan. rewrite <- (tan_shift (a - PI)).
    replace (a - PI + PI) with a by Lra.lra. reflexivity.
Qed.

Lemma rmod_small (x m : R) : 0 <= x < m -> Np.rmod x m = x.
Proof.
  intros [H0 H1]. unfold Np.rmod.
  assert (Hm : 0 < m) by Lra.lra.
  assert (Hq : 0 <= x / m < 1).
  { split.
    - apply Rmult_le_pos; [exact H0|]. left. apply Rinv_0_lt_compat, Hm.
    - apply (Rmult_lt_reg_r m); [exact Hm|]. unfold Rdiv.
      rewrite Rmult_assoc, Rinv_l by Lra.lra. Lra.lra. }
  rewrite <- (Int_part_spec (x / m) 0) by (cbn; Lra.lra). cbn. Lra.lra.
Qed.

Lemma rmod_wrap (x m : R) : - m <= x < 0 -> Np.rmod x m = x + m.
Proof.
  intros [H0 H1]. unfold Np.rmod.
  assert (Hm : 0 < m) by Lra.lra.
  assert (Hq : -1 <= x / m < 0).
  { split.
    - apply (Rmult_le_reg_r m); [exact Hm|]. unfold Rdiv.
      rewrite Rmult_assoc, Rinv_l by Lra.lra. Lra.lra.
    - apply (Rmult_lt_reg_r m); [exact Hm|]. unfold Rdiv.
      rewrite Rmult_assoc, Rinv_l by Lra.lra. Lra.lra. }
  rewrite <- (Int_part_spec (x / m) (-1)) by (cbn; Lra.lra). cbn. Lra.lra.
Qed.
End HueFacts.

(** ** The hue in float32 *)

Lemma single_round_error (q : Q) : (Qabs (Single.round q - q) <= 1 # 65536)%Q.
Proof.
  unfold Single.round.
  destruct (Py.Qltb q 256).
  - pose proof (round_half_even_nearest (q * 65536)) as H.
    apply Qabs_Qle_condition in H. destruct H as [H1 H2].
    apply Qabs_Qle_condition.
    set (n := inject_Z (Py.round_half_even (q * 65536))) in *.
    assert (E : (n / 65536 - q == (n - q * 65536) / 65536)%Q) by (field).
    rewrite E. split.
    + apply Qle_shift_div_l; [reflexivity|]. Lqa.lra.
    + apply Qle_shift_div_r; [reflexivity|]. Lqa.lra.
  - pose proof (round_half_even_nearest (q * 32768)) as H.
    apply Qabs_Qle_condition in H. destruct H as [H1 H2].
    apply Qabs_Qle_condition.
    set (n := inject_Z (Py.round_half_even (q * 32768))) in *.
    assert (E : (n / 32768 - q == (n - q * 32768) / 32768)%Q) by (field).
    rewrite E. split.
    + apply Qle_shift_div_l; [reflexivity|]. Lqa.lra.
    + apply Qle_shift_div_r; [reflexivity|]. Lqa.lra.
Qed.

Lemma single_round_between (q : Q) :
  (180 <= q <= 360)%Q -> (180 <= Single.round q <= 360)%Q.
Proof.
  intros [Hlo Hhi]. unfold Single.round.
  destruct (Py.Qltb q 256) eqn:E.
  - apply Qltb_lt in E.
    destruct (round_half_even_between (180 * 65536) (256 * 65536) (q * 65536))
      as [H1 H2].
    { rewrite !inject_Z_mult. change (inject_Z 180) with 180%Q.
      change (inject_Z 256) with 256%Q. change (inject_Z 65536) with 65536%Q.
      split; Lqa.lra. }
    rewrite Zle_Qle in H1, H2. rewrite !inject_Z_mult in H1, H2.
    change (inject_Z 180) with 180%Q in H1.
    change (inject_Z 256) with 256%Q in H2.
    change (inject_Z 65536) with 65536%Q in H1, H2.
    split.
    + apply Qle_shift_div_l; [reflexivity|exact H1].
    + apply Qle_shift_div_r; [reflexivity|]. Lqa.lra.
  - apply Qltb_ge in E.
    destruct (round_half_even_between (256 * 32768) (360 * 32768) (q * 32768))
      as [H1 H2].
    { rewrite !inject_Z_mult. change (inject_Z 360) with 360%Q.
      change (inject_Z 256) with 256%Q. change (inject_Z 32768) with 32768%Q.
      split; Lqa.lra. }
    rewrite Zle_Qle in H1, H2. rewrite !inject_Z_mult in H1, H2.
    change (inject_Z 360) with 360%Q in H2.
    change (inject_Z 256) with 256%Q in H1.
    change (inject_Z 32768) with 32768%Q in H1, H2.
    split.
    + apply Qle_shift_div_l; [reflexivity|]. Lqa.lra.
    + apply Qle_shift_div_r; [reflexivity|exact H2].
Qed.

Lemma single_mod360_cases (x : Q) :
  ((0 <= x)%Q /\ (Single.mod360 x == x)%Q) \/
  ((x < 0)%Q /\ Single.mod360 x = Single.round (x + 360)).
Proof.
  unfold Single.mod360.
  destruct (Qeq_bool x 0) eqn:E0.
  - apply Qeq_bool_iff in E0. left. split; [rewrite E0; apply Qle_refl|].
    symmetry. exact E0.
  - destruct (Py.Qltb x 0) eqn:E.
    + apply Qltb_lt in E. right. auto.
    + apply Qltb_ge in E. left. split; [exact E|reflexivity].
Qed.

Lemma single_mod360_range (x : Q) :
  (-180 <= x <= 180)%Q -> (0 <= Single.mod360 x <= 360)%Q.
Proof.
  intros [Hlo Hhi].
  destruct (single_mod360_cases x) as [[H0 ->]|[Hneg ->]].
  - split; Lqa.lra.
  - destruct (single_round_between (x + 360)) as [H1 H2]; [split; Lqa.lra|].
    split; Lqa.lra.
Qed.

Section MeanAngle.
Local Open Scope R_scope.

Lemma circular_mean_of_angle (hues : list R) :
  Hsv.circular_mean_hue hues = Np.rmod (mean_angle hues) 360.
Proof. reflexivity. Qed.

Lemma arctan2_range (y x : R) : - PI <= Np.arctan2 y x <= PI.
Proof.
  pose proof PI_RGT_0 as Hpi. unfold Np.arctan2.
  pose proof (atan_bound (y / x)) as [Hlo Hhi].
  destruct (Rlt_dec 0 x) as [Hx|Hx]; [split; Lra.lra|].
  destruct (Rlt_dec x 0) as [Hx'|Hx'].
  - destruct (Rle_dec 0 y) as [Hy|Hy].
    + assert (Hq : y / x <= 0).
      { unfold Rdiv. replace (y * / x) with (- (y * / - x)).
        - assert (0 <= y * / - x).
          { apply Rmult_le_pos; [exact Hy|]. left. apply Rinv_0_lt_compat. Lra.lra. }
          Lra.lra.
        - field. Lra.lra. }
      assert (Ha : atan (y / x) <= 0).
      { destruct Hq as [Hq|Hq]; [left; rewrite <- atan_0; apply atan_increasing, Hq|].
        rewrite Hq, atan_0. Lra.lra. }
      split; Lra.lra.
    + assert (Hq : 0 < y / x).
      { unfold Rdiv. replace (y * / x) with ((- y) * / - x) by (field; Lra.lra).
        apply Rmult_lt_0_compat; [Lra.lra|]. apply Rinv_0_lt_compat. Lra.lra. }
      assert (Ha : 0 < atan (y / x)) by (rewrite <- atan_0; apply atan_increasing, Hq).
      split; Lra.lra.
  - destruct (Rlt_dec 0 y); [split; Lra.lra|].
    destruct (Rlt_dec y 0); split; Lra.lra.
Qed.

Lemma mean_angle_range (hues : list R) : -180 <= mean_angle hues <= 180.
Proof.
  unfold mean_angle, Np.degrees. pose proof PI_RGT_0 as Hpi.
  destruct (arctan2_range
              (Np.rmean (List.map (fun h => sin (Np.radians h)) hues))
              (Np.rmean (List.map (fun h => cos (Np.radians h)) hues))) as [Hlo Hhi].
  set (a := Np.arctan2 _ _) in *.
  split.
  - apply (Rmult_le_reg_r (PI / 180)); [Lra.lra|].
    replace (a * 180 / PI * (PI / 180)) with a by (field; Lra.lra). Lra.lra.
  - apply (Rmult_le_reg_r (PI / 180)); [Lra.lra|].
    replace (a * 180 / PI * (PI / 180)) with a by (field; Lra.lra). Lra.lra.
Qed.

Lemma Rabs_bounds (a b : R) : Rabs a <= b -> - b <= a <= b.
Proof. unfold Rabs. destruct (Rcase_abs a); intros H; split; Lra.lra. Qed.

Lemma Q2R_round_error (q : Q) :
  Rabs (Q2R (Single.round q) - Q2R q) <= / 65536.
Proof.
  pose proof (single_round_error q) as H.
  apply Qabs_Qle_condition in H. destruct H as [H1 H2].
  apply Qreals.Qle_Rle in H1, H2. rewrite Qreals.Q2R_minus in H1, H2. rewrite Qreals.Q2R_opp in H1.
  assert (E : Q2R (1 # 65536) = / 65536) by (unfold Q2R; cbn [Qnum Qden]; Lra.lra).
  rewrite E in H1, H2. apply Rabs_le. split; Lra.lra.
Qed.

(** The float32 hue is the exact circular mean, up to a whole turn, the
    error of the angle and one rounding. *)
Lemma single_avg_h_close (N : Single.numpy) (hues : list Q) (eps : R) :
  Rabs (Q2R (Single.angle N hues) - mean_angle (List.map Q2R hues)) <= eps ->
  exists k : Z,
    (-1 <= k <= 1)%Z /\
    Rabs (Q2R (Single.avg_h N hues)
          - Hsv.circular_mean_hue (List.map Q2R hues) - 360 * IZR k)
    <= eps + / 65536.
Proof.
  intros Hclose. rewrite circular_mean_of_angle. unfold Single.avg_h.
  pose proof (mean_angle_range (List.map Q2R hues)) as [Hlo Hhi].
  set (t := mean_angle (List.map Q2R hues)) in *.
  set (x := Single.angle N hues) in *.
  apply Rabs_bounds in Hclose. destruct Hclose as [Hc1 Hc2].
  assert (Hexact : (0 <= t /\ Np.rmod t 360 = t) \/
                   (t < 0 /\ Np.rmod t 360 = t + 360)).
  { destruct (Rle_dec 0 t) as [H0|H0].
    - left. split; [exact H0|]. apply rmod_small. Lra.lra.
    - right. split; [Lra.lra|]. apply rmod_wrap. Lra.lra. }
  assert (Hfloat : (0 <= Q2R x /\ Q2R (Single.mod360 x) = Q2R x) \/
                   (Q2R x < 0 /\
                    Rabs (Q2R (Single.mod360 x) - (Q2R x + 360)) <= / 65536)).
  { destruct (single_mod360_cases x) as [[H0 Heq]|[Hneg Heq]].
    - left. split.
      + apply Qreals.Qle_Rle in H0. rewrite RMicromega.Q2R_0 in H0. exact H0.
      + apply Qreals.Qeq_eqR, Heq.
    - right. split.
      + apply Qreals.Qlt_Rlt in Hneg. rewrite RMicromega.Q2R_0 in Hneg. exact Hneg.
      + rewrite Heq. pose proof (Q2R_round_error (x + 360)) as H.
        rewrite Qreals.Q2R_plus in H.
        replace (Q2R 360) with 360 in H by (unfold Q2R; cbn [Qnum Qden]; Lra.lra).
        exact H. }
  assert (H65 : 0 < / 65536) by (apply Rinv_0_lt_compat; Lra.lra).
  destruct Hexact as [[Ht ->]|[Ht ->]];
    destruct Hfloat as [[Hx ->]|[Hx Hr]];
    try (apply Rabs_bounds in Hr; destruct Hr as [Hr1 Hr2]).
  - exists 0%Z. split; [lia|]. apply Rabs_le. split; Lra.lra.
  - exists 1%Z. split; [lia|]. apply Rabs_le. split; Lra.lra.
  - exists (-1)%Z. split; [lia|]. apply Rabs_le. split; Lra.lra.
  - exists 0%Z. split; [lia|]. apply Rabs_le. split; Lra.lra.
Qed.

Lemma arctan2_scale (k y x : R) :
  0 < k -> Np.arctan2 (k * y) (k * x) = Np.arctan2 y x.
Proof.
  intros Hk.
  assert (Hx1 : 0 < k * x <-> 0 < x) by (split; intros; Lra.nra).
  assert (Hx2 : k * x < 0 <-> x < 0) by (split; intros; Lra.nra).
  assert (Hy1 : 0 <= k * y <-> 0 <= y) by (split; intros; Lra.nra).
  assert (Hy2 : 0 < k * y <-> 0 < y) by (split; intros; Lra.nra).
  assert (Hy3 : k * y < 0 <-> y < 0) by (split; intros; Lra.nra).
  assert (Hq : x <> 0 -> k * y / (k * x) = y / x) by (intros; field; split; Lra.lra).
  unfold Np.arctan2.
  destruct (Rlt_dec 0 (k * x)), (Rlt_dec 0 x); try tauto.
  { rewrite Hq by Lra.lra. reflexivity. }
  destruct (Rlt_dec (k * x) 0), (Rlt_dec x 0); try tauto.
  { rewrite Hq by Lra.lra.
    destruct (Rle_dec 0 (k * y)), (Rle_dec 0 y); try tauto; reflexivity. }
  destruct (Rlt_dec 0 (k * y)), (Rlt_dec 0 y); try tauto.
  destruct (Rlt_dec (k * y) 0), (Rlt_dec y 0); try tauto.
Qed.

(** A direction given by its sine and cosine has the hue it was made of. *)
Lemma direction_hue (h : R) :
  0 <= h < 360 ->
  Np.rmod (Np.degrees (Np.arctan2 (sin (Np.radians h)) (cos (Np.radians h)))) 360
  = h.
Proof.
  intros [H0 H1]. pose proof PI_RGT_0 as Hpi.
  set (a := Np.radians h).
  assert (Ha : a = h * PI / 180) by reflexivity.
  assert (Hscale : forall u v : R, u < v -> u * PI / 180 < v * PI / 180).
  { intros u v Huv. unfold Rdiv. apply Rmult_lt_compat_r; [Lra.lra|].
    apply Rmult_lt_compat_r; assumption. }
  destruct (Rle_dec h 180) as [Hle|Hgt].
  - rewrite arctan2_sin_cos.
    + unfold Np.degrees. rewrite Ha.
      replace (h * PI / 180 * 180 / PI) with h by (field; Lra.lra).
      apply rmod_small. Lra.lra.
    + rewrite Ha. split.
      * apply Rlt_le_trans with 0; [Lra.lra|].
        unfold Rdiv. apply Rmult_le_pos; [apply Rmult_le_pos|]; Lra.lra.
      * destruct Hle as [Hlt|Heq].
        -- left. replace PI with (180 * PI / 180) at 2 by (field; Lra.lra).
           apply Hscale, Hlt.
        -- right. rewrite Heq. field.
  - assert (Hs : sin a = sin (a - 2 * PI)).
    { rewrite <- (sin_period (a - 2 * PI) 1). f_equal. cbn. Lra.lra. }
    assert (Hc : cos a = cos (a - 2 * PI)).
    { rewrite <- (cos_period (a - 2 * PI) 1). f_equal. cbn. Lra.lra. }
    rewrite Hs, Hc, arctan2_sin_cos.
    + unfold Np.degrees. rewrite Ha.
      replace ((h * PI / 180 - 2 * PI) * 180 / PI) with (h - 360) by (field; Lra.lra).
      rewrite rmod_wrap; Lra.lra.
    + assert (Hlo : PI < a).
      { rewrite Ha. replace PI with (180 * PI / 180) at 1 by (field; Lra.lra).
        apply Hscale. Lra.lra. }
      assert (Hhi : a < 2 * PI).
      { rewrite Ha. replace (2 * PI) with (360 * PI / 180) by (field; Lra.lra).
        apply Hscale. Lra.lra. }
      split; Lra.lra.
Qed.

(** Two hues at the same distance, below a quarter turn, on either side of
    a hue [c] have circular mean [c], wherever [c] lies on the circle. *)
Lemma circular_mean_pair (c x : R) :
  0 <= c < 360 -> 0 <= x < 90 ->
  Hsv.circular_mean_hue [c - x; c + x] = c.
Proof.
  intros Hc Hx. unfold Hsv.circular_mean_hue, Np.rmean, Np.rsum.
  cbn [List.map List.fold_right List.length INR].
  replace (Np.radians (c - x)) with (Np.radians c - Np.radians x)
    by (unfold Np.radians; field).
  replace (Np.radians (c + x)) with (Np.radians c + Np.radians x)
    by (unfold Np.radians; field).
  rewrite sin_minus, sin_plus, cos_minus, cos_plus.
  pose proof (cos_radians_pos x Hx) as Hpos.
  set (a := Np.radians c) in *. set (b := Np.radians x) in *.
  replace ((sin a * cos b - cos a * sin b + (sin a * cos b + cos a * sin b + 0))
           / (1 + 1)) with (cos b * sin a) by field.
  replace ((cos a * cos b + sin a * sin b + (cos a * cos b - sin a * sin b + 0))
           / (1 + 1)) with (cos b * cos a) by field.
  rewrite (arctan2_scale (cos b) (sin a) (cos a) Hpos).
  apply direction_hue, Hc.
Qed.

Lemma mean_angle_wrap (x : R) : 0 <= x < 90 -> mean_angle [x; 360 - x] = 0.
Proof.
  intros Hx. unfold mean_angle, Np.rmean, Np.rsum.
  cbn [List.map List.fold_right List.length INR].
  rewrite radians_reflect, sin_reflect, cos_reflect.
  pose proof (cos_radians_pos x Hx) as Hpos.
  replace ((sin (Np.radians x) + (- sin (Np.radians x) + 0)) / (1 + 1)) with 0
    by field.
  replace ((cos (Np.radians x) + (cos (Np.radians x) + 0)) / (1 + 1))
    with (cos (Np.radians x)) by field.
  rewrite (arctan2_zero_pos _ Hpos). unfold Np.degrees.
  pose proof PI_RGT_0. field. Lra.lra.
Qed.

End MeanAngle.

(** A negative angle of at most half the float32 spacing below 360 is
    absorbed by the addition: the remainder is 360.0 itself. *)
Lemma single_mod360_absorbs (x : Q) :
  (- (1 # 65536) <= x)%Q -> (x < 0)%Q -> (Single.mod360 x == 360)%Q.
Proof.
  intros Hlo Hhi.
  destruct (single_mod360_cases x) as [[H0 _]|[_ ->]]; [Lqa.lra|].
  unfold Single.round.
  destruct (Py.Qltb (x + 360) 256) eqn:E.
  { apply Qltb_lt in E. Lqa.lra. }
  rewrite (round_half_even_up 11796480 ((x + 360) * 32768)).
  - reflexivity.
  - change (inject_Z 11796480) with 11796480%Q. Lqa.lra.
  - change (inject_Z 11796480) with 11796480%Q. Lqa.lra.
  - reflexivity.
Qed.

(** The arithmetic entries of the table are the binary32 results: the
    two products by [pi / 180], the two means, the product by [180 / pi],
    and the sum with 360 that [% 360] forms. *)
Lemma numpy_at_wrap_arithmetic :
  (Single.to_Q (Single.mul (Single.b32 2 0) Single.deg2rad)
   == Single.np_radians numpy_at_wrap 2)%Q /\
  (Single.to_Q (Single.mul (Single.b32 358 0) Single.deg2rad)
   == Single.np_radians numpy_at_wrap 358)%Q /\
  (Single.to_Q
     (Single.div (Single.add (Single.b32 4684131 (-27))
                             (Single.b32 (-4684145) (-27)))
                 (Single.b32 2 0))
   == Single.np_mean numpy_at_wrap
        (List.map (fun h => Single.np_sin numpy_at_wrap
                              (Single.np_radians numpy_at_wrap h)) [2; 358]))%Q /\
  (Single.to_Q
     (Single.div (Single.add (Single.b32 4191749 (-22))
                             (Single.b32 4191749 (-22)))
                 (Single.b32 2 0))
   == Single.np_mean numpy_at_wrap
        (List.map (fun h => Single.np_cos numpy_at_wrap
                              (Single.np_radians numpy_at_wrap h)) [2; 358]))%Q /\
  (Single.to_Q (Single.mul (Single.b32 (-3672253) (-46)) Single.rad2deg)
   == Single.angle numpy_at_wrap [2; 358])%Q /\
  (Single.to_Q (Single.add (Single.b32 (-821893) (-38)) (Single.b32 360 0))
   == Single.avg_h numpy_at_wrap [2; 358])%Q.
Proof. repeat split; vm_compute; reflexivity. Qed.


(** The two rows of the example cluster are those [rgb_to_hsv_array] gives
    for the pixels (130, 101, 100) and (130, 100, 101). *)
Lemma wrap_cluster_rows :
  List.Forall2
    (fun p q => (Hsv.hue p == Hsv.hue q)%Q /\ (Hsv.sat p == Hsv.sat q)%Q /\
                (Hsv.val p == Hsv.val q)%Q)
    (Hsv.rgb_to_hsv_array [(130, 101, 100); (130, 100, 101)]%Z) wrap_cluster.
Proof. repeat constructor; vm_compute; reflexivity. Qed.

(** [np.arctan2] returns at most the [float32] nearest to pi in magnitude,
    and [np.degrees] maps that value to 180.0: the angle of the hue
    expression has magnitude at most 180. *)
Lemma single_half_turn :
  (Single.to_Q (Single.mul (Single.b32 13176795 (-22)) Single.rad2deg)
   == 180)%Q /\
  (Single.to_Q (Single.mul (Single.b32 (-13176795) (-22)) Single.rad2deg)
   == - (180))%Q.
Proof. split; vm_compute; reflexivity. Qed.

(** ** The concrete inputs *)

Lemma example_clustering_well_formed : well_formed example_clustering.
Proof.
  split; [discriminate|]. intros l Hl. simpl in Hl.
  destruct Hl as [<-|[<-|[<-|[<-|[<-|[]]]]]]; simpl; eauto.
Qed.

Lemma example_clustering_gap_free : gap_free (labels_ example_clustering).
Proof.
  intros l l' Hl Hlt. simpl in Hl.
  assert (Hl1 : (l <= 1)%nat)
    by (destruct Hl as [<-|[<-|[<-|[<-|[<-|[]]]]]]; lia).
  assert (l' = 0%nat) as -> by lia. simpl. left. reflexivity.
Qed.

Lemma warm_fetch :
  fetch_cached (example_env None Stored) rice_url warm_world =
  (inr png_magic, warm_world).
Proof. apply fetch_cached_hit; [reflexivity | apply lookup_singleton_eq]. Qed.

(** The filtered script on the example table, from an empty cache: one
    request, one cache file, no warning, white for both rice rows. *)
Lemma improved_example_run :
  main_with (Improved.download_image (example_env None Stored))
            (fun img => Improved.dominant_color (example_env None Stored) img
                          Improved.default_k Improved.default_resize)
            example_frame fresh_world =
  (inr (example_frame ++ [("dominant_color"%string, example_colors)]),
   World true {[ rice_path := png_magic ]} [rice_url] []).
Proof. vm_compute. reflexivity. Qed.

Lemma example_sample :
  Hsv.sample [red; grey; red; dusty_pink] =
  (Hsv.rgb_to_hsv_array [red; red], [red; red]).
Proof. vm_compute. reflexivity. Qed.

(* ===================================================================== *)
(** * Part III: the claims *)
(* ===================================================================== *)

(** ** C1: scoring and selection *)

(** C1, plain script.  The comment in [dominant_color] announces the
    largest cluster, and the two sibling scripts read
    [cluster_centers_[label]]; the plain script reads
    [cluster_centers_[counts.argmax()]], the centre at the POSITION, among
    the labels that have members (in ascending order), of the first
    cluster of maximal count.  For every fitted model with at least one
    sample: that cluster has label [l], count [n] and position [i]; the
    result is the centre at index [i], each channel rounded to a nearest
    integer, a tie going to the even one; [i <= l]; and [i = l], so that
    the centre is the one of the largest cluster, exactly when every index
    below [l] has a member.  On the labels 1, 1, 2 the clusters are
    (1, 2) and (2, 1), the position is 0, and the result is the centre of
    the memberless cluster 0, (10, 10, 10), where the largest cluster, 1,
    has the centre (200, 0, 0), which the filtered script returns on the
    same model. *)
Theorem C1_plain_selector :
  (forall km : clustering,
      labels_ km <> [] ->
      exists i l n : nat,
        first_max_at count_key (Np.unique_counts (labels_ km)) i (l, n) /\
        n = Np.occurrences l (labels_ km) /\
        (0 < n)%nat /\
        Plain.select km =
          (color ← of_option IndexError (cluster_centers_ km !! i) ;
           unpack3 (List.map Py.round_half_even color)) /\
        (i <= l)%nat /\
        (i = l <-> forall l' : nat, (l' < l)%nat -> List.In l' (labels_ km))) /\
  (forall q : Q, (Qabs (inject_Z (Py.round_half_even q) - q) <= 1 # 2)%Q) /\
  Np.unique_counts (labels_ gap_clustering) = [(1, 2); (2, 1)]%nat /\
  Np.argmax (List.map snd (Np.unique_counts (labels_ gap_clustering)))
  = Some 0%nat /\
  Plain.select gap_clustering = inr (10, 10, 10)%Z /\
  Np.occurrences 0 (labels_ gap_clustering) = 0%nat /\
  Np.occurrences 1 (labels_ gap_clustering) = 2%nat /\
  cluster_centers_ gap_clustering !! 1%nat = Some [200; 0; 0]%Q /\
  (e ← Improved.select gap_clustering ; inr (Improved.color e))
  = inr (200, 0, 0)%Z.
Proof.
  split; [exact plain_select_position|].
  split; [exact round_half_even_nearest|].
  repeat split; vm_compute; reflexivity.
Qed.

(** ** C2: alpha compositing *)

(** C2, as the code has it.  When the cached bytes decode to an RGBA image,
    [download_image] of the filtered script and of the HSV script returns
    that image pasted on a white background under its own alpha band: every
    channel is the 8-bit blend of 255 and the source weighted by alpha, it
    lies between the source and 255, a pixel of alpha 0 comes out as
    (255, 255, 255) and a channel of alpha 255 is the source channel.
    [download_image] of the plain script returns the RGB channels with the
    alpha band discarded. *)
Theorem C2_alpha_composite (E : env) (url : string) (w w' : world)
    (raw : bytes) (px : list rgba) :
  fetch_cached E url w = (inr raw, w') ->
  image_open E raw = inr (ImageRGBA px) ->
  let out := Pillow.paste_rgba (Pillow.new_white (List.length px)) px in
  Improved.download_image E url w = (inr out, w') /\
  Hsv.download_image E url w = (inr out, w') /\
  List.length out = List.length px /\
  (forall (i : nat) (r g b a : Z),
      px !! i = Some (r, g, b, a) ->
      out !! i = Some (Pillow.blend8 a 255 r, Pillow.blend8 a 255 g,
                       Pillow.blend8 a 255 b)) /\
  (forall (i : nat) (r g b : Z),
      px !! i = Some (r, g, b, 0%Z) -> out !! i = Some (255, 255, 255)%Z) /\
  (forall a c : Z, (0 <= a <= 255)%Z -> (0 <= c <= 255)%Z ->
      (c <= Pillow.blend8 a 255 c <= 255)%Z /\ Pillow.blend8 255 255 c = c) /\
  Plain.download_image E url w =
    (inr (List.map (fun p => match p with (r, g, b, _) => (r, g, b) end) px), w').
Proof.
  intros Hfetch Hopen out.
  assert (Hboth : forall (load : image -> list rgb),
             (raw0 ← fetch_cached E url ; img ← lift (image_open E raw0) ; ret (load img)) w
             = (inr (load (ImageRGBA px)), w')).
  { intros load. run_script. rewrite Hfetch, Hopen. reflexivity. }
  split; [apply (Hboth composite_on_white)|].
  split; [apply (Hboth composite_on_white)|].
  split; [apply paste_rgba_length|].
  split; [intros i r g b a; apply paste_rgba_lookup|].
  split.
  { intros i r g b Hi. subst out. rewrite (paste_rgba_lookup _ _ _ _ _ _ Hi).
    rewrite !blend8_transparent by lia. reflexivity. }
  split.
  { intros a c Ha Hc. split; [apply blend8_on_white; assumption|].
    apply blend8_opaque. exact Hc. }
  apply (Hboth Pillow.convert_RGB).
Qed.

Lemma C2_alpha_composite_witness :
  fetch_cached (example_env None Stored) rice_url warm_world =
    (inr png_magic, warm_world) /\
  image_open (example_env None Stored) png_magic =
    inr (ImageRGBA [(0, 0, 0, 0)%Z]) /\
  Improved.download_image (example_env None Stored) rice_url warm_world =
    (inr [(255, 255, 255)%Z], warm_world).
Proof.
  split; [exact warm_fetch|]. split; [reflexivity|].
  exact (proj1 (C2_alpha_composite (example_env None Stored) rice_url warm_world
                  warm_world png_magic [(0, 0, 0, 0)%Z] warm_fetch eq_refl)).
Defined.

(** The plain loader turns a fully transparent black pixel into black, and
    the later loaders do the same to a grey-with-alpha (LA) image. *)
Lemma C2_counterexample :
  Plain.download_image (example_env None Stored) rice_url warm_world =
    (inr [(0, 0, 0)%Z], warm_world) /\
  composite_on_white (ImageLA [(0, 0)%Z]) = [(0, 0, 0)%Z].
Proof.
  split; [|reflexivity].
  unfold Plain.download_image. run_script. rewrite warm_fetch. reflexivity.
Qed.

(** ** C3: the fallback boundary *)

(** C3, evaluated.  The extreme-colour filter of both scripts keeps the
    original sample exactly when ten times the retained count is below the
    sample size.  The low-saturation step keeps its input exactly when ten
    times the retained count is at most the input size.  With exactly one
    tenth retained the first test says keep the filtered set and the second
    says fall back: on a 150x150 matrix with 2250 non-extreme pixels the
    extreme-colour filter returns those 2250, and on one with 2250
    saturated pixels the low-saturation step returns all 22500. *)
Theorem C3_fallback_boundary :
  (forall pixels : list rgb,
      Improved.filter_pixels pixels =
      if (10 * List.length (Improved.non_extreme pixels) <? List.length pixels)%nat
      then pixels else Improved.non_extreme pixels) /\
  (forall pixels : list rgb,
      Hsv.filter_pixels pixels =
      if (10 * List.length (Hsv.non_extreme pixels) <? List.length pixels)%nat
      then pixels else Hsv.non_extreme pixels) /\
  (forall (hsv_pixels : list Hsv.hsv) (filtered_pixels : list rgb),
      Hsv.saturation_filter hsv_pixels filtered_pixels =
      let mask := Hsv.high_saturation_mask hsv_pixels in
      if (10 * Np.mask_sum mask <=? List.length hsv_pixels)%nat
      then (hsv_pixels, filtered_pixels)
      else (Np.mask_select mask hsv_pixels, Np.mask_select mask filtered_pixels)) /\
  (forall n : nat, below_tenth n (10 * n) = false /\ above_tenth n (10 * n) = false) /\
  (10 * Z.of_nat (List.length (Hsv.non_extreme boundary_luminance_pixels)) =
   Z.of_nat (List.length boundary_luminance_pixels))%Z /\
  Hsv.filter_pixels boundary_luminance_pixels = block red 2250 /\
  (10 * Z.of_nat (Np.mask_sum (Hsv.high_saturation_mask
                                 (Hsv.rgb_to_hsv_array boundary_saturation_pixels))) =
   Z.of_nat (List.length (Hsv.rgb_to_hsv_array boundary_saturation_pixels)))%Z /\
  Hsv.saturation_filter (Hsv.rgb_to_hsv_array boundary_saturation_pixels)
                        boundary_saturation_pixels =
  (Hsv.rgb_to_hsv_array boundary_saturation_pixels, boundary_saturation_pixels).
Proof.
  assert (Hlum : Hsv.non_extreme boundary_luminance_pixels = block red 2250).
  { unfold Hsv.non_extreme, boundary_luminance_pixels, block.
    rewrite List.filter_app, !filter_repeat.
    change (negb (Hsv.is_extreme_color 255 0 0 20)) with true.
    change (negb (Hsv.is_extreme_color 0 0 0 20)) with false.
    cbv iota. apply List.app_nil_r. }
  assert (Hlen : forall p q a b,
             Z.of_nat (List.length (block p a ++ block q b)) = (Z.of_N a + Z.of_N b)%Z).
  { intros. rewrite List.length_app, Nat2Z.inj_add, !block_length. reflexivity. }
  assert (Hsat : Z.of_nat (Np.mask_sum (Hsv.high_saturation_mask
                   (Hsv.rgb_to_hsv_array boundary_saturation_pixels))) = 2250%Z).
  { unfold Hsv.high_saturation_mask, Hsv.rgb_to_hsv_array.
    rewrite List.map_map, mask_sum_map.
    unfold boundary_saturation_pixels, block.
    rewrite List.filter_app, !filter_repeat.
    change (Py.Qltb 15 (Hsv.sat (Hsv.rgb_to_hsv_row red))) with true.
    change (Py.Qltb 15 (Hsv.sat (Hsv.rgb_to_hsv_row grey))) with false.
    cbv iota. rewrite List.app_nil_r. apply (block_length red 2250). }
  assert (Hsatlen : Z.of_nat (List.length (Hsv.rgb_to_hsv_array boundary_saturation_pixels))
                    = 22500%Z).
  { unfold Hsv.rgb_to_hsv_array. rewrite List.length_map.
    unfold boundary_saturation_pixels. rewrite Hlen. reflexivity. }
  split; [exact filter_pixels_cases|].
  split; [exact filter_pixels_cases|].
  split.
  { intros h f. rewrite saturation_filter_cases. cbv zeta.
    destruct (List.length h <? 10 * _)%nat eqn:E1;
      destruct (10 * _ <=? List.length h)%nat eqn:E2; try reflexivity.
    - apply Nat.ltb_lt in E1. apply Nat.leb_le in E2. lia.
    - apply Nat.ltb_ge in E1. apply Nat.leb_gt in E2. lia. }
  split.
  { intros n. rewrite below_tenth_ltb, above_tenth_ltb.
    split; apply Nat.ltb_ge; lia. }
  split.
  { rewrite Hlum, block_length. unfold boundary_luminance_pixels.
    rewrite Hlen. reflexivity. }
  split.
  { unfold Hsv.filter_pixels. rewrite Hlum, below_tenth_Z, block_length.
    unfold boundary_luminance_pixels. rewrite Hlen. reflexivity. }
  split.
  { rewrite Hsat, Hsatlen. reflexivity. }
  unfold Hsv.saturation_filter. rewrite above_tenth_Z, Hsat, Hsatlen. reflexivity.
Qed.

(** ** C4: the circular mean of the hues *)

Section HueClaim.
Local Open Scope R_scope.

(** C4, as the code has it.  The hue of a cluster is
    [np.degrees(np.arctan2(mean sine, mean cosine)) % 360] over the hues of
    its members, evaluated in [float32].  Let the [float32] functions [N]
    give an angle of magnitude at most 180 that differs from the exact
    angle by at most [eps].  Then the hue lies in the CLOSED range
    [0, 360]: when the angle is negative and no smaller than -2^-16, the
    sum with 360 that [% 360] forms rounds to 360.0 itself.  The hue
    differs from the exact circular mean by a whole number of turns (-1, 0
    or 1) and at most [eps + 2^-16].  The exact circular mean lies in
    [0, 360), and two hues [c - x] and [c + x], [x] below a quarter turn,
    have the exact circular mean [c] wherever [c] lies on the circle.  For
    a cluster with the hues 2 and 358 the exact circular mean is 0, the
    arithmetic mean is 180, and the [float32] hue is within [eps + 2^-16]
    of 0 or of 360. *)
Theorem C4_circular_mean_hue
    (N : Single.numpy) (cluster_hsv : list Hsv.hsv) (eps : R) :
  (-180 <= Single.angle N (List.map Hsv.hue cluster_hsv) <= 180)%Q ->
  Rabs (Q2R (Single.angle N (List.map Hsv.hue cluster_hsv))
        - mean_angle (List.map (fun p => Q2R (Hsv.hue p)) cluster_hsv)) <= eps ->
  (0 <= Single.avg_h N (List.map Hsv.hue cluster_hsv) <= 360)%Q /\
  ((- (1 # 65536) <= Single.angle N (List.map Hsv.hue cluster_hsv) < 0)%Q ->
   (Single.avg_h N (List.map Hsv.hue cluster_hsv) == 360)%Q) /\
  (exists k : Z,
      (-1 <= k <= 1)%Z /\
      Rabs (Q2R (Single.avg_h N (List.map Hsv.hue cluster_hsv))
            - Hsv.avg_h cluster_hsv - 360 * IZR k) <= eps + / 65536) /\
  0 <= Hsv.avg_h cluster_hsv < 360 /\
  (forall c x : R,
      0 <= c < 360 -> 0 <= x < 90 -> Hsv.circular_mean_hue [c - x; c + x] = c) /\
  (List.map Hsv.hue cluster_hsv = [2; 358]%Q ->
   eps < 1 ->
   Hsv.avg_h cluster_hsv = 0 /\
   Np.rmean (List.map (fun p => Q2R (Hsv.hue p)) cluster_hsv) = 180 /\
   (Q2R (Single.avg_h N (List.map Hsv.hue cluster_hsv)) <= eps + / 65536 \/
    360 - (eps + / 65536)
    <= Q2R (Single.avg_h N (List.map Hsv.hue cluster_hsv)))).
Proof.
  intros Hrange Hclose.
  assert (Hmap : List.map (fun p => Q2R (Hsv.hue p)) cluster_hsv
                 = List.map Q2R (List.map Hsv.hue cluster_hsv))
    by (rewrite List.map_map; reflexivity).
  assert (H1 : (0 <= Single.avg_h N (List.map Hsv.hue cluster_hsv) <= 360)%Q)
    by (apply single_mod360_range, Hrange).
  assert (H3 : exists k : Z,
             (-1 <= k <= 1)%Z /\
             Rabs (Q2R (Single.avg_h N (List.map Hsv.hue cluster_hsv))
                   - Hsv.avg_h cluster_hsv - 360 * IZR k) <= eps + / 65536).
  { unfold Hsv.avg_h. rewrite Hmap. apply single_avg_h_close.
    rewrite <- Hmap. exact Hclose. }
  split; [exact H1|].
  split; [intros [Hlo Hhi]; apply single_mod360_absorbs; assumption|].
  split; [exact H3|].
  split; [apply rmod_range; Lra.lra|].
  split; [exact circular_mean_pair|].
  intros Hhues Heps.
  assert (Hreal : List.map (fun p => Q2R (Hsv.hue p)) cluster_hsv = [2; 360 - 2]).
  { rewrite Hmap, Hhues. cbn [List.map]. f_equal; [|f_equal].
    - unfold Q2R. cbn [Qnum Qden]. Lra.lra.
    - unfold Q2R. cbn [Qnum Qden]. Lra.lra. }
  assert (Hzero : Hsv.avg_h cluster_hsv = 0).
  { unfold Hsv.avg_h. rewrite Hreal. apply circular_mean_symmetric. Lra.lra. }
  split; [exact Hzero|].
  split.
  { rewrite Hreal. unfold Np.rmean, Np.rsum.
    cbn [List.fold_right List.length INR]. field. }
  destruct H3 as (k & Hk & Hdist). rewrite Hzero in Hdist.
  apply Rabs_bounds in Hdist. destruct Hdist as [Hd1 Hd2].
  destruct H1 as [H0 _]. apply Qreals.Qle_Rle in H0.
  rewrite RMicromega.Q2R_0 in H0.
  assert (H65 : 0 < / 65536 < 1).
  { split; [apply Rinv_0_lt_compat; Lra.lra|].
    rewrite <- Rinv_1. apply Rinv_lt_contravar; Lra.lra. }
  assert (Hcases : (k = -1 \/ k = 0 \/ k = 1)%Z) by lia.
  destruct Hcases as [->|[->| ->]].
  - exfalso. Lra.lra.
  - left. Lra.lra.
  - right. Lra.lra.
Qed.

Lemma C4_circular_mean_hue_witness :
  (Single.avg_h numpy_at_wrap (List.map Hsv.hue wrap_cluster) == 360)%Q /\
  Hsv.avg_h wrap_cluster = 0 /\
  Np.rmean (List.map (fun p => Q2R (Hsv.hue p)) wrap_cluster) = 180.
Proof.
  assert (Hrange : (-180 <= Single.angle numpy_at_wrap
                               (List.map Hsv.hue wrap_cluster) <= 180)%Q).
  { split; vm_compute; discriminate. }
  assert (Hclose :
            Rabs (Q2R (Single.angle numpy_at_wrap (List.map Hsv.hue wrap_cluster))
                  - mean_angle
                      (List.map (fun p => Q2R (Hsv.hue p)) wrap_cluster))
            <= / 100000).
  { replace (List.map (fun p => Q2R (Hsv.hue p)) wrap_cluster)
      with [Q2R 2; 360 - Q2R 2].
    - rewrite mean_angle_wrap
        by (unfold Q2R; cbn [Qnum Qden]; split; Lra.lra).
      replace (Single.angle numpy_at_wrap (List.map Hsv.hue wrap_cluster))
        with ((-821893) # 274877906944)%Q by (vm_compute; reflexivity).
      unfold Q2R. cbn [Qnum Qden]. apply Rabs_le. split; Lra.lra.
    - cbn [List.map wrap_cluster Hsv.hue fst]. f_equal. f_equal.
      unfold Q2R. cbn [Qnum Qden]. Lra.lra. }
  destruct (C4_circular_mean_hue numpy_at_wrap wrap_cluster (/ 100000)
              Hrange Hclose)
    as (_ & Habsorb & _ & _ & _ & Hwrap).
  split.
  - apply Habsorb. split; vm_compute; [discriminate|reflexivity].
  - destruct Hwrap as (Hzero & Hmean & _); [reflexivity|Lra.lra|].
    split; assumption.
Defined.

(** On the cluster with the hues 2 and 358 the hue is not below 360: the
    angle is about -0.000003 degrees, and its sum with 360 in [float32]
    is 360.0. *)
Lemma C4_not_below_360 :
  (Single.avg_h numpy_at_wrap (List.map Hsv.hue wrap_cluster) == 360)%Q /\
  ~ (Single.avg_h numpy_at_wrap (List.map Hsv.hue wrap_cluster) < 360)%Q.
Proof.
  split; [vm_compute; reflexivity|].
  intros H. vm_compute in H. discriminate H.
Qed.

End HueClaim.

(** ** C5: the number of clusters *)

(** C5, as the code has it.  The configured k is 4 in the plain script and
    5 in the filtered and HSV scripts.  The plain script asks k-means for k
    clusters; the filtered and HSV scripts ask for min(k, number of rows of
    the sample), rows counted with their repetitions.  For a non-empty
    pixel matrix and k > 0 that number is at least 1 and at most the number
    of rows handed to k-means. *)
Theorem C5_cluster_count (E : env) (img : list rgb) (k : nat) (size : nat * nat) :
  resize E size img <> [] ->
  let pixels := resize E size img in
  let filtered_pixels := Improved.filter_pixels pixels in
  let hsv_pixels := fst (Hsv.sample pixels) in
  (Plain.default_k = 4 /\ Improved.default_k = 5 /\ Hsv.default_k = 5)%nat /\
  Plain.dominant_color E img k size =
    (km ← kmeans E k (rgb_features pixels) ;
     c ← Plain.select km ; inr (hex_color c)) /\
  Improved.dominant_color E img k size =
    (km ← kmeans E (Nat.min k (List.length filtered_pixels))
                   (rgb_features filtered_pixels) ;
     best ← Improved.select km ; inr (hex_color (Improved.color best))) /\
  Hsv.dominant_color_hsv E img k size =
    (labels ← kmeans_real E (Nat.min k (List.length hsv_pixels))
                          (Hsv.clustering_features hsv_pixels) ;
     best ← Hsv.select hsv_pixels (snd (Hsv.sample pixels)) labels ;
     inr (hex_color (Hsv.entry_color best))) /\
  ((0 < k)%nat ->
   (1 <= Nat.min k (List.length filtered_pixels) <= List.length filtered_pixels)%nat /\
   (1 <= Nat.min k (List.length hsv_pixels) <= List.length hsv_pixels)%nat) /\
  List.length (rgb_features filtered_pixels) = List.length filtered_pixels /\
  List.length (Hsv.clustering_features hsv_pixels) = List.length hsv_pixels.
Proof.
  intros Hne pixels filtered_pixels hsv_pixels.
  split; [repeat split|].
  split; [reflexivity|].
  split; [reflexivity|].
  split.
  { unfold Hsv.dominant_color_hsv. fold pixels. subst hsv_pixels.
    destruct (Hsv.sample pixels) as [h f]. reflexivity. }
  split.
  { intros Hk.
    assert (H1 : filtered_pixels <> []) by (apply filter_pixels_nonempty; exact Hne).
    assert (H2 : hsv_pixels <> []) by (apply sample_nonempty; exact Hne).
    destruct filtered_pixels; [congruence|]. destruct hsv_pixels; [congruence|].
    simpl List.length. lia. }
  split.
  - unfold rgb_features. apply List.length_map.
  - unfold Hsv.clustering_features. apply List.length_map.
Qed.

Lemma C5_cluster_count_witness :
  resize (example_env None Stored) (150, 150)%nat [grey] <> [] /\
  (Plain.default_k = 4 /\ Improved.default_k = 5 /\ Hsv.default_k = 5)%nat.
Proof.
  assert (H : resize (example_env None Stored) (150, 150)%nat [grey] <> [])
    by discriminate.
  exact (conj H (proj1 (C5_cluster_count (example_env None Stored) [grey] 5
                          (150, 150)%nat H))).
Defined.

(** On a 150x150 matrix of one grey the filtered script asks for 5
    clusters although the sample has one distinct row, and the plain script
    asks for 4. *)
Lemma C5_counterexample :
  Improved.n_clusters Improved.default_k (Improved.filter_pixels monochrome_pixels) = 5%nat /\
  distinct_sample_count (Improved.filter_pixels monochrome_pixels) = 1%nat /\
  Improved.n_clusters Improved.default_k (Improved.filter_pixels monochrome_pixels) <>
  Nat.min Improved.default_k
          (distinct_sample_count (Improved.filter_pixels monochrome_pixels)) /\
  Plain.n_clusters Plain.default_k monochrome_pixels <>
  Nat.min Plain.default_k (distinct_sample_count monochrome_pixels).
Proof.
  assert (Hd : distinct_sample_count monochrome_pixels = 1%nat).
  { unfold distinct_sample_count, monochrome_pixels, block.
    replace (N.to_nat 22500) with (S (N.to_nat 22499)) by lia.
    rewrite remove_dups_repeat. reflexivity. }
  assert (Hn : Improved.n_clusters Improved.default_k monochrome_pixels = 5%nat).
  { unfold Improved.n_clusters, Improved.default_k, monochrome_pixels, block.
    rewrite List.repeat_length. lia. }
  rewrite monochrome_unfiltered, Hn, Hd.
  repeat split; try reflexivity; unfold Plain.n_clusters, Plain.default_k, Improved.default_k;
    simpl; lia.
Qed.

(** ** C6: the low-saturation mask *)

(** C6, evaluated.  The mask of the low-saturation step holds [true] exactly
    for the rows whose saturation is strictly above 15.  The pixel
    (200, 170, 170) has saturation exactly 15 and is masked out: of a
    150x150 matrix made of that pixel and of pure red in equal parts, only
    the red half reaches k-means. *)
Theorem C6_saturation_15_dropped :
  (forall (p : Hsv.hsv) (rest : list Hsv.hsv),
      Hsv.high_saturation_mask (p :: rest) =
      Py.Qltb 15 (Hsv.sat p) :: Hsv.high_saturation_mask rest) /\
  (forall p : Hsv.hsv,
      Py.Qltb 15 (Hsv.sat p) = true <-> (15 < Hsv.sat p)%Q) /\
  (Hsv.sat (Hsv.rgb_to_hsv_row dusty_pink) == 15)%Q /\
  Hsv.high_saturation_mask [Hsv.rgb_to_hsv_row dusty_pink] = [false] /\
  Hsv.sample saturation_15_pixels =
  (Hsv.rgb_to_hsv_array (block red 11250), block red 11250).
Proof.
  split; [reflexivity|].
  split; [intros p; apply Qltb_lt|].
  split; [vm_compute; reflexivity|].
  split; [vm_compute; reflexivity|].
  assert (Hne : saturation_15_pixels <> []).
  { unfold saturation_15_pixels, block.
    replace (N.to_nat 11250) with (S (N.to_nat 11249)) by lia. discriminate. }
  rewrite (sample_is_saturation_filter _ Hne).
  assert (Hf : Hsv.filter_pixels saturation_15_pixels = saturation_15_pixels).
  { unfold Hsv.filter_pixels.
    assert (Hn : Hsv.non_extreme saturation_15_pixels = saturation_15_pixels).
    { unfold Hsv.non_extreme, saturation_15_pixels, block.
      rewrite List.filter_app, !filter_repeat.
      change (negb (Hsv.is_extreme_color 255 0 0 20)) with true.
      change (negb (Hsv.is_extreme_color 200 170 170 20)) with true.
      cbv iota. reflexivity. }
    rewrite Hn. destruct (below_tenth _ _); reflexivity. }
  rewrite Hf.
  assert (Hsel : forall A (g : rgb -> A),
             Np.mask_select
               (Hsv.high_saturation_mask (Hsv.rgb_to_hsv_array saturation_15_pixels))
               (List.map g saturation_15_pixels) = List.map g (block red 11250)).
  { intros A g. rewrite mask_select_map. apply (f_equal (List.map g)).
    unfold Hsv.high_saturation_mask, Hsv.rgb_to_hsv_array.
    rewrite List.map_map, mask_select_map_filter.
    unfold saturation_15_pixels, block.
    rewrite List.filter_app, !filter_repeat.
    change (Py.Qltb 15 (Hsv.sat (Hsv.rgb_to_hsv_row red))) with true.
    change (Py.Qltb 15 (Hsv.sat (Hsv.rgb_to_hsv_row dusty_pink))) with false.
    cbv iota. reflexivity. }
  unfold Hsv.saturation_filter.
  assert (Hsum : Z.of_nat (Np.mask_sum (Hsv.high_saturation_mask
                   (Hsv.rgb_to_hsv_array saturation_15_pixels))) = 11250%Z).
  { unfold Hsv.high_saturation_mask, Hsv.rgb_to_hsv_array.
    rewrite List.map_map, mask_sum_map.
    unfold saturation_15_pixels, block.
    rewrite List.filter_app, !filter_repeat.
    change (Py.Qltb 15 (Hsv.sat (Hsv.rgb_to_hsv_row red))) with true.
    change (Py.Qltb 15 (Hsv.sat (Hsv.rgb_to_hsv_row dusty_pink))) with false.
    cbv iota. apply (block_length red 11250). }
  rewrite above_tenth_Z, Hsum.
  unfold Hsv.rgb_to_hsv_array at 1. rewrite List.length_map.
  unfold saturation_15_pixels at 1.
  rewrite List.length_app, Nat2Z.inj_add, !block_length.
  change (22500 <? 10 * 11250)%Z with true. cbv iota.
  apply f_equal2.
  - apply (Hsel _ Hsv.rgb_to_hsv_row).
  - rewrite <- (List.map_id saturation_15_pixels) at 2.
    rewrite Hsel. apply List.map_id.
Qed.

(** ** C7: what the per-URL handler catches *)

(** C7, as the code has it.  Whatever exception of the [Exception]
    hierarchy the body of the [try] raises for a URL, the loop iteration
    ends normally with an absent colour for that URL and one warning.  That
    includes the error of a failed creation of the cache directory and the
    error of a refused cache-file write, in all three scripts.  The loop
    over the URLs is only ever left by an exception outside [Exception];
    when loader and extractor raise none, it ends with an entry for every
    URL. *)
Theorem C7_per_url_catch (E : env) (extract : list rgb -> exn + string)
    (url_to_color : gmap string Pandas.cell) (url : string) (w : world)
    (e : exn) :
  is_Exception e = true ->
  (forall (download : string -> M (list rgb)) (w' : world),
      attempt download extract url_to_color url w = (inl e, w') ->
      process_url download extract url_to_color url w =
      (inr (<[url := None]> url_to_color), warned url e w')) /\
  (cache_dir_exists w = false -> makedirs_fault E = Some e ->
   process_url (Plain.download_image E) extract url_to_color url w =
     (inr (<[url := None]> url_to_color), warned url e w) /\
   process_url (Improved.download_image E) extract url_to_color url w =
     (inr (<[url := None]> url_to_color), warned url e w) /\
   process_url (Hsv.download_image E) extract url_to_color url w =
     (inr (<[url := None]> url_to_color), warned url e w)) /\
  (forall content : bytes,
      cache_dir_exists w = true ->
      files w !! filename_for_url E url = None ->
      http_get E (List.length (requests_log w)) url = inr content ->
      open_wb E (filename_for_url E url) = Refused e ->
      let w' := World (cache_dir_exists w) (files w)
                      (requests_log w ++ [url]) (stdout w) in
      process_url (Plain.download_image E) extract url_to_color url w =
        (inr (<[url := None]> url_to_color), warned url e w') /\
      process_url (Improved.download_image E) extract url_to_color url w =
        (inr (<[url := None]> url_to_color), warned url e w') /\
      process_url (Hsv.download_image E) extract url_to_color url w =
        (inr (<[url := None]> url_to_color), warned url e w')) /\
  (forall (download : string -> M (list rgb)) (urls : list string)
          (e' : exn) (w' : world),
      process_all download extract urls url_to_color w = (inl e', w') ->
      is_Exception e' = false) /\
  (forall (download : string -> M (list rgb)) (urls : list string),
      raises_only_Exception download ->
      (forall img e', extract img = inl e' -> is_Exception e' = true) ->
      exists d' w',
        process_all download extract urls url_to_color w = (inr d', w') /\
        forall u, List.In u urls -> is_Some (d' !! u)).
Proof.
  intros He.
  assert (Hcatch : forall (download : string -> M (list rgb)) (w' : world),
             download url w = (inl e, w') ->
             process_url download extract url_to_color url w =
             (inr (<[url := None]> url_to_color), warned url e w')).
  { intros download w' H. rewrite process_url_cases, attempt_cases, H, He.
    reflexivity. }
  split.
  { intros download w' H. rewrite process_url_cases, H, He. reflexivity. }
  split.
  { intros Hdir Hf.
    destruct (download_raises E url w w e (ensure_cache_fault E w e Hdir Hf url))
      as (H1 & H2 & H3).
    repeat split; apply Hcatch; assumption. }
  split.
  { intros content Hdir Hnone Hget Hopen w'.
    destruct (download_raises E url w w' e
                (write_refused E url w content e Hdir Hnone Hget Hopen))
      as (H1 & H2 & H3).
    repeat split; apply Hcatch; assumption. }
  split.
  { intros download urls e' w'. apply process_all_no_Exception. }
  intros download urls Hd Hx.
  destruct (process_all_total download extract urls url_to_color w Hd Hx)
    as (d' & w' & H).
  exists d', w'. split; [exact H|].
  apply (process_all_lookup download extract urls url_to_color d' w w' H).
Qed.

Lemma C7_per_url_catch_witness :
  is_Exception (OSError "EACCES") = true /\
  process_url
    (Plain.download_image (example_env (Some (OSError "EACCES")) Stored))
    (fun img => Plain.dominant_color
                  (example_env (Some (OSError "EACCES")) Stored) img
                  Plain.default_k Plain.default_resize)
    ∅ rice_url fresh_world =
  (inr (<[rice_url := None]> ∅), warned rice_url (OSError "EACCES") fresh_world).
Proof.
  split; [reflexivity|].
  exact (proj1 (proj1 (proj2 (C7_per_url_catch
                  (example_env (Some (OSError "EACCES")) Stored)
                  (fun img => Plain.dominant_color
                                (example_env (Some (OSError "EACCES")) Stored) img
                                Plain.default_k Plain.default_resize)
                  ∅ rice_url fresh_world (OSError "EACCES") eq_refl))
               eq_refl eq_refl)).
Defined.

(** With a cache directory that cannot be created, and with a cache file
    that cannot be written, the run of the plain script ends normally: all
    rows get an absent colour and the error is printed as a warning. *)
Lemma C7_counterexample :
  Plain.main (example_env (Some (OSError "EACCES")) Stored)
             example_frame fresh_world =
    (inr (example_frame ++ [("dominant_color"%string, [None; None; None])]),
     World false ∅ [] [(rice_url, OSError "EACCES")]) /\
  Plain.main (example_env None (Refused (OSError "ENOSPC")))
             example_frame fresh_world =
    (inr (example_frame ++ [("dominant_color"%string, [None; None; None])]),
     World true ∅ [rice_url] [(rice_url, OSError "ENOSPC")]).
Proof. split; vm_compute; reflexivity. Qed.

(** ** C8: the cache is idempotent *)

(** C8.  The cache file of a URL is the cache directory, the SHA-256 hex
    digest of the URL and the suffix [.img].  When that file exists (in an
    existing cache directory), [download_image] reads exactly its content
    and leaves the world as it was: no request is sent and no file is
    written, in all three scripts.  No call ever changes or removes a file
    that existed before it, and a call that succeeded is repeated by the
    next call with the same bytes and no further effect. *)
Theorem C8_cache_idempotent (E : env) (url : string) (w : world) (content : bytes) :
  cache_dir_exists w = true ->
  files w !! filename_for_url E url = Some content ->
  filename_for_url E url =
    (".image_cache" ++ "/" ++ sha256_hexdigest E url ++ ".img")%string /\
  fetch_cached E url w = (inr content, w) /\
  (snd (Plain.download_image E url w) = w /\
   snd (Improved.download_image E url w) = w /\
   snd (Hsv.download_image E url w) = w) /\
  requests_log (snd (Plain.download_image E url w)) = requests_log w /\
  (forall (url0 : string) (w0 : world) (p : string) (b : bytes),
      files w0 !! p = Some b ->
      files (snd (fetch_cached E url0 w0)) !! p = Some b) /\
  (forall (w0 w1 : world) (c : bytes),
      fetch_cached E url w0 = (inr c, w1) ->
      fetch_cached E url w1 = (inr c, w1)).
Proof.
  intros Hdir Hfile.
  pose proof (fetch_cached_hit E url w content Hdir Hfile) as Hhit.
  assert (Hsame : forall load : image -> list rgb,
             snd ((raw ← fetch_cached E url ; img ← lift (image_open E raw) ;
                   ret (load img)) w) = w).
  { intros load. run_script. rewrite Hhit.
    destruct (image_open E content); reflexivity. }
  split; [reflexivity|].
  split; [exact Hhit|].
  split.
  { split; [apply (Hsame Pillow.convert_RGB)|].
    split; apply (Hsame composite_on_white). }
  split.
  { unfold Plain.download_image. rewrite (Hsame Pillow.convert_RGB). reflexivity. }
  split.
  { intros url0 w0 p b. apply fetch_cached_keeps_files. }
  intros w0 w1 c H. apply fetch_cached_success in H. destruct H as [H1 H2].
  apply fetch_cached_hit; assumption.
Qed.

Lemma C8_cache_idempotent_witness :
  cache_dir_exists warm_world = true /\
  files warm_world !! filename_for_url (example_env None Stored) rice_url =
    Some png_magic /\
  fetch_cached (example_env None Stored) rice_url warm_world =
    (inr png_magic, warm_world).
Proof.
  assert (H : files warm_world
                !! filename_for_url (example_env None Stored) rice_url
              = Some png_magic) by apply lookup_singleton_eq.
  split; [reflexivity|]. split; [exact H|].
  exact (proj1 (proj2 (C8_cache_idempotent (example_env None Stored) rice_url
                         warm_world png_magic eq_refl H))).
Defined.

(** ** C9: the output table *)

(** C9.  For a table with an [image_url] column and no [dominant_color]
    column, a run that ends normally returns the input columns unchanged
    followed by one new column [dominant_color] with one cell per row.  A
    row without URL has an empty cell; rows with equal URLs have equal
    cells; and a row whose URL failed, in download or in extraction, when
    its turn came has an empty cell, while one whose URL succeeded holds
    the extracted colour. *)
Theorem C9_schema (download : string -> M (list rgb))
    (extract : list rgb -> exn + string)
    (df out : Pandas.DataFrame) (image_url : list Pandas.cell) (w w' : world) :
  Pandas.column "image_url" df = inr image_url ->
  Pandas.column "dominant_color" df = inl (KeyError "dominant_color") ->
  main_with download extract df w = (inr out, w') ->
  exists colors : list Pandas.cell,
    out = df ++ [("dominant_color"%string, colors)] /\
    List.length colors = List.length image_url /\
    (forall N : nat,
        (forall c, List.In c df -> List.length (snd c) = N) ->
        forall c, List.In c out -> List.length (snd c) = N) /\
    (forall i : nat, image_url !! i = Some None -> colors !! i = Some None) /\
    (forall i j : nat, image_url !! i = image_url !! j -> colors !! i = colors !! j) /\
    (forall (pre post : list string) (u : string)
            (d1 : gmap string Pandas.cell) (w1 : world),
        Pandas.unique (Pandas.dropna image_url) = pre ++ u :: post ->
        process_all download extract pre ∅ w = (inr d1, w1) ->
        forall i : nat, image_url !! i = Some (Some u) ->
          match download u w1 with
          | (inl _, _) => colors !! i = Some None
          | (inr img, _) =>
              match extract img with
              | inl _ => colors !! i = Some None
              | inr c => colors !! i = Some (Some c)
              end
          end).
Proof.
  intros Hcol Hfresh Hmain.
  unfold main_with in Hmain.
  unfold mbind, M_bind, mret, M_ret, bind, ret, lift in Hmain.
  rewrite Hcol in Hmain.
  destruct (process_all download extract (Pandas.unique (Pandas.dropna image_url)) ∅ w)
    as [[e|d] w2] eqn:Hall; [discriminate|].
  inversion Hmain; subst out w2. clear Hmain.
  rewrite (set_column_fresh _ _ _ Hfresh).
  exists (Pandas.series_map d image_url).
  split; [reflexivity|].
  split; [apply series_map_length|].
  split.
  { intros N HN c Hc. apply List.in_app_or in Hc. destruct Hc as [Hc|[<-|[]]].
    - apply HN. exact Hc.
    - cbn [snd]. rewrite series_map_length.
      unfold Pandas.column in Hcol.
      destruct (List.find _ df) as [c0|] eqn:Hf; [|discriminate].
      inversion Hcol; subst. apply HN. eapply List.find_some. exact Hf. }
  split.
  { intros i Hi. rewrite series_map_lookup. unfold Pandas.cell in *.
    rewrite Hi. reflexivity. }
  split.
  { intros i j Hij. rewrite !series_map_lookup. unfold Pandas.cell in *.
    rewrite Hij. reflexivity. }
  intros pre post u d1 w1 Hsplit Hpre i Hi.
  rewrite Hsplit, process_all_app, Hpre, process_all_cons in Hall.
  destruct (process_url download extract d1 u w1) as [[e|d2] w3] eqn:Hu;
    [discriminate|].
  assert (Hnotin : ~ List.In u post).
  { pose proof (unique_NoDup (Pandas.dropna image_url)) as Hnd.
    rewrite Hsplit in Hnd. apply List.NoDup_remove_2 in Hnd.
    intros Hin. apply Hnd. apply List.in_or_app. right. exact Hin. }
  destruct (process_all_lookup download extract post d2 d w3 w' Hall) as [Hkeep _].
  specialize (Hkeep u Hnotin).
  rewrite series_map_lookup. unfold Pandas.cell in *. rewrite Hi, Hkeep.
  rewrite process_url_cases, attempt_cases in Hu.
  destruct (download u w1) as [[e|img] w4].
  - destruct (is_Exception e); [|discriminate].
    inversion Hu; subst. rewrite lookup_insert_eq. reflexivity.
  - destruct (extract img) as [e|c].
    + destruct (is_Exception e); [|discriminate].
      inversion Hu; subst. rewrite lookup_insert_eq. reflexivity.
    + inversion Hu; subst. rewrite lookup_insert_eq. reflexivity.
Qed.

Lemma C9_schema_witness :
  Pandas.column "image_url" example_frame =
    inr [Some rice_url; None; Some rice_url] /\
  Pandas.column "dominant_color" example_frame =
    inl (KeyError "dominant_color") /\
  exists colors : list Pandas.cell,
    example_frame ++ [("dominant_color"%string, example_colors)] =
    example_frame ++ [("dominant_color"%string, colors)] /\
    List.length colors = 3%nat.
Proof.
  split; [reflexivity|]. split; [reflexivity|].
  destruct (C9_schema _ _ example_frame _ [Some rice_url; None; Some rice_url]
              fresh_world _ eq_refl eq_refl improved_example_run)
    as (colors & Hout & Hlen & _).
  exists colors. split; [exact Hout | exact Hlen].
Defined.

(** ** C10: the two arrays of the HSV script move in lockstep *)

(** C10.  The low-saturation step applied to an RGB array and its HSV
    conversion returns an RGB array and its HSV conversion.  When
    clustering starts, [hsv_pixels] is row by row the conversion of
    [filtered_pixels], so both have the same length.  For labels with one
    entry per row, every scored cluster consists of exactly the rows
    carrying its label, its HSV rows are the conversions of its RGB rows,
    its count is the number of those rows, and its saturation and value are
    the means over those rows. *)
Theorem C10_hsv_lockstep (pixels : list rgb) (labels : list nat) :
  List.length labels = List.length (fst (Hsv.sample pixels)) ->
  let hsv_pixels := fst (Hsv.sample pixels) in
  let filtered_pixels := snd (Hsv.sample pixels) in
  (forall fp : list rgb,
      fst (Hsv.saturation_filter (Hsv.rgb_to_hsv_array fp) fp) =
      Hsv.rgb_to_hsv_array
        (snd (Hsv.saturation_filter (Hsv.rgb_to_hsv_array fp) fp))) /\
  hsv_pixels = Hsv.rgb_to_hsv_array filtered_pixels /\
  List.length hsv_pixels = List.length filtered_pixels /\
  (forall i : nat,
      hsv_pixels !! i = Hsv.rgb_to_hsv_row <$> filtered_pixels !! i) /\
  (forall e : Hsv.cluster_entry,
      List.In e (Hsv.cluster_info hsv_pixels filtered_pixels labels) ->
      exists l : nat,
        List.In l labels /\
        Hsv.cluster_rgb e =
          List.map snd (List.filter (fun lx => Nat.eqb l (fst lx))
                                    (List.combine labels filtered_pixels)) /\
        Hsv.cluster_hsv e =
          List.map snd (List.filter (fun lx => Nat.eqb l (fst lx))
                                    (List.combine labels hsv_pixels)) /\
        Hsv.cluster_hsv e = Hsv.rgb_to_hsv_array (Hsv.cluster_rgb e) /\
        Hsv.count e = List.length (Hsv.cluster_hsv e) /\
        Hsv.saturation e = Np.mean (List.map Hsv.sat (Hsv.cluster_hsv e)) /\
        Hsv.value e = Np.mean (List.map Hsv.val (Hsv.cluster_hsv e)) /\
        Hsv.entry_color e =
          Hsv.hsv_to_rgb (Hsv.avg_h (Hsv.cluster_hsv e))
                         (Q2R (Hsv.saturation e)) (Q2R (Hsv.value e))).
Proof.
  intros Hlen hsv_pixels filtered_pixels.
  assert (Hlock : hsv_pixels = Hsv.rgb_to_hsv_array filtered_pixels)
    by apply sample_lockstep.
  split; [exact saturation_filter_lockstep|].
  split; [exact Hlock|].
  split; [rewrite Hlock; apply List.length_map|].
  split.
  { intros i. rewrite Hlock. unfold Hsv.rgb_to_hsv_array.
    apply list_lookup_fmap. }
  intros e He. unfold Hsv.cluster_info in He.
  apply List.in_map_iff in He. destruct He as ([l n] & <- & Hin).
  apply unique_counts_In in Hin. destruct Hin as [-> Hpos].
  exists l. cbn [Hsv.describe Hsv.cluster_rgb Hsv.cluster_hsv Hsv.count
                 Hsv.saturation Hsv.value fst snd].
  split; [apply occurrences_pos_In; exact Hpos|].
  split; [apply mask_select_combine|].
  split; [apply mask_select_combine|].
  split; [rewrite Hlock; apply mask_select_map|].
  split.
  { unfold Np.occurrences. symmetry. apply mask_select_length. exact Hlen. }
  split; [reflexivity|].
  split; reflexivity.
Qed.

Lemma C10_hsv_lockstep_witness :
  List.length [0; 1]%nat =
    List.length (fst (Hsv.sample [red; grey; red; dusty_pink])) /\
  fst (Hsv.sample [red; grey; red; dusty_pink]) =
    Hsv.rgb_to_hsv_array (snd (Hsv.sample [red; grey; red; dusty_pink])).
Proof.
  assert (H : List.length [0; 1]%nat =
              List.length (fst (Hsv.sample [red; grey; red; dusty_pink])))
    by (rewrite example_sample; reflexivity).
  exact (conj H (proj1 (proj2 (C10_hsv_lockstep [red; grey; red; dusty_pink]
                                 [0; 1]%nat H)))).
Defined.

(* ===================================================================== *)
(** * Part IV: further properties of the scripts *)
(* ===================================================================== *)

(** ** The pixel filters *)

Lemma is_extreme_color_spec (r g b : Z) :
  Improved.is_extreme_color r g b 20 = true <->
  near_black (r, g, b) \/ near_white (r, g, b).
Proof.
  unfold Improved.is_extreme_color, near_black, near_white.
  change (255 - 20)%Z with 235%Z.
  destruct (Z.ltb_spec r 20), (Z.ltb_spec g 20), (Z.ltb_spec b 20),
    (Z.ltb_spec 235 r), (Z.ltb_spec 235 g), (Z.ltb_spec 235 b);
    cbn; split; intros; try discriminate; try reflexivity; try lia; auto.
Qed.

Lemma non_extreme_In (p : rgb) (pixels : list rgb) :
  List.In p (Improved.non_extreme pixels) <->
  List.In p pixels /\ ~ near_black p /\ ~ near_white p.
Proof.
  unfold Improved.non_extreme. rewrite List.filter_In.
  destruct p as [[r g] b].
  rewrite Bool.negb_true_iff, <- Bool.not_true_iff_false, is_extreme_color_spec.
  tauto.
Qed.

Lemma filter_sublist {A : Type} (f : A -> bool) (xs : list A) :
  List.filter f xs `sublist_of` xs.
Proof.
  induction xs as [|x xs IH]; cbn.
  - constructor.
  - destruct (f x); [apply sublist_skip|apply sublist_cons]; exact IH.
Qed.

Lemma filter_pixels_sublist (pixels : list rgb) :
  Improved.filter_pixels pixels `sublist_of` pixels.
Proof.
  rewrite filter_pixels_cases.
  destruct (_ <? _)%nat; [reflexivity|apply filter_sublist].
Qed.

(** X1.  The extreme-colour filter is the same function in the filtered and
    in the HSV script.  Its result is a sub-sequence of the pixel matrix
    (order and repetitions kept) and is never empty for a non-empty matrix.
    It is either the whole matrix, or exactly the pixels that are neither
    near-black (all channels below 20) nor near-white (all channels above
    235), and then these are at least a tenth of the matrix.  A matrix made
    of extreme pixels only and a matrix without any both pass unchanged. *)
Theorem extreme_filter_contract (pixels : list rgb) :
  let kept := Improved.filter_pixels pixels in
  Hsv.filter_pixels pixels = kept /\
  kept `sublist_of` pixels /\
  (pixels <> [] -> kept <> []) /\
  (kept = pixels \/
   (forall p, List.In p kept <->
              List.In p pixels /\ ~ near_black p /\ ~ near_white p) /\
   (List.length pixels <= 10 * List.length kept)%nat) /\
  ((forall p, List.In p pixels -> near_black p \/ near_white p) ->
   kept = pixels) /\
  ((forall p, List.In p pixels -> ~ near_black p /\ ~ near_white p) ->
   kept = pixels).
Proof.
  cbv zeta. split; [apply filter_pixels_same|].
  rewrite filter_pixels_cases.
  destruct (Nat.ltb_spec (10 * List.length (Improved.non_extreme pixels))
                         (List.length pixels)) as [Hlt|Hge].
  - repeat split; auto.
  - split; [apply filter_sublist|].
    split.
    { intros Hne Hnil. rewrite Hnil in Hge. cbn in Hge.
      destruct pixels; [congruence|cbn in Hge; lia]. }
    split; [right; split; [intros p; apply non_extreme_In|exact Hge]|].
    split.
    + intros Hall.
      assert (Hnil : Improved.non_extreme pixels = []).
      { destruct (Improved.non_extreme pixels) as [|p rest] eqn:Heq; [reflexivity|].
        assert (Hin : List.In p (Improved.non_extreme pixels))
          by (rewrite Heq; left; reflexivity).
        apply non_extreme_In in Hin. destruct Hin as (Hin & Hb & Hw).
        destruct (Hall p Hin); contradiction. }
      rewrite Hnil in Hge |- *. cbn in Hge.
      destruct pixels; [reflexivity|cbn in Hge; lia].
    + intros Hnone. apply filter_all. intros [[r g] b] Hin.
      apply Bool.negb_true_iff, Bool.not_true_iff_false.
      rewrite is_extreme_color_spec. specialize (Hnone _ Hin). tauto.
Qed.

(** X2.  For a non-empty pixel matrix the sample of the HSV script is what
    the low-saturation step leaves: the [len(hsv_pixels) == 0] fallback
    never fires.  The sample is a non-empty sub-sequence of the matrix; it
    is either the whole output of the extreme-colour filter, or exactly
    those of its pixels whose saturation exceeds 15, which then are more
    than a tenth of it. *)
Theorem hsv_sample_contract (pixels : list rgb) :
  pixels <> [] ->
  let s := Hsv.sample pixels in
  Hsv.sample pixels =
    Hsv.saturation_filter (Hsv.rgb_to_hsv_array (Hsv.filter_pixels pixels))
                          (Hsv.filter_pixels pixels) /\
  snd s <> [] /\
  snd s `sublist_of` pixels /\
  (snd s = Hsv.filter_pixels pixels \/
   (forall p, List.In p (snd s) <->
      List.In p (Hsv.filter_pixels pixels) /\
      (15 < Hsv.sat (Hsv.rgb_to_hsv_row p))%Q) /\
   (List.length (Hsv.filter_pixels pixels) < 10 * List.length (snd s))%nat).
Proof.
  intros Hne. cbv zeta.
  split; [apply sample_is_saturation_filter, Hne|].
  split.
  { pose proof (sample_nonempty pixels Hne) as H.
    rewrite sample_lockstep in H. intros Hnil. apply H. rewrite Hnil. reflexivity. }
  rewrite (sample_is_saturation_filter pixels Hne).
  rewrite saturation_filter_cases. cbv zeta.
  assert (Hsub : Hsv.filter_pixels pixels `sublist_of` pixels).
  { rewrite filter_pixels_same. apply filter_pixels_sublist. }
  unfold Hsv.high_saturation_mask, Hsv.rgb_to_hsv_array.
  rewrite List.map_map, mask_sum_map, List.length_map.
  destruct (Nat.ltb_spec (List.length (Hsv.filter_pixels pixels))
    (10 * List.length (List.filter
        (fun x => Py.Qltb 15 (Hsv.sat (Hsv.rgb_to_hsv_row x)))
        (Hsv.filter_pixels pixels)))) as [Hlt|Hge]; cbn [snd].
  - rewrite (mask_select_map_filter
               (fun x => Py.Qltb 15 (Hsv.sat (Hsv.rgb_to_hsv_row x)))).
    split; [etransitivity; [apply filter_sublist|exact Hsub]|].
    right. split; [|exact Hlt].
    intros p. rewrite List.filter_In, Qltb_lt. reflexivity.
  - split; [exact Hsub|left; reflexivity].
Qed.

Lemma hsv_sample_contract_witness :
  [red; grey; red; dusty_pink] <> [] /\
  snd (Hsv.sample [red; grey; red; dusty_pink]) `sublist_of`
    [red; grey; red; dusty_pink].
Proof.
  assert (H : [red; grey; red; dusty_pink] <> []) by discriminate.
  split; [exact H|].
  exact (proj1 (proj2 (proj2 (hsv_sample_contract _ H)))).
Defined.

(** ** The rows of the HSV matrix *)

Lemma qmax_inject (a b : Z) :
  Colorsys.qmax (inject_Z a / 255) (inject_Z b / 255) = (inject_Z (Z.max a b) / 255)%Q.
Proof.
  unfold Colorsys.qmax.
  destruct (Py.Qltb (inject_Z a / 255) (inject_Z b / 255)) eqn:H.
  - apply Qltb_lt in H.
    assert (a < b)%Z.
    { rewrite Zlt_Qlt. unfold Qdiv in H. apply Qmult_lt_r in H; [exact H|reflexivity]. }
    rewrite Z.max_r by lia. reflexivity.
  - apply Qltb_ge in H.
    assert (b <= a)%Z.
    { rewrite Zle_Qle. unfold Qdiv in H. apply Qmult_le_r in H; [exact H|reflexivity]. }
    rewrite Z.max_l by lia. reflexivity.
Qed.

Lemma qmin_inject (a b : Z) :
  Colorsys.qmin (inject_Z a / 255) (inject_Z b / 255) = (inject_Z (Z.min a b) / 255)%Q.
Proof.
  unfold Colorsys.qmin.
  destruct (Py.Qltb (inject_Z b / 255) (inject_Z a / 255)) eqn:H.
  - apply Qltb_lt in H.
    assert (b < a)%Z.
    { rewrite Zlt_Qlt. unfold Qdiv in H. apply Qmult_lt_r in H; [exact H|reflexivity]. }
    rewrite Z.min_r by lia. reflexivity.
  - apply Qltb_ge in H.
    assert (a <= b)%Z.
    { rewrite Zle_Qle. unfold Qdiv in H. apply Qmult_le_r in H; [exact H|reflexivity]. }
    rewrite Z.min_l by lia. reflexivity.
Qed.

Lemma mod1_range (q : Q) : (0 <= Py.mod1 q < 1)%Q.
Proof.
  unfold Py.mod1.
  pose proof (Qfloor_le q) as H1. pose proof (Qlt_floor q) as H2.
  rewrite inject_Z_plus in H2. change (inject_Z 1) with 1%Q in H2.
  split; Lqa.lra.
Qed.

Lemma rgb_to_hsv_sv (r g b : Z) :
  (0 <= r)%Z -> (0 <= g)%Z -> (0 <= b)%Z ->
  let M := max_channel (r, g, b) in
  let m := min_channel (r, g, b) in
  let hsv := Colorsys.rgb_to_hsv (inject_Z r / 255) (inject_Z g / 255) (inject_Z b / 255) in
  (0 <= fst (fst hsv) < 1)%Q /\
  (snd (fst hsv) == if (M =? m)%Z then 0 else inject_Z (M - m) / inject_Z M)%Q /\
  snd hsv = (inject_Z M / 255)%Q /\
  ((M = m)%Z -> fst (fst hsv) = 0%Q).
Proof.
  intros Hr Hg Hb. cbv zeta. unfold Colorsys.rgb_to_hsv, max_channel, min_channel.
  rewrite !qmax_inject, !qmin_inject.
  set (M := Z.max (Z.max r g) b). set (m := Z.min (Z.min r g) b).
  assert (HmM : (m <= M)%Z) by (unfold m, M; lia).
  assert (Hm0 : (0 <= m)%Z) by (unfold m; lia).
  destruct (Qeq_bool (inject_Z m / 255) (inject_Z M / 255)) eqn:Heq.
  - apply Qeq_bool_iff in Heq.
    assert (m = M).
    { apply inject_Z_injective. unfold Qdiv in Heq.
      apply Qmult_inj_r in Heq; [exact Heq|discriminate]. }
    subst m. rewrite H. rewrite Z.eqb_refl. cbn [fst snd].
    repeat split; try reflexivity; try Lqa.lra.
  - apply Qeq_bool_neq in Heq.
    assert (Hne : m <> M) by (intros E; apply Heq; rewrite E; reflexivity).
    destruct (Z.eqb_spec M m) as [E|_]; [congruence|].
    cbn [fst snd]. split; [apply mod1_range|].
    split; [|split; [reflexivity|intros; congruence]].
    assert (HM : ~ (inject_Z M == 0)%Q).
    { intros E. assert (M = 0)%Z by (unfold Qeq in E; cbn in E; lia). lia. }
    unfold Zminus. rewrite inject_Z_plus, inject_Z_opp. field. exact HM.
Qed.

Lemma hsv_row_fields (r g b : Z) :
  Hsv.rgb_to_hsv_row (r, g, b) =
  let hsv := Colorsys.rgb_to_hsv (inject_Z r / 255) (inject_Z g / 255) (inject_Z b / 255) in
  (fst (fst hsv) * 360, snd (fst hsv) * 100, snd hsv * 100)%Q.
Proof.
  unfold Hsv.rgb_to_hsv_row. cbv zeta.
  destruct (Colorsys.rgb_to_hsv _ _ _) as [[h s] v]. reflexivity.
Qed.

Lemma high_saturation_Z (p : rgb) :
  rgb_8bit p ->
  Py.Qltb 15 (Hsv.sat (Hsv.rgb_to_hsv_row p)) = (3 * max_channel p <? 20 * (max_channel p - min_channel p))%Z.
Proof.
  destruct p as [[r g] b]. intros (Hr & Hg & Hb). unfold channel_8bit in *.
  rewrite hsv_row_fields. cbv zeta. unfold Hsv.sat. cbn [fst snd].
  destruct (rgb_to_hsv_sv r g b) as (_ & Hs & _); try lia.
  set (M := max_channel (r, g, b)) in *. set (m := min_channel (r, g, b)) in *.
  assert (HmM : (0 <= m <= M)%Z) by (unfold m, M, max_channel, min_channel; lia).
  apply Bool.eq_iff_eq_true. rewrite Qltb_lt, Z.ltb_lt, Hs.
  destruct (Z.eqb_spec M m) as [E|Hne].
  - split; [Lqa.lra|lia].
  - assert (HM : (0 < inject_Z M)%Q).
    { change 0%Q with (inject_Z 0). rewrite <- Zlt_Qlt. lia. }
    assert (Ha : (inject_Z (M - m) == inject_Z (M - m) / inject_Z M * inject_Z M)%Q)
      by (field; Lqa.lra).
    assert (HZ : (3 * M < 20 * (M - m))%Z <->
                 (15 * inject_Z M < 100 * inject_Z (M - m))%Q).
    { change 15%Q with (inject_Z 15). change 100%Q with (inject_Z 100).
      rewrite <- !inject_Z_mult, <- Zlt_Qlt. lia. }
    rewrite HZ. clear HZ Hs.
    set (d := inject_Z M) in *. set (a := inject_Z (M - m)) in *.
    set (x := (a / d)%Q) in *. clearbody x a d. rewrite Ha.
    setoid_replace (100 * (x * d))%Q with (x * 100 * d)%Q using relation Qeq by ring.
    symmetry. apply Qmult_lt_r. exact HM.
Qed.

Lemma inject_Z_zero (z : Z) : (inject_Z z == 0)%Q -> z = 0%Z.
Proof. unfold Qeq. cbn. lia. Qed.

Lemma channel_unit (c : Z) : (0 <= c <= 255)%Z -> (0 <= inject_Z c / 255 <= 1)%Q.
Proof.
  intros H. split; [apply channel_nonneg; lia|].
  apply Qle_shift_div_r; [reflexivity|].
  rewrite Qmult_1_l. change 255%Q with (inject_Z 255). rewrite <- Zle_Qle. lia.
Qed.

(** X3.  For an 8-bit pixel the row stored by [rgb_to_hsv_array] has its
    hue in [0,360) and its saturation and value in [0,100]; the value is
    100 max / 255 and the saturation is 100 (max - min) / max, where max and
    min are the largest and the smallest channel; a grey pixel has
    saturation 0 and hue 0; and the mask test [saturation > 15] is the
    integer test 3 max < 20 (max - min). *)
Theorem hsv_row_contract (p : rgb) :
  rgb_8bit p ->
  let row := Hsv.rgb_to_hsv_row p in
  (0 <= Hsv.hue row < 360)%Q /\
  (0 <= Hsv.sat row <= 100)%Q /\
  (0 <= Hsv.val row <= 100)%Q /\
  (Hsv.val row == inject_Z (100 * max_channel p) / 255)%Q /\
  (Hsv.sat row ==
   if (max_channel p =? min_channel p)%Z then 0
   else inject_Z (100 * (max_channel p - min_channel p)) / inject_Z (max_channel p))%Q /\
  (max_channel p = min_channel p -> (Hsv.hue row == 0)%Q) /\
  Py.Qltb 15 (Hsv.sat row) = (3 * max_channel p <? 20 * (max_channel p - min_channel p))%Z.
Proof.
  intros Hp. cbv zeta.
  split; [|split; [|split; [|split; [|split; [|split;
    [|apply high_saturation_Z, Hp]]]]]];
  destruct p as [[r g] b]; destruct Hp as (Hr & Hg & Hb); unfold channel_8bit in *;
  destruct (rgb_to_hsv_sv r g b) as (Hh & Hs & Hv & Hgrey); try lia;
  try (apply hsv_saturation_range; lia);
  rewrite hsv_row_fields; cbv zeta; unfold Hsv.hue, Hsv.sat, Hsv.val; cbn [fst snd].
  - split; Lqa.lra.
  - rewrite Hv.
    assert (H1 : (0 <= inject_Z (max_channel (r, g, b)) / 255 <= 1)%Q)
      by (apply channel_unit; unfold max_channel; lia).
    split; Lqa.lra.
  - rewrite Hv, inject_Z_mult. change (inject_Z 100) with 100%Q. field.
  - rewrite Hs. destruct (max_channel (r, g, b) =? min_channel (r, g, b))%Z eqn:E; [ring|].
    rewrite inject_Z_mult. change (inject_Z 100) with 100%Q. field.
    apply Z.eqb_neq in E.
    intros H. apply inject_Z_zero in H.
    unfold max_channel, min_channel in *. lia.
  - intros E. rewrite (Hgrey E). ring.
Qed.

Lemma hsv_row_contract_witness :
  rgb_8bit dusty_pink /\
  Py.Qltb 15 (Hsv.sat (Hsv.rgb_to_hsv_row dusty_pink)) = false.
Proof.
  assert (H : rgb_8bit dusty_pink) by (cbv; intuition discriminate).
  split; [exact H|].
  rewrite (proj2 (proj2 (proj2 (proj2 (proj2 (proj2 (hsv_row_contract _ H))))))).
  reflexivity.
Defined.

(** ** The loaders *)

Lemma paste_rgba_cons (p : rgba) (px : list rgba) :
  Pillow.paste_rgba (Pillow.new_white (List.length (p :: px))) (p :: px) =
  (match p with
   | (r, g, b, a) =>
       (Pillow.blend8 a 255 r, Pillow.blend8 a 255 g, Pillow.blend8 a 255 b)
   end)
  :: Pillow.paste_rgba (Pillow.new_white (List.length px)) px.
Proof. destruct p as [[[r g] b] a]. reflexivity. Qed.

Lemma paste_rgba_lightened (px : list rgba) :
  List.Forall rgba_8bit px ->
  List.Forall2 lightened px
    (Pillow.paste_rgba (Pillow.new_white (List.length px)) px).
Proof.
  induction 1 as [|p px Hp Hpx IH].
  - constructor.
  - rewrite paste_rgba_cons. constructor; [|exact IH].
    destruct p as [[[r g] b] a]. destruct Hp as (Hr & Hg & Hb & Ha).
    unfold channel_8bit in *. unfold lightened.
    split; [apply blend8_on_white; assumption|].
    split; [apply blend8_on_white; assumption|].
    split; [apply blend8_on_white; assumption|].
    intros ->. rewrite !blend8_opaque by assumption. reflexivity.
Qed.

(** X4.  The loader of the filtered and HSV scripts returns as many pixels
    as [convert("RGB")] does, and the same pixels for every mode other than
    RGBA.  On an 8-bit RGBA image each returned channel lies between the
    source channel and 255 (compositing over white never darkens), and an
    opaque pixel keeps its colour. *)
Theorem loaders_agree (img : image) :
  List.length (composite_on_white img) = List.length (Pillow.convert_RGB img) /\
  (Pillow.mode img <> "RGBA"%string ->
   composite_on_white img = Pillow.convert_RGB img) /\
  (forall px : list rgba,
     img = ImageRGBA px -> List.Forall rgba_8bit px ->
     List.Forall2 lightened px (composite_on_white img)).
Proof.
  split; [|split].
  - destruct img; cbn; try reflexivity.
    rewrite List.length_map. apply paste_rgba_length.
  - destruct img; cbn; intros H; try reflexivity. congruence.
  - intros px -> Hpx. cbn. apply paste_rgba_lightened, Hpx.
Qed.

(** ** The hexadecimal format *)

Lemma nibble_value_nibble (d : Z) : (0 <= d < 16)%Z -> nibble_value (nibble d) = d.
Proof.
  intros H.
  assert (Hd : List.In d (List.map Z.of_nat (List.seq 0 16))).
  { apply List.in_map_iff. exists (Z.to_nat d). split; [lia|].
    apply List.in_seq. lia. }
  cbn in Hd. intuition (subst; reflexivity).
Qed.

Lemma format_02x_two_digits (n : Z) :
  (0 <= n <= 255)%Z -> Py.format_02x n = two_digits n.
Proof.
  intros H.
  assert (Hall : List.forallb
            (fun n => String.eqb (Py.format_02x n) (two_digits n))
            (List.map Z.of_nat (List.seq 0 256)) = true)
    by (vm_compute; reflexivity).
  rewrite List.forallb_forall in Hall.
  apply String.eqb_eq, Hall.
  apply List.in_map_iff. exists (Z.to_nat n). split; [lia|].
  apply List.in_seq. lia.
Qed.

Lemma two_digits_inj (n n' : Z) :
  (0 <= n <= 255)%Z -> (0 <= n' <= 255)%Z -> two_digits n = two_digits n' -> n = n'.
Proof.
  intros Hn Hn' H. unfold two_digits in H. injection H as Hhi Hlo.
  apply (f_equal nibble_value) in Hhi, Hlo.
  rewrite !nibble_value_nibble in Hhi, Hlo
    by (try apply Z.mod_pos_bound; try split;
        try apply Z.div_pos; try apply Z.div_lt_upper_bound; lia).
  rewrite (Z.div_mod n 16), (Z.div_mod n' 16) by lia. congruence.
Qed.

Lemma hex_color_two_digits (c : rgb) :
  rgb_8bit c ->
  hex_color c =
    (match c with
     | (r, g, b) => String "#" (two_digits r ++ two_digits g ++ two_digits b)
     end)%string.
Proof.
  destruct c as [[r g] b]. intros (Hr & Hg & Hb). unfold hex_color.
  rewrite !format_02x_two_digits by assumption. reflexivity.
Qed.

Lemma hex_color_length (c : rgb) : rgb_8bit c -> String.length (hex_color c) = 7%nat.
Proof.
  intros Hc. rewrite (hex_color_two_digits c Hc). destruct c as [[r g] b]. reflexivity.
Qed.

(** X5.  For 8-bit channels the formatted colour is a hash sign followed by
    two lowercase hexadecimal digits per channel, high digit first, seven
    characters in all, and distinct colours give distinct strings. *)
Theorem hex_color_format (c : rgb) :
  rgb_8bit c ->
  hex_color c =
    (match c with
     | (r, g, b) => String "#" (two_digits r ++ two_digits g ++ two_digits b)
     end)%string /\
  String.length (hex_color c) = 7%nat /\
  (forall c' : rgb, rgb_8bit c' -> hex_color c' = hex_color c -> c' = c).
Proof.
  pose proof hex_color_two_digits as Hform.
  intros Hc. split; [apply Hform, Hc|].
  split.
  - rewrite (Hform c Hc). destruct c as [[r g] b]. reflexivity.
  - intros c' Hc' H. rewrite (Hform c Hc), (Hform c' Hc') in H.
    destruct c as [[r g] b], c' as [[r' g'] b'].
    destruct Hc as (Hr & Hg & Hb), Hc' as (Hr' & Hg' & Hb').
    cbn in H. injection H as H1 H2 H3 H4 H5 H6.
    rewrite (two_digits_inj r' r), (two_digits_inj g' g), (two_digits_inj b' b);
      try assumption; try reflexivity; unfold two_digits; congruence.
Qed.

Lemma hex_color_format_witness :
  rgb_8bit dusty_pink /\ hex_color dusty_pink = "#c8aaaa"%string.
Proof.
  assert (H : rgb_8bit dusty_pink) by (cbv; intuition discriminate).
  split; [exact H|].
  rewrite (proj1 (hex_color_format _ H)). reflexivity.
Defined.

(** ** The colour of an HSV cluster *)

Lemma hsv_row_range (p : rgb) : rgb_8bit p -> hsv_row (Hsv.rgb_to_hsv_row p).
Proof.
  destruct p as [[r g] b]. intros (Hr & Hg & Hb). unfold channel_8bit in *.
  destruct (rgb_to_hsv_sv r g b) as (Hh & Hs & Hv & Hgrey); try lia.
  split; [|split; [apply hsv_saturation_range; lia|]];
    rewrite hsv_row_fields; cbv zeta; unfold Hsv.hue, Hsv.val; cbn [fst snd].
  - split; Lqa.lra.
  - rewrite Hv.
    assert (H1 : (0 <= inject_Z (max_channel (r, g, b)) / 255 <= 1)%Q)
      by (apply channel_unit; unfold max_channel; lia).
    split; Lqa.lra.
Qed.

Lemma mask_select_In {A : Type} (mask : list bool) (xs : list A) (x : A) :
  List.In x (Np.mask_select mask xs) -> List.In x xs.
Proof.
  revert xs. induction mask as [|m mask IH]; intros [|y ys]; cbn; try tauto.
  destruct m; cbn; intros H; [destruct H as [H|H]|]; auto.
Qed.

Lemma sum_between (lo hi : Q) (xs : list Q) :
  List.Forall (fun x => lo <= x <= hi)%Q xs ->
  (lo * inject_Z (Z.of_nat (List.length xs)) <= List.fold_right Qplus 0 xs
   <= hi * inject_Z (Z.of_nat (List.length xs)))%Q.
Proof.
  induction 1 as [|x xs Hx _ IH].
  - cbn. rewrite !Qmult_0_r. split; apply Qle_refl.
  - cbn [List.length List.fold_right].
    rewrite Nat2Z.inj_succ, <- Z.add_1_r, inject_Z_plus.
    change (inject_Z 1) with 1%Q. split; Lqa.lra.
Qed.

Lemma mean_between (lo hi : Q) (xs : list Q) :
  xs <> [] ->
  List.Forall (fun x => lo <= x <= hi)%Q xs ->
  (lo <= Np.mean xs <= hi)%Q.
Proof.
  intros Hne Hall. rewrite mean_is_arithmetic.
  pose proof (sum_between lo hi xs Hall) as [H1 H2].
  assert (Hn : (0 < inject_Z (Z.of_nat (List.length xs)))%Q).
  { change 0%Q with (inject_Z 0). rewrite <- Zlt_Qlt.
    destruct xs; [congruence|cbn [List.length]; lia]. }
  split.
  - apply Qle_shift_div_l; assumption.
  - apply Qle_shift_div_r; assumption.
Qed.

Section ColourFacts.
Local Open Scope R_scope.

Lemma Q2R_between (lo hi : Z) (q : Q) :
  (inject_Z lo <= q <= inject_Z hi)%Q -> IZR lo <= Q2R q <= IZR hi.
Proof.
  intros [H1 H2]. apply Qreals.Qle_Rle in H1, H2.
  unfold Q2R in H1 at 1. unfold Q2R in H2 at 2. cbn [Qnum Qden inject_Z] in H1, H2.
  split; Lra.lra.
Qed.

Lemma Int_part_frac (x : R) : 0 <= x - IZR (Int_part x) < 1.
Proof. destruct (base_Int_part x). split; Lra.lra. Qed.

Lemma rtrunc_channel (x : R) : 0 <= x <= 1 -> channel_8bit (Colorsys.rtrunc (x * 255)).
Proof.
  intros Hx. unfold Colorsys.rtrunc, channel_8bit.
  destruct (Rle_dec 0 (x * 255)) as [_|Hn]; [|exfalso; apply Hn; Lra.lra].
  pose proof (Int_part_frac (x * 255)) as [H1 H2].
  split.
  - apply Z.lt_succ_r, lt_IZR. rewrite succ_IZR. Lra.lra.
  - apply le_IZR. Lra.lra.
Qed.

Lemma colorsys_hsv_to_rgb_unit (h s v : R) :
  0 <= h -> 0 <= s <= 1 -> 0 <= v <= 1 ->
  match Colorsys.hsv_to_rgb h s v with
  | (r, g, b) => 0 <= r <= 1 /\ 0 <= g <= 1 /\ 0 <= b <= 1
  end.
Proof.
  intros Hh Hs Hv. unfold Colorsys.hsv_to_rgb.
  destruct (Req_dec_T s 0) as [_|_]; [tauto|].
  assert (Hi : Colorsys.rtrunc (h * 6) = Int_part (h * 6)).
  { unfold Colorsys.rtrunc. destruct (Rle_dec 0 (h * 6)) as [_|Hn];
      [reflexivity|exfalso; apply Hn; Lra.lra]. }
  rewrite Hi. pose proof (Int_part_frac (h * 6)) as Hf.
  set (f := h * 6 - IZR (Int_part (h * 6))) in *.
  assert (Hp : 0 <= v * (1 - s) <= 1) by Lra.nra.
  assert (Hq : 0 <= v * (1 - s * f) <= 1) by Lra.nra.
  assert (Ht : 0 <= v * (1 - s * (1 - f)) <= 1) by Lra.nra.
  destruct (Int_part (h * 6) mod 6)%Z as [|p0|p0]; [tauto| |tauto].
  do 3 (try (destruct p0 as [p0|p0|]; try tauto)).
Qed.

Lemma hsv_to_rgb_pixel (h s v : R) :
  0 <= h -> 0 <= s <= 100 -> 0 <= v <= 100 -> rgb_8bit (Hsv.hsv_to_rgb h s v).
Proof.
  intros Hh Hs Hv. unfold Hsv.hsv_to_rgb.
  pose proof (colorsys_hsv_to_rgb_unit (h / 360) (s / 100) (v / 100)) as H.
  destruct (Colorsys.hsv_to_rgb _ _ _) as [[r g] b].
  destruct H as (Hr & Hg & Hb); try Lra.lra.
  repeat split; apply rtrunc_channel; assumption.
Qed.

End ColourFacts.

(** ** The clusters of the HSV script *)

Lemma describe_members (hsv_pixels : list Hsv.hsv) (filtered_pixels : list rgb)
    (labels : list nat) (l n : nat) :
  List.length labels = List.length hsv_pixels ->
  List.In (l, n) (Np.unique_counts labels) ->
  let e := Hsv.describe hsv_pixels filtered_pixels labels (l, n) in
  List.length (Hsv.cluster_hsv e) = n /\ (0 < n)%nat /\
  (forall p, List.In p (Hsv.cluster_hsv e) -> List.In p hsv_pixels).
Proof.
  intros Hlen Hin. cbv zeta. unfold Hsv.describe. cbn [Hsv.cluster_hsv fst snd].
  apply unique_counts_In in Hin. destruct Hin as [-> Hpos].
  split; [|split; [exact Hpos|]].
  - rewrite (mask_select_length _ _ _ Hlen). reflexivity.
  - intros p. apply mask_select_In.
Qed.

Lemma describe_ranges (hsv_pixels : list Hsv.hsv) (filtered_pixels : list rgb)
    (labels : list nat) (l n : nat) :
  List.length labels = List.length hsv_pixels ->
  List.Forall hsv_row hsv_pixels ->
  List.In (l, n) (Np.unique_counts labels) ->
  let e := Hsv.describe hsv_pixels filtered_pixels labels (l, n) in
  (0 <= Hsv.saturation e <= 100)%Q /\ (0 <= Hsv.value e <= 100)%Q.
Proof.
  intros Hlen Hrows Hin. cbv zeta.
  destruct (describe_members hsv_pixels filtered_pixels labels l n Hlen Hin)
    as (Hn & Hpos & Hsub).
  set (e := Hsv.describe hsv_pixels filtered_pixels labels (l, n)) in *.
  assert (Hne : Hsv.cluster_hsv e <> []).
  { intros E. rewrite E in Hn. cbn in Hn. lia. }
  rewrite List.Forall_forall in Hrows.
  change (Hsv.saturation e) with (Np.mean (List.map Hsv.sat (Hsv.cluster_hsv e))).
  change (Hsv.value e) with (Np.mean (List.map Hsv.val (Hsv.cluster_hsv e))).
  split; apply mean_between;
    try (intros E; apply List.map_eq_nil in E; contradiction);
    apply List.Forall_map, List.Forall_forall; intros p Hp;
    apply Hrows, Hsub, Hp.
Qed.

Section EntryFacts.
Local Open Scope R_scope.

Lemma avg_h_range (cluster : list Hsv.hsv) : 0 <= Hsv.avg_h cluster < 360.
Proof. unfold Hsv.avg_h, Hsv.circular_mean_hue. apply rmod_range. Lra.lra. Qed.

Lemma entry_color_pixel (hsv_pixels : list Hsv.hsv) (filtered_pixels : list rgb)
    (labels : list nat) (e : Hsv.cluster_entry) :
  List.length labels = List.length hsv_pixels ->
  List.Forall hsv_row hsv_pixels ->
  List.In e (Hsv.cluster_info hsv_pixels filtered_pixels labels) ->
  rgb_8bit (Hsv.entry_color e).
Proof.
  intros Hlen Hrows Hin. unfold Hsv.cluster_info in Hin.
  apply List.in_map_iff in Hin. destruct Hin as ([l n] & <- & Hin).
  destruct (describe_ranges hsv_pixels filtered_pixels labels l n Hlen Hrows Hin)
    as [Hs Hv].
  unfold Hsv.entry_color. apply hsv_to_rgb_pixel.
  - apply avg_h_range.
  - apply (Q2R_between 0 100). exact Hs.
  - apply (Q2R_between 0 100). exact Hv.
Qed.

End EntryFacts.

Lemma max_by_In {A : Type} (key : A -> Q) (xs : list A) (best : A) :
  Py.max_by key xs = Some best -> List.In best xs.
Proof.
  intros H.
  assert (Hne : xs <> []) by (destruct xs; [discriminate|discriminate]).
  destruct (max_by_first_max key xs Hne) as (i & b & Hb & Hat & _).
  rewrite Hb in H. injection H as <-.
  apply list_elem_of_In. eapply list_elem_of_lookup_2. exact Hat.
Qed.

Lemma sublist_Forall {A : Type} (P : A -> Prop) (xs ys : list A) :
  xs `sublist_of` ys -> List.Forall P ys -> List.Forall P xs.
Proof.
  intros Hsub Hys. rewrite List.Forall_forall in *. intros x Hx.
  apply Hys. apply list_elem_of_In. eapply elem_of_sublist; [|exact Hsub].
  apply list_elem_of_In. exact Hx.
Qed.

Lemma sample_sublist (pixels : list rgb) : snd (Hsv.sample pixels) `sublist_of` pixels.
Proof.
  destruct pixels as [|p pixels]; [reflexivity|].
  rewrite sample_is_saturation_filter by discriminate.
  rewrite saturation_filter_cases. cbv zeta.
  assert (Hsub : Hsv.filter_pixels (p :: pixels) `sublist_of` (p :: pixels))
    by (rewrite filter_pixels_same; apply filter_pixels_sublist).
  destruct (_ <? _)%nat; cbn [snd]; [|exact Hsub].
  unfold Hsv.high_saturation_mask, Hsv.rgb_to_hsv_array.
  rewrite List.map_map,
    (mask_select_map_filter (fun x => Py.Qltb 15 (Hsv.sat (Hsv.rgb_to_hsv_row x)))).
  etransitivity; [apply filter_sublist|exact Hsub].
Qed.

(** X6.  When the resized matrix holds 8-bit pixels and k-means returns one
    label per sample row, a string returned by [dominant_color_hsv] is the
    seven-character format of an 8-bit colour: the circular mean hue is
    non-negative, the mean saturation and value of a cluster lie in
    [0,100], and [hsv_to_rgb] maps such a triple to channels in 0..255
    (hue, sine and cosine read over the reals). *)
Theorem hsv_output_wellformed (E : env) (img : list rgb) (k : nat) (size : nat * nat) :
  List.Forall rgb_8bit (resize E size img) ->
  (forall labels : list nat,
     let hsv_pixels := fst (Hsv.sample (resize E size img)) in
     kmeans_real E (Hsv.n_clusters k hsv_pixels)
                 (Hsv.clustering_features hsv_pixels) = inr labels ->
     List.length labels = List.length hsv_pixels) ->
  match Hsv.dominant_color_hsv E img k size with
  | inr s => exists c : rgb, rgb_8bit c /\ s = hex_color c /\ String.length s = 7%nat
  | inl _ => True
  end.
Proof.
  intros Hpx Hkm. unfold Hsv.dominant_color_hsv. cbv zeta in *.
  pose proof (sample_sublist (resize E size img)) as Hsub.
  pose proof (sample_lockstep (resize E size img)) as Hlock.
  destruct (Hsv.sample (resize E size img)) as [hsv_pixels filtered_pixels].
  cbn [fst snd] in *.
  destruct (kmeans_real E _ _) as [e|labels] eqn:Hfit; [exact I|].
  specialize (Hkm labels eq_refl).
  cbn. unfold Hsv.select.
  destruct (Py.max_by _ _) as [best|] eqn:Hbest; [|exact I]. cbn.
  apply max_by_In in Hbest.
  assert (Hrows : List.Forall hsv_row hsv_pixels).
  { rewrite Hlock. apply List.Forall_map.
    eapply List.Forall_impl; [|exact (sublist_Forall _ _ _ Hsub Hpx)].
    intros p. apply hsv_row_range. }
  pose proof (entry_color_pixel _ _ _ _ Hkm Hrows Hbest) as Hc.
  exists (Hsv.entry_color best). split; [exact Hc|]. split; [reflexivity|].
  apply (hex_color_length _ Hc).
Qed.

Lemma hsv_output_wellformed_witness :
  List.Forall rgb_8bit [red] /\
  match Hsv.dominant_color_hsv (example_env None Stored) [red] 5 (150, 150)%nat with
  | inr s => exists c : rgb, rgb_8bit c /\ s = hex_color c /\ String.length s = 7%nat
  | inl _ => True
  end.
Proof.
  assert (H : List.Forall rgb_8bit [red]).
  { repeat constructor; cbv; discriminate. }
  split; [exact H|].
  apply (hsv_output_wellformed (example_env None Stored) [red] 5 (150, 150)%nat H).
  intros labels. cbv zeta. cbn [kmeans_real example_env]. unfold one_cluster_real.
  destruct (Hsv.clustering_features _) as [|row rows] eqn:Erows; [discriminate|].
  intros Heq. injection Heq as <-.
  change (0%nat :: List.map (fun _ : list R => 0%nat) rows)
    with (List.map (fun _ : list R => 0%nat) (row :: rows)).
  rewrite List.length_map, <- Erows.
  unfold Hsv.clustering_features. rewrite List.length_map. reflexivity.
Defined.

(** ** The feature matrix *)

Section FeatureFacts.
Local Open Scope R_scope.

Lemma feature_row_of (p : Hsv.hsv) :
  hsv_row p ->
  List.Forall feature_row (Hsv.clustering_features [p]).
Proof.
  intros (_ & Hs & Hv). constructor; [|constructor].
  apply (Q2R_between 0 100) in Hs, Hv.
  set (a := Np.radians (Q2R (Hsv.hue p))).
  exists (cos a * 2), (sin a * 2), (Q2R (Hsv.sat p) / 50), (Q2R (Hsv.val p) / 100).
  pose proof (sin2_cos2 a) as H1. unfold Rsqr in H1.
  pose proof (COS_bound a) as [H2 H3]. pose proof (SIN_bound a) as [H4 H5].
  split; [reflexivity|]. repeat split; try Lra.lra.
Qed.

(** X7.  The feature matrix handed to k-means by the HSV script has one row
    per 8-bit pixel, and each row is within the ranges the comments of the
    script state: the two hue features are a point of the circle of radius
    2 (each in [-2,2]), the saturation feature lies in [0,2] and the value
    feature in [0,1]. *)
Theorem clustering_features_range (pixels : list rgb) :
  List.Forall rgb_8bit pixels ->
  List.length (Hsv.clustering_features (Hsv.rgb_to_hsv_array pixels)) =
    List.length pixels /\
  List.Forall feature_row (Hsv.clustering_features (Hsv.rgb_to_hsv_array pixels)).
Proof.
  intros Hpx. split.
  - unfold Hsv.clustering_features, Hsv.rgb_to_hsv_array.
    rewrite !List.length_map. reflexivity.
  - induction Hpx as [|p pixels Hp _ IH]; [constructor|].
    constructor; [|exact IH].
    pose proof (feature_row_of _ (hsv_row_range p Hp)) as H.
    inversion H; assumption.
Qed.

Lemma clustering_features_range_witness :
  List.Forall rgb_8bit [red; grey] /\
  List.length (Hsv.clustering_features (Hsv.rgb_to_hsv_array [red; grey])) = 2%nat.
Proof.
  assert (H : List.Forall rgb_8bit [red; grey]).
  { repeat constructor; cbv; discriminate. }
  split; [exact H|]. exact (proj1 (clustering_features_range _ H)).
Defined.

End FeatureFacts.

(** ** The clusters partition the sample *)

Lemma occurrences_cons (l x : nat) (xs : list nat) :
  Np.occurrences l (x :: xs) =
  ((if Nat.eqb l x then 1 else 0) + Np.occurrences l xs)%nat.
Proof. unfold Np.occurrences. cbn. destruct (Nat.eqb l x); reflexivity. Qed.

Lemma list_sum_cons (a : nat) (l : list nat) :
  list_sum (a :: l) = (a + list_sum l)%nat.
Proof. reflexivity. Qed.

Lemma sum_indicator (x a n : nat) :
  list_sum (List.map (fun l => if Nat.eqb l x then 1 else 0)%nat (List.seq a n)) =
  (if (a <=? x)%nat && (x <? a + n)%nat then 1 else 0)%nat.
Proof.
  revert a. induction n as [|n IH]; intros a.
  - change (list_sum (List.map (fun l => if Nat.eqb l x then 1 else 0)%nat
                                (List.seq a 0))) with 0%nat.
    destruct (Nat.leb_spec a x), (Nat.ltb_spec x (a + 0)); cbn; try reflexivity; lia.
  - change (list_sum (List.map (fun l => if Nat.eqb l x then 1 else 0)%nat
                                (List.seq a (S n))))
      with ((if Nat.eqb a x then 1 else 0)
            + list_sum (List.map (fun l => if Nat.eqb l x then 1 else 0)%nat
                                 (List.seq (S a) n)))%nat.
    rewrite IH.
    destruct (Nat.eqb_spec a x), (Nat.leb_spec a x), (Nat.ltb_spec x (a + S n)),
      (Nat.leb_spec (S a) x), (Nat.ltb_spec x (S a + n)); cbn; try reflexivity; lia.
Qed.

Lemma sum_occurrences (labels : list nat) (m : nat) :
  List.Forall (fun l => l <= m)%nat labels ->
  list_sum (List.map (fun l => Np.occurrences l labels) (List.seq 0 (S m))) =
  List.length labels.
Proof.
  induction 1 as [|x xs Hx _ IH].
  - induction (List.seq 0 (S m)) as [|l ls IHl]; [reflexivity|exact IHl].
  - cbn [List.length]. rewrite <- IH.
    transitivity
      (list_sum (List.map (fun l => if Nat.eqb l x then 1 else 0)%nat (List.seq 0 (S m)))
       + list_sum (List.map (fun l => Np.occurrences l xs) (List.seq 0 (S m))))%nat.
    + clear IH. induction (List.seq 0 (S m)) as [|l ls IHl]; [reflexivity|].
      cbn [List.map]. rewrite !list_sum_cons, IHl, occurrences_cons. lia.
    + rewrite sum_indicator.
      destruct (Nat.leb_spec 0 x), (Nat.ltb_spec x (0 + S m)); cbn; lia.
Qed.

Lemma sum_filter_nonzero (lcs : list (nat * nat)) :
  list_sum (List.map snd (List.filter (fun lc => negb (Nat.eqb (snd lc) 0)) lcs)) =
  list_sum (List.map snd lcs).
Proof.
  induction lcs as [|[l c] lcs IH]; [reflexivity|].
  cbn [List.filter List.map snd].
  destruct (Nat.eqb_spec c 0) as [->|_]; cbn [negb List.map snd];
    rewrite ?list_sum_cons; lia.
Qed.

Lemma unique_counts_total (labels : list nat) :
  list_sum (List.map snd (Np.unique_counts labels)) = List.length labels.
Proof.
  unfold Np.unique_counts. rewrite sum_filter_nonzero, List.map_map. cbn [snd].
  apply sum_occurrences. apply List.Forall_forall. intros l. apply In_le_list_max.
Qed.

(** X8.  The clusters enumerated by [np.unique] partition the sample: the
    counts add up to the number of labels, no label is listed twice, and
    the listed labels are exactly the labels in use.  In the HSV script,
    with one label per row, every cluster has as many HSV rows and RGB rows
    as its count, at least one, and the counts add up to the number of
    rows. *)
Theorem clusters_partition (labels : list nat) :
  list_sum (List.map snd (Np.unique_counts labels)) = List.length labels /\
  List.NoDup (List.map fst (Np.unique_counts labels)) /\
  (forall l : nat, List.In l labels <->
                   List.In l (List.map fst (Np.unique_counts labels))) /\
  (forall (hsv_pixels : list Hsv.hsv) (filtered_pixels : list rgb),
     List.length labels = List.length hsv_pixels ->
     List.length labels = List.length filtered_pixels ->
     let info := Hsv.cluster_info hsv_pixels filtered_pixels labels in
     List.Forall
       (fun e => List.length (Hsv.cluster_hsv e) = Hsv.count e /\
                 List.length (Hsv.cluster_rgb e) = Hsv.count e /\
                 (0 < Hsv.count e)%nat) info /\
     list_sum (List.map Hsv.count info) = List.length hsv_pixels).
Proof.
  split; [apply unique_counts_total|].
  split.
  { pose proof (unique_counts_sorted labels) as H.
    induction H as [|l ls _ IH Hl]; constructor; [|exact IH].
    intros Hin. rewrite List.Forall_forall in Hl. specialize (Hl l Hin). lia. }
  split.
  { intros l. rewrite List.in_map_iff. split.
    - intros Hin. exists (l, Np.occurrences l labels). split; [reflexivity|].
      apply unique_counts_In. split; [reflexivity|]. apply occurrences_pos_In, Hin.
    - intros ([l' n] & <- & Hin). apply unique_counts_In in Hin.
      destruct Hin as [-> Hpos]. apply occurrences_pos_In, Hpos. }
  intros hsv_pixels filtered_pixels Hlen Hlen'. cbv zeta. split.
  - unfold Hsv.cluster_info. apply List.Forall_map, List.Forall_forall.
    intros [l n] Hin. unfold Hsv.describe.
    cbn [Hsv.cluster_hsv Hsv.cluster_rgb Hsv.count fst snd].
    apply unique_counts_In in Hin. destruct Hin as [-> Hpos].
    rewrite (mask_select_length _ _ _ Hlen), (mask_select_length _ _ _ Hlen').
    repeat split; [exact Hpos].
  - unfold Hsv.cluster_info. rewrite List.map_map.
    rewrite <- Hlen, <- unique_counts_total. reflexivity.
Qed.

(** ** The weight of the saturation *)

Lemma describe_inr (km : clustering) (lc : nat * nat) (e : Improved.cluster_entry) :
  Improved.describe km lc = inr e ->
  exists a b c : Q,
    cluster_centers_ km !! fst lc = Some [a; b; c] /\
    e = Improved.ClusterEntry
          (Py.round_half_even a, Py.round_half_even b, Py.round_half_even c)
          (snd lc)
          (Improved.get_color_saturation (Py.round_half_even a)
             (Py.round_half_even b) (Py.round_half_even c))
          (inject_Z (Z.of_nat (snd lc)) *
           (1 + Improved.get_color_saturation (Py.round_half_even a)
                  (Py.round_half_even b) (Py.round_half_even c) * 2))%Q.
Proof.
  unfold Improved.describe. run_script.
  destruct (cluster_centers_ km !! fst lc) as [centre|]; cbn; [|discriminate].
  destruct centre as [|a [|b [|c [|d rest]]]]; cbn; try discriminate.
  intros H. injection H as <-. exists a, b, c. split; reflexivity.
Qed.

Lemma describe_all_Forall2 (km : clustering) (lcs : list (nat * nat))
    (info : list Improved.cluster_entry) :
  Improved.describe_all km lcs = inr info ->
  List.Forall2 (fun lc e => Improved.describe km lc = inr e) lcs info.
Proof.
  revert info. induction lcs as [|lc lcs IH]; intros info; cbn.
  - intros H. injection H as <-. constructor.
  - run_script. destruct (Improved.describe km lc) as [|e] eqn:He; [discriminate|].
    destruct (Improved.describe_all km lcs) as [|es]; [discriminate|].
    intros H. injection H as <-. constructor; [exact He|apply IH; reflexivity].
Qed.

Lemma max_by_le {A : Type} (key : A -> Q) (xs : list A) (best x : A) :
  Py.max_by key xs = Some best -> List.In x xs -> (key x <= key best)%Q.
Proof.
  intros H Hin.
  assert (Hne : xs <> []) by (destruct xs; discriminate).
  destruct (max_by_first_max key xs Hne) as (i & b & Hb & _ & Hmax & _).
  rewrite Hb in H. injection H as <-.
  apply list_elem_of_In, list_elem_of_lookup_1 in Hin. destruct Hin as [j Hj].
  exact (Hmax j x Hj).
Qed.

(** A score between the member count and three times the member count
    bounds the counts the winner can beat. *)
Lemma share_from_scores (n c : nat) (sn sc : Q) :
  (inject_Z (Z.of_nat n) <= sn)%Q -> (sn <= sc)%Q ->
  (sc <= 3 * inject_Z (Z.of_nat c))%Q -> (n <= 3 * c)%nat.
Proof.
  intros H1 H2 H3.
  assert (H : (inject_Z (Z.of_nat n) <= inject_Z (3 * Z.of_nat c))%Q).
  { rewrite inject_Z_mult. change (inject_Z 3) with 3%Q. Lqa.lra. }
  rewrite <- Zle_Qle in H. lia.
Qed.

Lemma improved_score_bounds (km : clustering) (lc : nat * nat)
    (e : Improved.cluster_entry) :
  List.Forall (List.Forall (fun c => 0 <= c)%Q) (cluster_centers_ km) ->
  Improved.describe km lc = inr e ->
  Improved.count e = snd lc /\
  (inject_Z (Z.of_nat (Improved.count e)) <= Improved.score e
   <= 3 * inject_Z (Z.of_nat (Improved.count e)))%Q.
Proof.
  intros Hpos He. apply describe_inr in He. destruct He as (a & b & c & Hc & ->).
  cbn [Improved.count Improved.score]. split; [reflexivity|].
  rewrite List.Forall_forall in Hpos.
  assert (Hcen : List.Forall (fun c => 0 <= c)%Q [a; b; c]).
  { apply Hpos. apply list_elem_of_In. eapply list_elem_of_lookup_2. exact Hc. }
  inversion Hcen as [|? ? Ha Hcen']. inversion Hcen' as [|? ? Hb Hcen''].
  inversion Hcen'' as [|? ? Hcc _]. subst.
  pose proof (improved_saturation_range _ _ _
                (round_half_even_nonneg a Ha) (round_half_even_nonneg b Hb)
                (round_half_even_nonneg c Hcc)) as [Hs0 Hs1].
  set (s := Improved.get_color_saturation _ _ _) in *.
  assert (Hn : (0 <= inject_Z (Z.of_nat (snd lc)))%Q).
  { change 0%Q with (inject_Z 0). rewrite <- Zle_Qle. lia. }
  split; Lqa.nra.
Qed.

Lemma hsv_score_bounds (hsv_pixels : list Hsv.hsv) (filtered_pixels : list rgb)
    (labels : list nat) (l n : nat) :
  List.length labels = List.length hsv_pixels ->
  List.Forall hsv_row hsv_pixels ->
  List.In (l, n) (Np.unique_counts labels) ->
  let e := Hsv.describe hsv_pixels filtered_pixels labels (l, n) in
  (inject_Z (Z.of_nat n) <= Hsv.score e <= 3 * inject_Z (Z.of_nat n))%Q.
Proof.
  intros Hlen Hrows Hin. cbv zeta.
  destruct (describe_ranges hsv_pixels filtered_pixels labels l n Hlen Hrows Hin)
    as [[Hs0 Hs1] _].
  set (e := Hsv.describe hsv_pixels filtered_pixels labels (l, n)) in *.
  change (Hsv.score e)
    with (inject_Z (Z.of_nat n) * (1 + Hsv.saturation e / 50))%Q.
  assert (Hn : (0 <= inject_Z (Z.of_nat n))%Q).
  { change 0%Q with (inject_Z 0). rewrite <- Zle_Qle. lia. }
  assert (Hd : (0 <= Hsv.saturation e / 50 <= 2)%Q).
  { split; [apply Qle_shift_div_l|apply Qle_shift_div_r]; try reflexivity; Lqa.lra. }
  revert Hd. generalize (Hsv.saturation e / 50)%Q. intros d Hd.
  split; Lqa.nra.
Qed.

Lemma Forall2_In_l {A B : Type} (P : A -> B -> Prop) (xs : list A) (ys : list B)
    (x : A) :
  List.Forall2 P xs ys -> List.In x xs -> exists y : B, List.In y ys /\ P x y.
Proof.
  induction 1 as [|x' y' xs ys Hxy _ IH]; cbn; [tauto|].
  intros [->|Hin]; [exists y'; auto|].
  destruct (IH Hin) as (y & Hy & HP). exists y. auto.
Qed.

Lemma Forall2_In_r {A B : Type} (P : A -> B -> Prop) (xs : list A) (ys : list B)
    (y : B) :
  List.Forall2 P xs ys -> List.In y ys -> exists x : A, List.In x xs /\ P x y.
Proof.
  induction 1 as [|x' y' xs ys Hxy _ IH]; cbn; [tauto|].
  intros [->|Hin]; [exists x'; auto|].
  destruct (IH Hin) as (x & Hx & HP). exists x. auto.
Qed.

(** X9.  The saturation weight is bounded: a score lies between the member
    count and three times the member count.  Hence the cluster chosen by
    the filtered script (for centres with non-negative components) and by
    the HSV script (for rows within the HSV ranges and one label per row)
    is one of the enumerated clusters, and no cluster has more than three
    times as many members as the chosen one. *)
Theorem winner_share :
  (forall (km : clustering) (best : Improved.cluster_entry),
     List.Forall (List.Forall (fun c => 0 <= c)%Q) (cluster_centers_ km) ->
     Improved.select km = inr best ->
     (exists l : nat, List.In (l, Improved.count best) (Np.unique_counts (labels_ km))) /\
     forall l n : nat, List.In (l, n) (Np.unique_counts (labels_ km)) ->
                       (n <= 3 * Improved.count best)%nat) /\
  (forall (hsv_pixels : list Hsv.hsv) (filtered_pixels : list rgb)
          (labels : list nat) (best : Hsv.cluster_entry),
     List.length labels = List.length hsv_pixels ->
     List.Forall hsv_row hsv_pixels ->
     Hsv.select hsv_pixels filtered_pixels labels = inr best ->
     (exists l : nat, List.In (l, Hsv.count best) (Np.unique_counts labels)) /\
     forall l n : nat, List.In (l, n) (Np.unique_counts labels) ->
                       (n <= 3 * Hsv.count best)%nat).
Proof.
  split.
  - intros km best Hpos Hsel. unfold Improved.select, Improved.cluster_info in Hsel.
    revert Hsel. run_script.
    destruct (Improved.describe_all km _) as [|info] eqn:Hinfo; [discriminate|].
    destruct (Py.max_by Improved.score info) as [b|] eqn:Hbest; [|discriminate].
    cbn. intros H. injection H as ->.
    apply describe_all_Forall2 in Hinfo.
    pose proof (max_by_In _ _ _ Hbest) as Hin.
    split.
    + destruct (Forall2_In_r _ _ _ _ Hinfo Hin) as (lc & Hlc & He).
      exists (fst lc).
      destruct (improved_score_bounds km lc best Hpos He) as [-> _].
      destruct lc. exact Hlc.
    + intros l n Hln.
      destruct (Forall2_In_l _ _ _ _ Hinfo Hln) as (e & He_in & He).
      destruct (improved_score_bounds km (l, n) e Hpos He) as [Hc [Hlo _]].
      destruct (Forall2_In_r _ _ _ _ Hinfo Hin) as (lc & _ & Hb).
      destruct (improved_score_bounds km lc best Hpos Hb) as [_ [_ Hhi]].
      cbn [snd] in Hc. rewrite Hc in Hlo.
      exact (share_from_scores _ _ _ _ Hlo (max_by_le _ _ _ _ Hbest He_in) Hhi).
  - intros hsv_pixels filtered_pixels labels best Hlen Hrows Hsel.
    unfold Hsv.select in Hsel.
    destruct (Py.max_by Hsv.score _) as [b|] eqn:Hbest; [|discriminate].
    cbn in Hsel. injection Hsel as ->.
    pose proof (max_by_In _ _ _ Hbest) as Hin.
    unfold Hsv.cluster_info in Hin. apply List.in_map_iff in Hin.
    destruct Hin as ([lb nb] & Hb & Hlb).
    assert (Hcount : Hsv.count best = nb) by (rewrite <- Hb; reflexivity).
    split; [exists lb; rewrite Hcount; exact Hlb|].
    intros l n Hln.
    pose proof (hsv_score_bounds hsv_pixels filtered_pixels labels l n
                  Hlen Hrows Hln) as [Hlo _].
    pose proof (hsv_score_bounds hsv_pixels filtered_pixels labels lb nb
                  Hlen Hrows Hlb) as [_ Hhi].
    cbv zeta in Hlo, Hhi. rewrite Hb in Hhi. rewrite Hcount.
    refine (share_from_scores _ _ _ _ Hlo (max_by_le _ _ _ _ Hbest _) Hhi).
    unfold Hsv.cluster_info. apply List.in_map. exact Hln.
Qed.

(** ** Well-formed output of the RGB scripts *)

Lemma rounded_centre_pixel (km : clustering) (i : nat) (a b c : Q) :
  centres_in_cube km ->
  cluster_centers_ km !! i = Some [a; b; c] ->
  rgb_8bit (Py.round_half_even a, Py.round_half_even b, Py.round_half_even c).
Proof.
  intros Hcube Hc. unfold centres_in_cube in Hcube.
  rewrite List.Forall_forall in Hcube.
  assert (Hcen : List.Forall (fun c => 0 <= c <= 255)%Q [a; b; c]).
  { apply Hcube. apply list_elem_of_In. eapply list_elem_of_lookup_2. exact Hc. }
  inversion Hcen as [|? ? Ha Hcen']. inversion Hcen' as [|? ? Hb Hcen''].
  inversion Hcen'' as [|? ? Hcc _]. subst.
  repeat split; apply (round_half_even_between 0 255); assumption.
Qed.

Lemma plain_select_pixel (km : clustering) (c : rgb) :
  centres_in_cube km -> Plain.select km = inr c -> rgb_8bit c.
Proof.
  intros Hcube. unfold Plain.select. run_script.
  destruct (Np.argmax _) as [i|]; cbn; [|discriminate].
  destruct (cluster_centers_ km !! i) as [centre|] eqn:Hc; cbn; [|discriminate].
  destruct centre as [|a [|b [|d [|? ?]]]]; cbn; try discriminate.
  intros H. injection H as <-. exact (rounded_centre_pixel km i a b d Hcube Hc).
Qed.

Lemma improved_select_pixel (km : clustering) (best : Improved.cluster_entry) :
  centres_in_cube km -> Improved.select km = inr best ->
  rgb_8bit (Improved.color best).
Proof.
  intros Hcube. unfold Improved.select, Improved.cluster_info. run_script.
  destruct (Improved.describe_all km _) as [|info] eqn:Hinfo; [discriminate|].
  destruct (Py.max_by Improved.score info) as [b|] eqn:Hbest; [|discriminate].
  cbn. intros H. injection H as ->.
  apply describe_all_Forall2 in Hinfo.
  destruct (Forall2_In_r _ _ _ _ Hinfo (max_by_In _ _ _ Hbest)) as (lc & _ & He).
  apply describe_inr in He. destruct He as (a & b & c & Hc & ->).
  exact (rounded_centre_pixel km (fst lc) a b c Hcube Hc).
Qed.

(** X10.  When the resized matrix holds 8-bit pixels and the centres of
    the fitted model lie in the cube of 8-bit colours, a string returned by
    [dominant_color] of the plain script, and of the filtered script, is
    the seven-character format of an 8-bit colour. *)
Theorem rgb_output_wellformed (E : env) (img : list rgb) (k : nat) (size : nat * nat) :
  List.Forall rgb_8bit (resize E size img) ->
  (forall (n : nat) (pixels : list rgb) (km : clustering),
     List.Forall rgb_8bit pixels ->
     kmeans E n (rgb_features pixels) = inr km -> centres_in_cube km) ->
  match Plain.dominant_color E img k size with
  | inr s => exists c : rgb, rgb_8bit c /\ s = hex_color c /\ String.length s = 7%nat
  | inl _ => True
  end /\
  match Improved.dominant_color E img k size with
  | inr s => exists c : rgb, rgb_8bit c /\ s = hex_color c /\ String.length s = 7%nat
  | inl _ => True
  end.
Proof.
  intros Hpx Hkm. split.
  - unfold Plain.dominant_color. cbv zeta. run_script.
    destruct (kmeans E _ _) as [|km] eqn:Hfit; [exact I|].
    destruct (Plain.select km) as [|c] eqn:Hsel; [exact I|].
    pose proof (plain_select_pixel km c (Hkm _ _ _ Hpx Hfit) Hsel) as Hc.
    exists c. split; [exact Hc|]. split; [reflexivity|apply hex_color_length, Hc].
  - unfold Improved.dominant_color. cbv zeta. run_script.
    assert (Hsample : List.Forall rgb_8bit (Improved.filter_pixels (resize E size img)))
      by (exact (sublist_Forall _ _ _ (filter_pixels_sublist _) Hpx)).
    destruct (kmeans E _ _) as [|km] eqn:Hfit; [exact I|].
    destruct (Improved.select km) as [|best] eqn:Hsel; [exact I|].
    pose proof (improved_select_pixel km best (Hkm _ _ _ Hsample Hfit) Hsel) as Hc.
    exists (Improved.color best).
    split; [exact Hc|]. split; [reflexivity|apply hex_color_length, Hc].
Qed.

Lemma rgb_output_wellformed_witness :
  List.Forall rgb_8bit [red; grey] /\
  Plain.dominant_color (example_env None Stored) [red; grey] 4 (120, 120)%nat =
    inr "#ff0000"%string /\
  match Improved.dominant_color (example_env None Stored) [red; grey] 5 (150, 150)%nat with
  | inr s => exists c : rgb, rgb_8bit c /\ s = hex_color c /\ String.length s = 7%nat
  | inl _ => True
  end.
Proof.
  assert (H : List.Forall rgb_8bit [red; grey]).
  { repeat constructor; cbv; discriminate. }
  assert (Hkm : forall (n : nat) (pixels : list rgb) (km : clustering),
            List.Forall rgb_8bit pixels ->
            kmeans (example_env None Stored) n (rgb_features pixels) = inr km ->
            centres_in_cube km).
  { intros n pixels km Hpx. cbn [kmeans example_env]. unfold one_cluster.
    destruct Hpx as [|[[r g] b] pixels (Hr & Hg & Hb) _]; cbn; [discriminate|].
    intros Heq. injection Heq as <-. unfold centres_in_cube, channel_8bit in *.
    cbn [cluster_centers_].
    repeat constructor;
      try (change 0%Q with (inject_Z 0); rewrite <- Zle_Qle; lia);
      try (change 255%Q with (inject_Z 255); rewrite <- Zle_Qle; lia). }
  split; [exact H|]. split; [vm_compute; reflexivity|].
  exact (proj2 (rgb_output_wellformed (example_env None Stored) [red; grey]
                  5 (150, 150)%nat H Hkm)).
Defined.

(** ** The cache on a miss *)

Lemma fetch_cached_miss (E : env) (url : string) (w : world) :
  cache_dir_ready E w ->
  files w !! filename_for_url E url = None ->
  fetch_cached E url w =
  let w1 := World true (files w) (requests_log w ++ [url]) (stdout w) in
  match http_get E (List.length (requests_log w)) url with
  | inl e => (inl e, w1)
  | inr content =>
      match open_wb E (filename_for_url E url) with
      | Stored =>
          (inr content,
           World true (<[filename_for_url E url := content]> (files w))
                 (requests_log w ++ [url]) (stdout w))
      | Refused e => (inl e, w1)
      | Torn e kept =>
          (inl e,
           World true (<[filename_for_url E url := List.firstn kept content]> (files w))
                 (requests_log w ++ [url]) (stdout w))
      end
  end.
Proof.
  intros Hdir Hmiss. unfold fetch_cached. run_script.
  assert (Hens : ensure_cache E w =
                 (inr tt, World true (files w) (requests_log w) (stdout w))).
  { unfold ensure_cache. destruct Hdir as [Hd|Hd].
    - rewrite Hd. destruct w; cbn in *; subst; reflexivity.
    - destruct (cache_dir_exists w) eqn:Hc.
      + destruct w; cbn in *; subst; reflexivity.
      + rewrite Hd. reflexivity. }
  rewrite Hens. unfold path_exists. cbn [files].
  rewrite bool_decide_eq_false_2 by (rewrite Hmiss; intros [? ?]; discriminate).
  unfold requests_get. cbn [requests_log files cache_dir_exists stdout].
  destruct (http_get E _ url) as [e|content]; [reflexivity|].
  unfold write_file. cbn [requests_log files cache_dir_exists stdout].
  destruct (open_wb E _) as [|e|e kept]; [|reflexivity|reflexivity].
  unfold read_file. cbn [files]. rewrite lookup_insert_eq. reflexivity.
Qed.

Lemma download_image_fetch (E : env) (url : string) (w w' : world) (raw : bytes) :
  fetch_cached E url w = (inr raw, w') ->
  Plain.download_image E url w =
    (img ← image_open E raw ; inr (Pillow.convert_RGB img), w') /\
  Improved.download_image E url w =
    (img ← image_open E raw ; inr (composite_on_white img), w') /\
  Hsv.download_image E url w =
    (img ← image_open E raw ; inr (composite_on_white img), w').
Proof.
  intros H.
  unfold Plain.download_image, Improved.download_image, Hsv.download_image.
  run_script. rewrite H. destruct (image_open E raw); auto.
Qed.

(** X11.  On a cache miss with a reachable server and a writable cache,
    [download_image] sends exactly one request, stores the payload under
    the cache path of the URL, creates the cache directory if needed, and
    decodes the payload it has just stored; nothing is printed. *)
Theorem cache_miss_stores (E : env) (url : string) (w : world) (content : bytes) :
  cache_dir_ready E w ->
  files w !! filename_for_url E url = None ->
  http_get E (List.length (requests_log w)) url = inr content ->
  open_wb E (filename_for_url E url) = Stored ->
  let w' := World true (<[filename_for_url E url := content]> (files w))
                  (requests_log w ++ [url]) (stdout w) in
  fetch_cached E url w = (inr content, w') /\
  Plain.download_image E url w =
    (img ← image_open E content ; inr (Pillow.convert_RGB img), w') /\
  Improved.download_image E url w =
    (img ← image_open E content ; inr (composite_on_white img), w') /\
  Hsv.download_image E url w =
    (img ← image_open E content ; inr (composite_on_white img), w').
Proof.
  intros Hdir Hmiss Hget Hwr. cbv zeta.
  assert (H : fetch_cached E url w =
              (inr content,
               World true (<[filename_for_url E url := content]> (files w))
                     (requests_log w ++ [url]) (stdout w))).
  { rewrite (fetch_cached_miss E url w Hdir Hmiss). cbv zeta.
    rewrite Hget, Hwr. reflexivity. }
  split; [exact H|]. apply download_image_fetch, H.
Qed.

Lemma cache_miss_stores_witness :
  cache_dir_ready (example_env None Stored) fresh_world /\
  fetch_cached (example_env None Stored) rice_url fresh_world =
  (inr png_magic, World true (<[rice_path := png_magic]> ∅) [rice_url] []).
Proof.
  assert (Hdir : cache_dir_ready (example_env None Stored) fresh_world)
    by (right; reflexivity).
  split; [exact Hdir|].
  exact (proj1 (cache_miss_stores (example_env None Stored) rice_url fresh_world
                  png_magic Hdir eq_refl eq_refl eq_refl)).
Defined.

(** X12.  When the request fails on a cache miss, [download_image] raises
    the error of the request in all three scripts, no file is written, and
    the failure is not remembered: the next call for the same URL sends a
    request again. *)
Theorem network_failure_not_cached (E : env) (url : string) (w : world) (e : exn) :
  cache_dir_ready E w ->
  files w !! filename_for_url E url = None ->
  http_get E (List.length (requests_log w)) url = inl e ->
  let w' := World true (files w) (requests_log w ++ [url]) (stdout w) in
  Plain.download_image E url w = (inl e, w') /\
  Improved.download_image E url w = (inl e, w') /\
  Hsv.download_image E url w = (inl e, w') /\
  requests_log (snd (fetch_cached E url w')) = requests_log w' ++ [url].
Proof.
  intros Hdir Hmiss Hget. cbv zeta.
  assert (H : fetch_cached E url w =
              (inl e, World true (files w) (requests_log w ++ [url]) (stdout w))).
  { rewrite (fetch_cached_miss E url w Hdir Hmiss). cbv zeta.
    rewrite Hget. reflexivity. }
  destruct (download_raises E url w _ e H) as (H1 & H2 & H3).
  repeat (split; [assumption|]).
  rewrite fetch_cached_miss; [|left; reflexivity|exact Hmiss]. cbv zeta.
  cbn [requests_log files stdout].
  destruct (http_get E (List.length (requests_log w ++ [url])) url); [reflexivity|].
  destruct (open_wb E _); reflexivity.
Qed.

Lemma network_failure_not_cached_witness :
  cache_dir_ready offline_env fresh_world /\
  Plain.download_image offline_env rice_url fresh_world =
    (inl ConnectionError, World true ∅ [rice_url] []).
Proof.
  assert (Hdir : cache_dir_ready offline_env fresh_world) by (right; reflexivity).
  split; [exact Hdir|].
  exact (proj1 (network_failure_not_cached offline_env rice_url fresh_world
                  ConnectionError Hdir eq_refl eq_refl)).
Defined.

(** The body of the [try] statement on a URL whose cached bytes do not
    decode. *)
Lemma attempt_undecodable (E : env) (url : string) (w w' : world) (raw : bytes)
    (e : exn) (d : gmap string Pandas.cell)
    (extract : list rgb -> exn + string) :
  fetch_cached E url w = (inr raw, w') ->
  image_open E raw = inl e ->
  attempt (Plain.download_image E) extract d url w = (inl e, w') /\
  attempt (Improved.download_image E) extract d url w = (inl e, w') /\
  attempt (Hsv.download_image E) extract d url w = (inl e, w').
Proof.
  intros Hfetch Hopen.
  destruct (download_image_fetch E url w w' raw Hfetch) as (H1 & H2 & H3).
  rewrite Hopen in H1, H2, H3.
  rewrite !attempt_cases, H1, H2, H3. auto.
Qed.

(** X13.  Two failures are remembered by the cache.  When the write of the
    payload breaks off, the call raises but the truncated file stays, and
    the next call returns the truncated bytes without a request.  When the
    cached bytes do not decode (Pillow reports it at [Image.open] or,
    reading the pixel data lazily, at the first use of the pixels: in
    either case inside the [try] block of the loop), the iteration for the
    URL prints a warning with the decoder's error and stores [None], and
    so does the iteration of every later run, from the cache, with no
    request and no change to the files. *)
Theorem cache_poisoning (E : env) (url : string) :
  (forall (w : world) (content : bytes) (e : exn) (kept : nat),
     cache_dir_ready E w ->
     files w !! filename_for_url E url = None ->
     http_get E (List.length (requests_log w)) url = inr content ->
     open_wb E (filename_for_url E url) = Torn e kept ->
     exists w' : world,
       fetch_cached E url w = (inl e, w') /\
       fetch_cached E url w' = (inr (List.firstn kept content), w')) /\
  (forall (w w' : world) (raw : bytes) (e : exn),
     fetch_cached E url w = (inr raw, w') ->
     image_open E raw = inl e ->
     is_Exception e = true ->
     let poisoned (download : string -> M (list rgb))
                  (extract : list rgb -> exn + string) : Prop :=
       forall d d' : gmap string Pandas.cell,
         process_url download extract d url w =
           (inr (<[url := None]> d), warned url e w') /\
         process_url download extract d' url (warned url e w') =
           (inr (<[url := None]> d'), warned url e (warned url e w')) in
     poisoned (Plain.download_image E)
       (fun img => Plain.dominant_color E img Plain.default_k Plain.default_resize) /\
     poisoned (Improved.download_image E)
       (fun img => Improved.dominant_color E img Improved.default_k
                     Improved.default_resize) /\
     poisoned (Hsv.download_image E)
       (fun img => Hsv.dominant_color_hsv E img Hsv.default_k Hsv.default_resize)).
Proof.
  split.
  - intros w content e kept Hdir Hmiss Hget Hwr.
    eexists. split.
    + rewrite (fetch_cached_miss E url w Hdir Hmiss). cbv zeta.
      rewrite Hget, Hwr. reflexivity.
    + apply fetch_cached_hit; [reflexivity|]. cbn [files].
      apply lookup_insert_eq.
  - intros w w' raw e Hfetch Hopen He. cbv zeta.
    destruct (fetch_cached_success E url w w' raw Hfetch) as [Hdir Hfile].
    assert (Hagain : fetch_cached E url (warned url e w') =
                     (inr raw, warned url e w'))
      by (apply fetch_cached_hit; [exact Hdir|exact Hfile]).
    split; [|split]; intros d d'; rewrite !process_url_cases.
    + rewrite (proj1 (attempt_undecodable E url w w' raw e d _ Hfetch Hopen)).
      rewrite (proj1 (attempt_undecodable E url _ _ raw e d' _ Hagain Hopen)).
      rewrite He. auto.
    + rewrite (proj1 (proj2 (attempt_undecodable E url w w' raw e d _ Hfetch Hopen))).
      rewrite (proj1 (proj2 (attempt_undecodable E url _ _ raw e d' _ Hagain Hopen))).
      rewrite He. auto.
    + rewrite (proj2 (proj2 (attempt_undecodable E url w w' raw e d _ Hfetch Hopen))).
      rewrite (proj2 (proj2 (attempt_undecodable E url _ _ raw e d' _ Hagain Hopen))).
      rewrite He. auto.
Qed.

Lemma cache_poisoning_witness :
  fetch_cached corrupt_env rice_url fresh_world =
    (inr png_magic, World true {[ rice_path := png_magic ]} [rice_url] []) /\
  process_url (Hsv.download_image corrupt_env)
    (fun img => Hsv.dominant_color_hsv corrupt_env img Hsv.default_k Hsv.default_resize)
    ∅ rice_url fresh_world =
  (inr {[ rice_url := None ]},
   World true {[ rice_path := png_magic ]} [rice_url]
         [(rice_url, UnidentifiedImageError)]).
Proof.
  assert (Hfetch : fetch_cached corrupt_env rice_url fresh_world =
            (inr png_magic, World true {[ rice_path := png_magic ]} [rice_url] []))
    by (vm_compute; reflexivity).
  split; [exact Hfetch|].
  exact (proj1 (proj2 (proj2 (proj2 (cache_poisoning corrupt_env rice_url)
                                 fresh_world _ png_magic UnidentifiedImageError
                                 Hfetch eq_refl eq_refl)) ∅ ∅)).
Defined.

(** ** Requests of a whole run *)

Lemma fetch_cached_requests (E : env) (url : string) (w : world) :
  requests_at_most E url w (snd (fetch_cached E url w)).
Proof.
  unfold requests_at_most, fetch_cached, ensure_cache, path_exists, requests_get,
    write_file, read_file.
  run_script.
  destruct (files w !! filename_for_url E url) as [content|] eqn:Hfile.
  - left.
    destruct (cache_dir_exists w); [|destruct (makedirs_fault E)]; cbn;
      rewrite ?Hfile; cbn; rewrite ?Hfile; reflexivity.
  - destruct (cache_dir_exists w); [|destruct (makedirs_fault E)]; cbn;
      try (left; reflexivity);
      (rewrite Hfile; cbn; right; split; [reflexivity|];
       destruct (http_get E _ url); cbn; [reflexivity|];
       destruct (open_wb E _); cbn; rewrite ?lookup_insert_eq; reflexivity).
Qed.

Lemma download_image_world (E : env) (url : string) (w : world) :
  snd (Plain.download_image E url w) = snd (fetch_cached E url w) /\
  snd (Improved.download_image E url w) = snd (fetch_cached E url w) /\
  snd (Hsv.download_image E url w) = snd (fetch_cached E url w).
Proof.
  unfold Plain.download_image, Improved.download_image, Hsv.download_image.
  run_script.
  destruct (fetch_cached E url w) as [[e|raw] w']; cbn; [auto|].
  destruct (image_open E raw); auto.
Qed.

Lemma uncached_weaken (E : env) (w w1 : world) (urls : list string) :
  (forall p b, files w !! p = Some b -> files w1 !! p = Some b) ->
  uncached E w1 urls `sublist_of` uncached E w urls.
Proof.
  intros Hkeep. unfold uncached.
  induction urls as [|u urls IH]; cbn [List.filter]; [constructor|].
  destruct (files w !! filename_for_url E u) as [b|] eqn:Hw.
  - rewrite (Hkeep _ _ Hw).
    rewrite !bool_decide_eq_false_2 by discriminate. exact IH.
  - rewrite (bool_decide_eq_true_2 (None = None)) by reflexivity.
    destruct (bool_decide (files w1 !! filename_for_url E u = None));
      [apply sublist_skip|apply sublist_cons]; exact IH.
Qed.

Section BatchRun.

Variable E : env.
Variable download : string -> M (list rgb).
Variable extract : list rgb -> exn + string.

Lemma process_url_world (d : gmap string Pandas.cell) (url : string) (w : world) :
  let w1 := snd (download url w) in
  let w' := snd (process_url download extract d url w) in
  cache_dir_exists w' = cache_dir_exists w1 /\ files w' = files w1 /\
  requests_log w' = requests_log w1 /\
  (stdout w' = stdout w1 \/ exists e, stdout w' = stdout w1 ++ [(url, e)]).
Proof.
  cbv zeta. rewrite process_url_cases, attempt_cases.
  destruct (download url w) as [[e|img] w1]; cbn [snd].
  - destruct (is_Exception e); cbn; auto 6. repeat split; eauto.
  - destruct (extract img) as [e|c]; cbn; auto.
    destruct (is_Exception e); cbn; auto 6. repeat split; eauto.
Qed.

Hypothesis download_requests :
  forall (url : string) (w : world),
    requests_at_most E url w (snd (download url w)).
Hypothesis download_keeps_files :
  forall (url : string) (w : world) (p : string) (b : bytes),
    files w !! p = Some b -> files (snd (download url w)) !! p = Some b.

Lemma process_all_requests (urls : list string) (d : gmap string Pandas.cell)
    (w : world) :
  exists reqs : list string,
    requests_log (snd (process_all download extract urls d w)) =
      requests_log w ++ reqs /\
    reqs `sublist_of` uncached E w urls.
Proof.
  revert d w. induction urls as [|url urls IH]; intros d w.
  - exists []. cbn. rewrite List.app_nil_r. split; reflexivity.
  - rewrite process_all_cons.
    pose proof (process_url_world d url w) as (_ & Hfiles & Hlog & _).
    cbv zeta in Hfiles, Hlog.
    pose proof (download_requests url w) as Hreq. unfold requests_at_most in Hreq.
    pose proof (download_keeps_files url w) as Hkeep.
    rewrite <- Hlog in Hreq. rewrite <- Hfiles in Hkeep.
    unfold uncached. cbn [List.filter]. fold (uncached E w urls).
    destruct (process_url download extract d url w) as [[e|d1] w1]; cbn [snd] in *.
    + destruct Hreq as [Hreq|[Hmiss Hreq]]; rewrite Hreq.
      * exists []. rewrite List.app_nil_r. split; [reflexivity|apply sublist_nil_l].
      * exists [url]. split; [reflexivity|].
        rewrite (bool_decide_eq_true_2 _ Hmiss).
        apply sublist_skip, sublist_nil_l.
    + destruct (IH d1 w1) as (reqs & Hreqs & Hsub). rewrite Hreqs.
      assert (Hsub' : reqs `sublist_of` uncached E w urls)
        by (etransitivity; [exact Hsub|apply uncached_weaken, Hkeep]).
      destruct Hreq as [Hreq|[Hmiss Hreq]]; rewrite Hreq.
      * exists reqs. split; [reflexivity|].
        destruct (bool_decide _); [apply sublist_cons|]; exact Hsub'.
      * exists (url :: reqs). rewrite <- List.app_assoc.
        split; [reflexivity|].
        rewrite (bool_decide_eq_true_2 _ Hmiss). apply sublist_skip, Hsub'.
Qed.

Lemma main_with_requests (df : Pandas.DataFrame) (w : world)
    (image_url : list Pandas.cell) :
  Pandas.column "image_url" df = inr image_url ->
  exists reqs : list string,
    requests_log (snd (main_with download extract df w)) = requests_log w ++ reqs /\
    reqs `sublist_of` uncached E w (Pandas.unique (Pandas.dropna image_url)) /\
    List.NoDup reqs.
Proof.
  intros Hcol. unfold main_with. run_script. rewrite Hcol.
  destruct (process_all_requests (Pandas.unique (Pandas.dropna image_url)) ∅ w)
    as (reqs & Hreqs & Hsub).
  exists reqs.
  split.
  - destruct (process_all download extract _ ∅ w) as [[e|d] w']; exact Hreqs.
  - split; [exact Hsub|].
    apply NoDup_ListNoDup. eapply sublist_NoDup; [|exact Hsub].
    eapply sublist_NoDup; [|apply filter_sublist].
    apply NoDup_ListNoDup, unique_NoDup.
Qed.

End BatchRun.

(** X14.  Whatever happens during a run, and also when it is interrupted,
    the requests it adds to the log are a sub-sequence of the distinct
    non-missing URLs of the table that had no cache file when the run
    started, in order of first appearance: at most one request per
    distinct URL, and none for a URL that is cached or not in the table. *)
Theorem batch_requests (E : env) (df : Pandas.DataFrame) (w : world)
    (image_url : list Pandas.cell) :
  Pandas.column "image_url" df = inr image_url ->
  let asked (w' : world) : Prop :=
    exists reqs : list string,
      requests_log w' = requests_log w ++ reqs /\
      reqs `sublist_of` uncached E w (Pandas.unique (Pandas.dropna image_url)) /\
      List.NoDup reqs in
  asked (snd (Plain.main E df w)) /\
  asked (snd (Improved.main E df w)) /\
  asked (snd (Hsv.main E df w)).
Proof.
  intros Hcol. cbv zeta.
  split; [|split]; apply main_with_requests; try exact Hcol;
    try (intros url w0;
         destruct (download_image_world E url w0) as (H1 & H2 & H3);
         rewrite ?H1, ?H2, ?H3; apply fetch_cached_requests);
    intros url w0 p b Hp;
    destruct (download_image_world E url w0) as (H1 & H2 & H3);
    rewrite ?H1, ?H2, ?H3; apply fetch_cached_keeps_files, Hp.
Qed.

Lemma batch_requests_witness :
  Pandas.column "image_url" example_frame = inr [Some rice_url; None; Some rice_url] /\
  exists reqs : list string,
    requests_log (snd (Improved.main (example_env None Stored) example_frame fresh_world))
      = requests_log fresh_world ++ reqs /\
    reqs `sublist_of` [rice_url] /\
    List.NoDup reqs.
Proof.
  split; [reflexivity|].
  exact (proj1 (proj2 (batch_requests (example_env None Stored) example_frame
                         fresh_world _ eq_refl))).
Defined.

(** ** A run on a warm cache *)

Lemma dropna_In (u : string) (s : list Pandas.cell) :
  List.In u (Pandas.dropna s) <-> List.In (Some u) s.
Proof.
  unfold Pandas.dropna. rewrite <- !list_elem_of_In, list_elem_of_omap.
  split.
  - intros (c & Hc & Heq). subst c. exact Hc.
  - intros H. exists (Some u). auto.
Qed.

Lemma unique_In (u : string) (xs : list string) :
  List.In u (Pandas.unique xs) <-> List.In u xs.
Proof.
  unfold Pandas.unique. rewrite (proj2 (unique_from_spec [] xs) u). cbn. tauto.
Qed.

Section WarmRun.

Variable E : env.
Variable download : string -> M (list rgb).
Variable extract : list rgb -> exn + string.

Hypothesis download_hit :
  forall (url : string) (w : world),
    cache_dir_exists w = true ->
    is_Some (files w !! filename_for_url E url) ->
    snd (download url w) = w.

Lemma process_all_warm (urls : list string) (d : gmap string Pandas.cell)
    (w : world) :
  cache_dir_exists w = true ->
  (forall u, List.In u urls -> is_Some (files w !! filename_for_url E u)) ->
  let w' := snd (process_all download extract urls d w) in
  cache_dir_exists w' = true /\ files w' = files w /\
  requests_log w' = requests_log w.
Proof.
  revert d w. induction urls as [|url urls IH]; intros d w Hdir Hfiles; cbv zeta.
  - cbn. auto.
  - rewrite process_all_cons.
    pose proof (process_url_world download extract d url w) as (H1 & H2 & H3 & _).
    cbv zeta in H1, H2, H3.
    rewrite (download_hit url w Hdir (Hfiles url (or_introl eq_refl))) in H1, H2, H3.
    destruct (process_url download extract d url w) as [[e|d1] w1]; cbn [snd] in *.
    + rewrite H1, H2, H3. auto.
    + destruct (IH d1 w1) as (H4 & H5 & H6).
      * rewrite H1. exact Hdir.
      * intros u Hu. rewrite H2. apply Hfiles. right. exact Hu.
      * cbv zeta in H4, H5, H6. rewrite H4, H5, H6. auto.
Qed.

Lemma main_with_warm (df : Pandas.DataFrame) (w : world)
    (image_url : list Pandas.cell) :
  Pandas.column "image_url" df = inr image_url ->
  cache_dir_exists w = true ->
  (forall u, List.In (Some u) image_url ->
             is_Some (files w !! filename_for_url E u)) ->
  requests_log (snd (main_with download extract df w)) = requests_log w /\
  files (snd (main_with download extract df w)) = files w.
Proof.
  intros Hcol Hdir Hfiles. unfold main_with. run_script. rewrite Hcol.
  destruct (process_all_warm (Pandas.unique (Pandas.dropna image_url)) ∅ w Hdir)
    as (_ & H2 & H3).
  { intros u Hu. apply Hfiles, dropna_In, unique_In, Hu. }
  cbv zeta in H2, H3.
  destruct (process_all download extract _ ∅ w) as [[e|d] w']; cbn [snd] in *; auto.
Qed.

End WarmRun.

Lemma download_image_hit (E : env) (url : string) (w : world) :
  cache_dir_exists w = true ->
  is_Some (files w !! filename_for_url E url) ->
  snd (Plain.download_image E url w) = w /\
  snd (Improved.download_image E url w) = w /\
  snd (Hsv.download_image E url w) = w.
Proof.
  intros Hdir [content Hfile].
  destruct (download_image_world E url w) as (H1 & H2 & H3).
  rewrite H1, H2, H3, (fetch_cached_hit E url w content Hdir Hfile). auto.
Qed.

(** X15.  When the cache directory exists and holds a file for every URL
    of the table, a run of any of the three scripts sends no request and
    leaves the cache files as they were. *)
Theorem warm_cache_offline (E : env) (df : Pandas.DataFrame) (w : world)
    (image_url : list Pandas.cell) :
  Pandas.column "image_url" df = inr image_url ->
  cache_dir_exists w = true ->
  (forall u : string, List.In (Some u) image_url ->
                      is_Some (files w !! filename_for_url E u)) ->
  let untouched (w' : world) : Prop :=
    requests_log w' = requests_log w /\ files w' = files w in
  untouched (snd (Plain.main E df w)) /\
  untouched (snd (Improved.main E df w)) /\
  untouched (snd (Hsv.main E df w)).
Proof.
  intros Hcol Hdir Hfiles. cbv zeta.
  split; [|split]; apply (main_with_warm E) with (image_url := image_url);
    try assumption; intros url w0 Hd Hf;
    apply (download_image_hit E url w0 Hd Hf).
Qed.

Lemma warm_cache_offline_witness :
  cache_dir_exists warm_world = true /\
  requests_log (snd (Hsv.main (example_env None Stored) example_frame warm_world)) = [].
Proof.
  split; [reflexivity|].
  refine (proj1 (proj2 (proj2 (warm_cache_offline (example_env None Stored)
                                 example_frame warm_world _ eq_refl eq_refl _)))).
  intros u [H|[H|[H|[]]]]; try discriminate.
  - injection H as <-. exists png_magic. vm_compute. reflexivity.
  - injection H as <-. exists png_magic. vm_compute. reflexivity.
Defined.

(** ** Warnings *)

Lemma fetch_cached_stdout (E : env) (url : string) (w : world) :
  stdout (snd (fetch_cached E url w)) = stdout w.
Proof.
  unfold fetch_cached, ensure_cache, path_exists, requests_get, write_file, read_file.
  run_script.
  destruct (cache_dir_exists w); [|destruct (makedirs_fault E)]; cbn;
    try reflexivity;
    (destruct (bool_decide _); cbn;
     [destruct (files w !! _); reflexivity|];
     destruct (http_get E _ url); cbn; [reflexivity|];
     destruct (open_wb E _); cbn; rewrite ?lookup_insert_eq; reflexivity).
Qed.

Section Warnings.

Variable download : string -> M (list rgb).
Variable extract : list rgb -> exn + string.

Hypothesis download_stdout :
  forall (url : string) (w : world), stdout (snd (download url w)) = stdout w.

Lemma process_url_outcome (d d' : gmap string Pandas.cell) (url : string)
    (w w' : world) :
  process_url download extract d url w = (inr d', w') ->
  (d' !! url = Some None /\ exists e, stdout w' = stdout w ++ [(url, e)]) \/
  ((exists c, d' !! url = Some (Some c)) /\ stdout w' = stdout w).
Proof.
  rewrite process_url_cases, attempt_cases.
  pose proof (download_stdout url w) as Hout.
  destruct (download url w) as [[e|img] w1]; cbn [snd] in Hout.
  - destruct (is_Exception e); [|discriminate].
    intros H. injection H as <- <-. left.
    rewrite lookup_insert_eq. split; [reflexivity|].
    exists e. cbn. rewrite Hout. reflexivity.
  - destruct (extract img) as [e|c].
    + destruct (is_Exception e); [|discriminate].
      intros H. injection H as <- <-. left.
      rewrite lookup_insert_eq. split; [reflexivity|].
      exists e. cbn. rewrite Hout. reflexivity.
    + intros H. injection H as <- <-. right.
      rewrite lookup_insert_eq. split; [exists c; reflexivity|exact Hout].
Qed.

Lemma process_all_warnings (urls : list string) (d d' : gmap string Pandas.cell)
    (w w' : world) :
  List.NoDup urls ->
  process_all download extract urls d w = (inr d', w') ->
  exists ws : list (string * exn),
    stdout w' = stdout w ++ ws /\ List.map fst ws = failed_urls d' urls.
Proof.
  intros Hnd. revert d w. induction Hnd as [|url urls Hnotin Hnd IH]; intros d w.
  - cbn. intros H. injection H as <- <-. exists []. rewrite List.app_nil_r. auto.
  - rewrite process_all_cons.
    destruct (process_url download extract d url w) as [[e|d1] w1] eqn:Hstep;
      [discriminate|].
    intros Hrest. destruct (IH d1 w1 Hrest) as (ws & Hws & Hfst).
    destruct (process_all_lookup download extract urls d1 d' w1 w' Hrest) as [Hkeep _].
    specialize (Hkeep url Hnotin).
    unfold failed_urls in *. cbn [List.filter].
    destruct (process_url_outcome d d1 url w w1 Hstep) as [[Hd (e & Hout)]|[[c Hd] Hout]].
    + assert (Hb : bool_decide (d' !! url = Some None) = true)
        by (apply bool_decide_eq_true_2; etransitivity; [exact Hkeep|exact Hd]).
      rewrite Hb.
      exists ((url, e) :: ws). rewrite Hws, Hout, <- List.app_assoc.
      split; [reflexivity|]. cbn. rewrite Hfst. reflexivity.
    + assert (Hb : bool_decide (d' !! url = Some None) = false)
        by (apply bool_decide_eq_false_2; intros Hn;
            assert (Some (Some c) = Some None :> option Pandas.cell)
              by (etransitivity; [symmetry; exact Hd|];
                  etransitivity; [symmetry; exact Hkeep|exact Hn]);
            discriminate).
      rewrite Hb.
      exists ws. rewrite Hws, Hout. auto.
Qed.

Lemma attempt_stdout (d : gmap string Pandas.cell) (url : string) (w : world) :
  stdout (snd (attempt download extract d url w)) = stdout w.
Proof.
  rewrite attempt_cases. pose proof (download_stdout url w) as Hout.
  destruct (download url w) as [[e|img] w1]; cbn [snd] in *; [exact Hout|].
  destruct (extract img); exact Hout.
Qed.

(** The iteration for [u], which follows those for [pre]: what it leaves
    in the dictionary and on the output of a run that goes on to the end. *)
Lemma process_all_turn (pre post : list string) (u : string)
    (d0 d : gmap string Pandas.cell) (w w' : world) :
  List.NoDup (pre ++ u :: post) ->
  process_all download extract (pre ++ u :: post) d0 w = (inr d, w') ->
  exists (d1 : gmap string Pandas.cell) (w1 : world)
         (ws1 ws2 : list (string * exn)),
    process_all download extract pre d0 w = (inr d1, w1) /\
    stdout w1 = stdout w ++ ws1 /\
    match attempt download extract d1 u w1 with
    | (inl e, _) =>
        d !! u = Some None /\ stdout w' = stdout w ++ ws1 ++ (u, e) :: ws2
    | (inr _, _) =>
        (exists c, d !! u = Some (Some c)) /\ stdout w' = stdout w ++ ws1 ++ ws2
    end.
Proof.
  intros Hnd Hrun.
  rewrite process_all_app in Hrun.
  destruct (process_all download extract pre d0 w) as [[e|d1] w1] eqn:Hpre;
    [discriminate|].
  rewrite process_all_cons in Hrun.
  destruct (process_url download extract d1 u w1) as [[e|d2] w2] eqn:Hu;
    [discriminate|].
  assert (Hnotin : ~ List.In u post).
  { apply List.NoDup_remove_2 in Hnd. intros Hin. apply Hnd.
    apply List.in_or_app. right. exact Hin. }
  assert (Hnd_pre : List.NoDup pre).
  { apply List.NoDup_remove_1 in Hnd. eapply List.NoDup_app_remove_r. exact Hnd. }
  assert (Hnd_post : List.NoDup post).
  { apply List.NoDup_remove_1 in Hnd. eapply List.NoDup_app_remove_l. exact Hnd. }
  destruct (process_all_warnings pre d0 d1 w w1 Hnd_pre Hpre) as (ws1 & Hws1 & _).
  destruct (process_all_warnings post d2 d w2 w' Hnd_post Hrun) as (ws2 & Hws2 & _).
  destruct (process_all_lookup download extract post d2 d w2 w' Hrun) as [Hkeep _].
  specialize (Hkeep u Hnotin).
  exists d1, w1, ws1, ws2. split; [reflexivity|]. split; [exact Hws1|].
  rewrite process_url_cases in Hu.
  pose proof (attempt_stdout d1 u w1) as Hout.
  destruct (attempt download extract d1 u w1) as [[e|d3] w3] eqn:Hatt;
    cbn [snd] in Hout.
  - destruct (is_Exception e); [|discriminate].
    injection Hu as <- <-. split.
    + etransitivity; [exact Hkeep|]. apply lookup_insert_eq.
    + rewrite Hws2. cbn [warned stdout]. rewrite Hout, Hws1.
      rewrite <- !List.app_assoc. reflexivity.
  - injection Hu as <- <-.
    rewrite attempt_cases in Hatt.
    destruct (download u w1) as [[e|img] w4]; [discriminate|].
    destruct (extract img) as [e|c]; [discriminate|].
    injection Hatt as <- <-. split.
    + exists c. etransitivity; [exact Hkeep|]. apply lookup_insert_eq.
    + rewrite Hws2, Hout, Hws1, <- List.app_assoc. reflexivity.
Qed.

Lemma main_with_reported (df : Pandas.DataFrame) (w : world)
    (image_url : list Pandas.cell) :
  Pandas.column "image_url" df = inr image_url ->
  let urls := Pandas.unique (Pandas.dropna image_url) in
  match main_with download extract df w with
  | (inr out, w') =>
      exists (d : gmap string Pandas.cell) (ws : list (string * exn)),
        process_all download extract urls ∅ w = (inr d, w') /\
        out = Pandas.set_column "dominant_color" (Pandas.series_map d image_url) df /\
        stdout w' = stdout w ++ ws /\
        List.map fst ws = failed_urls d urls /\
        (forall (pre post : list string) (u : string),
            urls = pre ++ u :: post ->
            exists (d1 : gmap string Pandas.cell) (w1 : world),
              process_all download extract pre ∅ w = (inr d1, w1) /\
              match attempt download extract d1 u w1 with
              | (inl e, _) => d !! u = Some None /\ List.In (u, e) ws
              | (inr _, _) =>
                  (exists c, d !! u = Some (Some c)) /\
                  ~ List.In u (List.map fst ws)
              end)
  | (inl _, _) => True
  end.
Proof.
  intros Hcol urls. unfold main_with. run_script. rewrite Hcol. fold urls.
  destruct (process_all download extract urls ∅ w) as [[e|d] w'] eqn:Hrun; [exact I|].
  pose proof (unique_NoDup (Pandas.dropna image_url)) as Hnd. fold urls in Hnd.
  destruct (process_all_warnings urls ∅ d w w' Hnd Hrun) as (ws & Hws & Hfst).
  exists d, ws. split; [reflexivity|]. split; [reflexivity|].
  split; [exact Hws|]. split; [exact Hfst|].
  intros pre post u Hsplit.
  rewrite Hsplit in Hnd, Hrun.
  destruct (process_all_turn pre post u ∅ d w w' Hnd Hrun)
    as (d1 & w1 & ws1 & ws2 & Hpre & Hws1 & Hturn).
  exists d1, w1. split; [exact Hpre|].
  destruct (attempt download extract d1 u w1) as [[e|d2] w2].
  - destruct Hturn as [Hd Hout]. split; [exact Hd|].
    rewrite Hws in Hout. apply List.app_inv_head in Hout. rewrite Hout.
    apply List.in_or_app. right. left. reflexivity.
  - destruct Hturn as [[c Hd] _]. split; [exists c; exact Hd|].
    rewrite Hfst. unfold failed_urls. rewrite List.filter_In.
    intros [_ Hb]. apply bool_decide_eq_true_1 in Hb.
    assert (Some (Some c) = Some None :> option Pandas.cell)
      by (etransitivity; [symmetry; exact Hd|exact Hb]).
    discriminate.
Qed.

End Warnings.

(** X16.  In a run that ends normally every failed URL gets its warning,
    and only failed URLs do.  The dictionary [d] is the one the loop over
    the distinct URLs builds, and the output column is the input column
    mapped through it.  For each distinct URL [u], taken when its turn
    comes (after the URLs [pre] before it): if the [try] block raises [e],
    the warning [(u, e)] is among those printed and [d] holds [None] for
    [u]; if it returns, [d] holds a colour for [u] and no warning names
    [u].  The warnings printed name the failed URLs, each once, in the
    order of the loop. *)
Theorem warnings_name_failures (E : env) (df : Pandas.DataFrame) (w : world)
    (image_url : list Pandas.cell) :
  Pandas.column "image_url" df = inr image_url ->
  let reported (download : string -> M (list rgb))
               (extract : list rgb -> exn + string)
               (run : (exn + Pandas.DataFrame) * world) : Prop :=
    match run with
    | (inr out, w') =>
        exists (d : gmap string Pandas.cell) (ws : list (string * exn)),
          process_all download extract
            (Pandas.unique (Pandas.dropna image_url)) ∅ w = (inr d, w') /\
          out = Pandas.set_column "dominant_color"
                  (Pandas.series_map d image_url) df /\
          stdout w' = stdout w ++ ws /\
          List.map fst ws
          = failed_urls d (Pandas.unique (Pandas.dropna image_url)) /\
          (forall (pre post : list string) (u : string),
              Pandas.unique (Pandas.dropna image_url) = pre ++ u :: post ->
              exists (d1 : gmap string Pandas.cell) (w1 : world),
                process_all download extract pre ∅ w = (inr d1, w1) /\
                match attempt download extract d1 u w1 with
                | (inl e, _) => d !! u = Some None /\ List.In (u, e) ws
                | (inr _, _) =>
                    (exists c, d !! u = Some (Some c)) /\
                    ~ List.In u (List.map fst ws)
                end)
    | (inl _, _) => True
    end in
  reported (Plain.download_image E)
           (fun img => Plain.dominant_color E img Plain.default_k
                         Plain.default_resize)
           (Plain.main E df w) /\
  reported (Improved.download_image E)
           (fun img => Improved.dominant_color E img Improved.default_k
                         Improved.default_resize)
           (Improved.main E df w) /\
  reported (Hsv.download_image E)
           (fun img => Hsv.dominant_color_hsv E img Hsv.default_k
                         Hsv.default_resize)
           (Hsv.main E df w).
Proof.
  intros Hcol. cbv zeta.
  split; [|split];
    apply (main_with_reported _ _) with (image_url := image_url);
    try exact Hcol; intros url w0;
    destruct (download_image_world E url w0) as (H1 & H2 & H3);
    rewrite ?H1, ?H2, ?H3; apply fetch_cached_stdout.
Qed.

Lemma warnings_name_failures_witness :
  Pandas.column "image_url" example_frame
  = inr [Some rice_url; None; Some rice_url] /\
  match Plain.main offline_env example_frame fresh_world with
  | (inr out, w') =>
      stdout w' = [(rice_url, ConnectionError)] /\
      Pandas.column "dominant_color" out = inr [None; None; None]
  | (inl _, _) => False
  end.
Proof.
  split; [reflexivity|].
  pose proof (proj1 (warnings_name_failures offline_env example_frame
                       fresh_world [Some rice_url; None; Some rice_url]
                       eq_refl)) as H.
  cbv zeta in H.
  destruct (Plain.main offline_env example_frame fresh_world)
    as [[e|out] w'] eqn:Hrun.
  - vm_compute in Hrun. discriminate Hrun.
  - destruct H as (d & ws & Hd & Hout & Hws & Hfst & Hturn).
    destruct (Hturn [] [] rice_url eq_refl) as (d1 & w1 & Hpre & Hatt).
    injection Hpre as <- <-.
    assert (Hfail : attempt (Plain.download_image offline_env)
                      (fun img => Plain.dominant_color offline_env img
                                    Plain.default_k Plain.default_resize)
                      ∅ rice_url fresh_world
                    = (inl ConnectionError,
                       World true ∅ [rice_url] []))
      by (vm_compute; reflexivity).
    rewrite Hfail in Hatt. destruct Hatt as [Hnone Hin].
    assert (Hlen : List.length ws = 1%nat).
    { rewrite <- (List.length_map fst), Hfst.
      change (Pandas.unique (Pandas.dropna [Some rice_url; None; Some rice_url]))
        with [rice_url].
      unfold failed_urls. cbn [List.filter].
      destruct (bool_decide _) eqn:Hb; [reflexivity|].
      apply bool_decide_eq_false_1 in Hb. contradiction. }
    destruct ws as [|x [|y ws]]; try discriminate Hlen.
    destruct Hin as [->|[]].
    split; [rewrite Hws; reflexivity|].
    rewrite Hout. unfold Pandas.series_map. cbn [List.map].
    rewrite Hnone. reflexivity.
Defined.

(** ** The output table *)

Lemma column_set_column (name : string) (values : list Pandas.cell)
    (df : Pandas.DataFrame) :
  Pandas.column name (Pandas.set_column name values df) = inr values.
Proof.
  unfold Pandas.column.
  induction df as [|[n vs] df IH]; cbn.
  - rewrite String.eqb_refl. reflexivity.
  - destruct (String.eqb n name) eqn:E; cbn.
    + rewrite String.eqb_refl. reflexivity.
    + rewrite E. exact IH.
Qed.

Lemma column_set_column_ne (name other : string) (values : list Pandas.cell)
    (df : Pandas.DataFrame) :
  other <> name ->
  Pandas.column other (Pandas.set_column name values df) = Pandas.column other df.
Proof.
  intros Hne. unfold Pandas.column.
  assert (Hno : String.eqb name other = false)
    by (apply String.eqb_neq; congruence).
  induction df as [|[n vs] df IH]; cbn.
  - rewrite Hno. reflexivity.
  - destruct (String.eqb n name) eqn:E; cbn.
    + apply String.eqb_eq in E. subst n. rewrite Hno. reflexivity.
    + destruct (String.eqb n other); [reflexivity|exact IH].
Qed.

Lemma set_column_existing (name : string) (values old : list Pandas.cell)
    (df : Pandas.DataFrame) :
  Pandas.column name df = inr old ->
  List.map fst (Pandas.set_column name values df) = List.map fst df.
Proof.
  unfold Pandas.column.
  induction df as [|[n vs] df IH]; cbn; [discriminate|].
  destruct (String.eqb n name) eqn:E; cbn.
  - intros _. apply String.eqb_eq in E. subst n. reflexivity.
  - intros H. rewrite (IH H). reflexivity.
Qed.

(** The cell a row gets from the dictionary of a run that ended normally:
    what the iteration for its URL produced when its turn came. *)
Lemma series_map_outcome (download : string -> M (list rgb))
    (extract : list rgb -> exn + string)
    (image_url : list Pandas.cell) (d d1 : gmap string Pandas.cell)
    (w w' w1 : world) (pre post : list string) (u : string) (i : nat) :
  process_all download extract (Pandas.unique (Pandas.dropna image_url)) ∅ w =
    (inr d, w') ->
  Pandas.unique (Pandas.dropna image_url) = pre ++ u :: post ->
  process_all download extract pre ∅ w = (inr d1, w1) ->
  image_url !! i = Some (Some u) ->
  match download u w1 with
  | (inl _, _) => Pandas.series_map d image_url !! i = Some None
  | (inr img, _) =>
      match extract img with
      | inl _ => Pandas.series_map d image_url !! i = Some None
      | inr c => Pandas.series_map d image_url !! i = Some (Some c)
      end
  end.
Proof.
  intros Hall Hsplit Hpre Hi.
  rewrite Hsplit, process_all_app, Hpre, process_all_cons in Hall.
  destruct (process_url download extract d1 u w1) as [[e|d2] w3] eqn:Hu;
    [discriminate|].
  assert (Hnotin : ~ List.In u post).
  { pose proof (unique_NoDup (Pandas.dropna image_url)) as Hnd.
    rewrite Hsplit in Hnd. apply List.NoDup_remove_2 in Hnd.
    intros Hin. apply Hnd. apply List.in_or_app. right. exact Hin. }
  destruct (process_all_lookup download extract post d2 d w3 w' Hall) as [Hkeep _].
  specialize (Hkeep u Hnotin).
  rewrite series_map_lookup. unfold Pandas.cell in *. rewrite Hi, Hkeep.
  rewrite process_url_cases, attempt_cases in Hu.
  destruct (download u w1) as [[e|img] w4].
  - destruct (is_Exception e); [|discriminate].
    inversion Hu; subst. rewrite lookup_insert_eq. reflexivity.
  - destruct (extract img) as [e|c].
    + destruct (is_Exception e); [|discriminate].
      inversion Hu; subst. rewrite lookup_insert_eq. reflexivity.
    + inversion Hu; subst. rewrite lookup_insert_eq. reflexivity.
Qed.

(** X17.  When the input table already has a [dominant_color] column (the
    output of an earlier run read back), a run that ends normally replaces
    that column by the colours of THIS run: the input column mapped through
    the dictionary the loop has just built.  The column names and their
    order are kept, every other column is left as it was, and the old
    column has no influence: any table with the same [image_url] column
    gets the same colours.  A row without URL gets a missing cell; a row
    with the URL [u] gets the colour extracted when the turn of [u] came,
    or a missing cell if the download or the extraction failed then. *)
Theorem rerun_replaces_column (download : string -> M (list rgb))
    (extract : list rgb -> exn + string)
    (df out : Pandas.DataFrame) (w w' : world)
    (image_url old : list Pandas.cell) :
  Pandas.column "image_url" df = inr image_url ->
  Pandas.column "dominant_color" df = inr old ->
  main_with download extract df w = (inr out, w') ->
  exists (d : gmap string Pandas.cell) (colours : list Pandas.cell),
    process_all download extract (Pandas.unique (Pandas.dropna image_url)) ∅ w =
      (inr d, w') /\
    colours = Pandas.series_map d image_url /\
    out = Pandas.set_column "dominant_color" colours df /\
    List.map fst out = List.map fst df /\
    Pandas.column "dominant_color" out = inr colours /\
    List.length colours = List.length image_url /\
    (forall name : string, name <> "dominant_color"%string ->
       Pandas.column name out = Pandas.column name df) /\
    (forall df0 : Pandas.DataFrame,
       Pandas.column "image_url" df0 = inr image_url ->
       exists out0 : Pandas.DataFrame,
         main_with download extract df0 w = (inr out0, w') /\
         Pandas.column "dominant_color" out0 = inr colours) /\
    (forall i : nat, image_url !! i = Some None -> colours !! i = Some None) /\
    (forall (pre post : list string) (u : string)
            (d1 : gmap string Pandas.cell) (w1 : world),
        Pandas.unique (Pandas.dropna image_url) = pre ++ u :: post ->
        process_all download extract pre ∅ w = (inr d1, w1) ->
        forall i : nat, image_url !! i = Some (Some u) ->
          match download u w1 with
          | (inl _, _) => colours !! i = Some None
          | (inr img, _) =>
              match extract img with
              | inl _ => colours !! i = Some None
              | inr c => colours !! i = Some (Some c)
              end
          end).
Proof.
  intros Hcol Hold Hmain.
  unfold main_with in Hmain. revert Hmain. run_script. rewrite Hcol.
  destruct (process_all download extract _ ∅ w) as [[e|d] w1] eqn:Hall;
    [discriminate|].
  intros H. injection H as <- <-.
  exists d, (Pandas.series_map d image_url).
  split; [reflexivity|]. split; [reflexivity|]. split; [reflexivity|].
  split; [exact (set_column_existing _ _ _ _ Hold)|].
  split; [apply column_set_column|].
  split; [apply series_map_length|].
  split; [intros name Hne; apply column_set_column_ne, Hne|].
  split.
  { intros df0 Hcol0. eexists. split.
    - unfold main_with. run_script. rewrite Hcol0, Hall. reflexivity.
    - apply column_set_column. }
  split.
  { intros i Hi. rewrite series_map_lookup. unfold Pandas.cell in *.
    rewrite Hi. reflexivity. }
  intros pre post u d1 w2 Hsplit Hpre i Hi.
  exact (series_map_outcome download extract image_url d d1 w w1 w2 pre post u i
           Hall Hsplit Hpre Hi).
Qed.

Lemma rerun_replaces_column_witness :
  Pandas.column "image_url" stale_frame = inr [Some rice_url; None; Some rice_url] /\
  Pandas.column "dominant_color" stale_frame = inr [Some "#000000"%string; None; None] /\
  exists (d : gmap string Pandas.cell) (w' : world),
    process_all
      (Improved.download_image (example_env None Stored))
      (fun img => Improved.dominant_color (example_env None Stored) img
                    Improved.default_k Improved.default_resize)
      [rice_url] ∅ fresh_world = (inr d, w') /\
    Pandas.series_map d [Some rice_url; None; Some rice_url] = example_colors.
Proof.
  split; [reflexivity|]. split; [reflexivity|].
  assert (Hrun : main_with
            (Improved.download_image (example_env None Stored))
            (fun img => Improved.dominant_color (example_env None Stored) img
                          Improved.default_k Improved.default_resize)
            stale_frame fresh_world =
          (inr (example_frame ++ [("dominant_color"%string, example_colors)]),
           World true {[ rice_path := png_magic ]} [rice_url] []))
    by (vm_compute; reflexivity).
  destruct (rerun_replaces_column _ _ stale_frame _ fresh_world _
              [Some rice_url; None; Some rice_url]
              [Some "#000000"%string; None; None] eq_refl eq_refl Hrun)
    as (d & colours & Hd & Hcolours & _ & _ & Hc & _).
  exists d, (World true {[ rice_path := png_magic ]} [rice_url] []).
  split; [exact Hd|].
  rewrite <- Hcolours.
  assert (Hex : Pandas.column "dominant_color"
                  (example_frame ++ [("dominant_color"%string, example_colors)])
                = inr example_colors) by reflexivity.
  rewrite Hex in Hc. injection Hc as Hc. symmetry. exact Hc.
Defined.

(** X18.  A table without an [image_url] column makes [main] raise
    [KeyError] before anything else happens: the per-URL handler does not
    see it and the world is unchanged.  A table whose [image_url] column
    holds no URL (no rows, or missing cells only) is returned with a
    [dominant_color] column of missing cells, without a request and
    without a warning. *)
Theorem degenerate_tables (download : string -> M (list rgb))
    (extract : list rgb -> exn + string) (df : Pandas.DataFrame) (w : world) :
  (Pandas.column "image_url" df = inl (KeyError "image_url") ->
   main_with download extract df w = (inl (KeyError "image_url"), w)) /\
  (forall image_url : list Pandas.cell,
     Pandas.column "image_url" df = inr image_url ->
     List.Forall (fun c => c = None) image_url ->
     main_with download extract df w =
     (inr (Pandas.set_column "dominant_color" image_url df), w)).
Proof.
  split.
  - intros Hcol. unfold main_with. run_script. rewrite Hcol. reflexivity.
  - intros image_url Hcol Hnone. unfold main_with. run_script. rewrite Hcol.
    clear Hcol.
    assert (Hdrop : Pandas.dropna image_url = []).
    { induction Hnone as [|c cs -> _ IH]; [reflexivity|exact IH]. }
    assert (Hmap : Pandas.series_map ∅ image_url = image_url).
    { clear Hdrop. induction Hnone as [|c cs -> _ IH]; [reflexivity|].
      cbn. f_equal. exact IH. }
    rewrite Hdrop. cbn. rewrite Hmap. reflexivity.
Qed.

(** ** A run whose cache directory cannot be created *)

Section FailingRun.

Variable download : string -> M (list rgb).
Variable extract : list rgb -> exn + string.
Variable e : exn.

Hypothesis e_is_Exception : is_Exception e = true.
Hypothesis download_fails :
  forall (url : string) (w : world),
    cache_dir_exists w = false -> download url w = (inl e, w).

Lemma process_all_failing (urls : list string) (d : gmap string Pandas.cell)
    (w : world) :
  cache_dir_exists w = false ->
  exists d' : gmap string Pandas.cell,
    process_all download extract urls d w =
      (inr d',
       World false (files w) (requests_log w)
             (stdout w ++ List.map (fun u => (u, e)) urls)) /\
    (forall u, List.In u urls -> d' !! u = Some None).
Proof.
  revert d w. induction urls as [|url urls IH]; intros d w Hdir.
  - exists d. cbn. rewrite List.app_nil_r. split; [|tauto].
    destruct w; cbn in *; subst; reflexivity.
  - rewrite process_all_cons, process_url_cases, attempt_cases.
    rewrite (download_fails url w Hdir), e_is_Exception.
    destruct (IH (<[url := None]> d) (warned url e w)) as (d' & Hrun & Hnone);
      [exact Hdir|].
    exists d'. rewrite Hrun. cbn [warned files requests_log stdout List.map].
    rewrite <- List.app_assoc. split; [reflexivity|].
    intros u [<-|Hu]; [|exact (Hnone u Hu)].
    destruct (List.in_dec String.string_dec url urls) as [Hin|Hnotin];
      [exact (Hnone url Hin)|].
    destruct (process_all_lookup download extract urls _ d' _ _ Hrun) as [Hkeep _].
    etransitivity; [exact (Hkeep url Hnotin)|]. apply lookup_insert_eq.
Qed.

Lemma main_with_failing (df : Pandas.DataFrame) (w : world)
    (image_url : list Pandas.cell) :
  Pandas.column "image_url" df = inr image_url ->
  cache_dir_exists w = false ->
  main_with download extract df w =
  (inr (Pandas.set_column "dominant_color"
          (List.map (fun _ => None) image_url) df),
   World false (files w) (requests_log w)
         (stdout w ++ List.map (fun u => (u, e))
                        (Pandas.unique (Pandas.dropna image_url)))).
Proof.
  intros Hcol Hdir. unfold main_with. run_script. rewrite Hcol.
  destruct (process_all_failing (Pandas.unique (Pandas.dropna image_url)) ∅ w Hdir)
    as (d' & Hrun & Hnone).
  rewrite Hrun. f_equal. f_equal. f_equal.
  unfold Pandas.series_map. apply List.map_ext_in.
  intros [u|] Hin; [|reflexivity].
  assert (Hu : d' !! u = Some None)
    by (apply Hnone, unique_In, dropna_In, Hin).
  unfold Pandas.cell in *. rewrite Hu. reflexivity.
Qed.

End FailingRun.

(** X19.  When the cache directory is missing and cannot be created, every
    URL fails before any request is sent: the run ends normally, the output
    column is empty in every row, no request is logged, no file is
    written, and one warning per distinct URL is printed, in order, each
    with the error of [os.makedirs]. *)
Theorem unwritable_cache_run (E : env) (df : Pandas.DataFrame) (w : world)
    (image_url : list Pandas.cell) (e : exn) :
  Pandas.column "image_url" df = inr image_url ->
  cache_dir_exists w = false ->
  makedirs_fault E = Some e ->
  is_Exception e = true ->
  let result :=
    (inr (Pandas.set_column "dominant_color"
            (List.map (fun _ => None) image_url) df),
     World false (files w) (requests_log w)
           (stdout w ++ List.map (fun u => (u, e))
                          (Pandas.unique (Pandas.dropna image_url)))) in
  Plain.main E df w = result /\
  Improved.main E df w = result /\
  Hsv.main E df w = result.
Proof.
  intros Hcol Hdir Hfault He. cbv zeta.
  split; [|split]; apply main_with_failing; try assumption; intros url w0 Hd;
    apply (download_raises E url w0 w0 e (ensure_cache_fault E w0 e Hd Hfault url)).
Qed.

Lemma unwritable_cache_run_witness :
  cache_dir_exists fresh_world = false /\
  Hsv.main (example_env (Some (OSError "EACCES")) Stored) example_frame fresh_world =
  (inr (example_frame ++ [("dominant_color"%string, [None; None; None])]),
   World false ∅ [] [(rice_url, OSError "EACCES")]).
Proof.
  split; [reflexivity|].
  exact (proj2 (proj2 (unwritable_cache_run
                         (example_env (Some (OSError "EACCES")) Stored)
                         example_frame fresh_world _ (OSError "EACCES")
                         eq_refl eq_refl eq_refl eq_refl))).
Defined.

(** ** The circular mean of a single hue *)

Section ConstantHue.
Local Open Scope R_scope.

Lemma rmean_constant (f : R -> R) (h : R) (hues : list R) :
  hues <> [] -> List.Forall (fun x => x = h) hues ->
  Np.rmean (List.map f hues) = f h.
Proof.
  intros Hne Hall. unfold Np.rmean. rewrite List.length_map.
  assert (Hsum : Np.rsum (List.map f hues) = INR (List.length hues) * f h).
  { clear Hne. induction Hall as [|x xs -> _ IH].
    - cbn. Lra.lra.
    - cbn [List.map List.length]. rewrite S_INR. unfold Np.rsum in *.
      cbn [List.fold_right]. rewrite IH. Lra.lra. }
  rewrite Hsum. field. apply not_0_INR.
  destruct hues; [congruence|discriminate].
Qed.

(** X20.  The circular mean of a non-empty cluster whose rows share one
    hue [h] in [0,360) is [h] itself, also beyond 180 degrees, where
    [arctan2] returns a negative angle and the final [% 360] brings it
    back (sine, cosine and arctangent read over the reals). *)
Theorem constant_hue_mean (h : R) (hues : list R) :
  0 <= h < 360 ->
  hues <> [] ->
  List.Forall (fun x => x = h) hues ->
  Hsv.circular_mean_hue hues = h.
Proof.
  intros [H0 H1] Hne Hall. unfold Hsv.circular_mean_hue.
  rewrite (rmean_constant (fun x => sin (Np.radians x)) h hues Hne Hall).
  rewrite (rmean_constant (fun x => cos (Np.radians x)) h hues Hne Hall).
  pose proof PI_RGT_0 as Hpi.
  set (a := Np.radians h).
  assert (Ha : a = h * PI / 180) by reflexivity.
  destruct (Rle_dec h 180) as [Hle|Hgt].
  - rewrite arctan2_sin_cos.
    + unfold Np.degrees. rewrite Ha.
      replace (h * PI / 180 * 180 / PI) with h by (field; Lra.lra).
      apply rmod_small. Lra.lra.
    + rewrite Ha. split.
      * apply Rlt_le_trans with 0; [Lra.lra|].
        unfold Rdiv. apply Rmult_le_pos; [apply Rmult_le_pos|]; Lra.lra.
      * apply (Rmult_le_reg_r (180 / PI)).
        { unfold Rdiv. apply Rmult_lt_0_compat; [Lra.lra|].
          apply Rinv_0_lt_compat, Hpi. }
        replace (h * PI / 180 * (180 / PI)) with h by (field; Lra.lra).
        replace (PI * (180 / PI)) with 180 by (field; Lra.lra). exact Hle.
  - assert (Hs : sin a = sin (a - 2 * PI)).
    { rewrite <- (sin_period (a - 2 * PI) 1). f_equal. cbn. Lra.lra. }
    assert (Hc : cos a = cos (a - 2 * PI)).
    { rewrite <- (cos_period (a - 2 * PI) 1). f_equal. cbn. Lra.lra. }
    rewrite Hs, Hc, arctan2_sin_cos.
    + unfold Np.degrees. rewrite Ha.
      replace ((h * PI / 180 - 2 * PI) * 180 / PI) with (h - 360) by (field; Lra.lra).
      rewrite rmod_wrap; Lra.lra.
    + assert (Hlo : PI < a).
      { rewrite Ha. apply (Rmult_lt_reg_r (180 / PI)).
        { unfold Rdiv. apply Rmult_lt_0_compat; [Lra.lra|].
          apply Rinv_0_lt_compat, Hpi. }
        replace (h * PI / 180 * (180 / PI)) with h by (field; Lra.lra).
        replace (PI * (180 / PI)) with 180 by (field; Lra.lra). Lra.lra. }
      assert (Hhi : a < 2 * PI).
      { rewrite Ha. apply (Rmult_lt_reg_r (180 / PI)).
        { unfold Rdiv. apply Rmult_lt_0_compat; [Lra.lra|].
          apply Rinv_0_lt_compat, Hpi. }
        replace (h * PI / 180 * (180 / PI)) with h by (field; Lra.lra).
        replace (2 * PI * (180 / PI)) with 360 by (field; Lra.lra). Lra.lra. }
      split; Lra.lra.
Qed.

Lemma constant_hue_mean_witness :
  0 <= 270 < 360 /\ Hsv.circular_mean_hue [270; 270; 270] = 270.
Proof.
  assert (H : 0 <= 270 < 360) by Lra.lra.
  split; [exact H|].
  apply (constant_hue_mean 270 [270; 270; 270] H); [discriminate|].
  repeat constructor.
Defined.

End ConstantHue.

(** ** Greyscale images in the HSV script *)

Lemma grey_row (p : rgb) :
  grey_pixel p -> (Hsv.sat (Hsv.rgb_to_hsv_row p) == 0)%Q.
Proof.
  destruct p as [[r g] b]. intros [-> ->].
  rewrite hsv_row_fields. cbv zeta. unfold Colorsys.rgb_to_hsv.
  assert (Hmax : forall x : Q, Colorsys.qmax x x = x)
    by (intros x; unfold Colorsys.qmax; destruct (Py.Qltb x x); reflexivity).
  assert (Hmin : forall x : Q, Colorsys.qmin x x = x)
    by (intros x; unfold Colorsys.qmin; destruct (Py.Qltb x x); reflexivity).
  rewrite !Hmax, !Hmin.
  rewrite (proj2 (Qeq_bool_iff _ _) (Qeq_refl _)).
  unfold Hsv.sat. cbn [fst snd]. ring.
Qed.

Lemma grey_mask (pixels : list rgb) :
  List.Forall grey_pixel pixels ->
  Np.mask_sum (Hsv.high_saturation_mask (Hsv.rgb_to_hsv_array pixels)) = 0%nat.
Proof.
  intros Hgrey. unfold Hsv.high_saturation_mask, Hsv.rgb_to_hsv_array.
  rewrite List.map_map, mask_sum_map.
  induction Hgrey as [|p pixels Hp _ IH]; [reflexivity|].
  cbn [List.filter].
  assert (Hlow : Py.Qltb 15 (Hsv.sat (Hsv.rgb_to_hsv_row p)) = false).
  { apply Qltb_ge. rewrite (grey_row p Hp). discriminate. }
  rewrite Hlow. exact IH.
Qed.

Lemma grey_sample (pixels : list rgb) :
  List.Forall grey_pixel pixels ->
  snd (Hsv.sample pixels) = Hsv.filter_pixels pixels.
Proof.
  intros Hgrey. destruct pixels as [|p pixels]; [reflexivity|].
  rewrite sample_is_saturation_filter by discriminate.
  rewrite saturation_filter_cases. cbv zeta.
  rewrite grey_mask.
  - destruct (_ <? _)%nat eqn:E; [|reflexivity].
    apply Nat.ltb_lt in E. lia.
  - apply (sublist_Forall _ _ (p :: pixels)); [|exact Hgrey].
    rewrite filter_pixels_same. apply filter_pixels_sublist.
Qed.

Lemma grey_cluster_score (hsv_pixels : list Hsv.hsv) (filtered_pixels : list rgb)
    (labels : list nat) (lc : nat * nat) :
  List.Forall (fun p => Hsv.sat p == 0)%Q hsv_pixels ->
  let e := Hsv.describe hsv_pixels filtered_pixels labels lc in
  (Hsv.saturation e == 0)%Q /\
  (Hsv.score e == inject_Z (Z.of_nat (snd lc)))%Q.
Proof.
  intros Hzero. cbv zeta.
  set (e := Hsv.describe hsv_pixels filtered_pixels labels lc).
  assert (Hs : (Hsv.saturation e == 0)%Q).
  { change (Hsv.saturation e) with (Np.mean (List.map Hsv.sat (Hsv.cluster_hsv e))).
    rewrite mean_is_arithmetic.
    assert (Hsum : (List.fold_right Qplus 0 (List.map Hsv.sat (Hsv.cluster_hsv e)) == 0)%Q).
    { assert (Hmem : List.Forall (fun p => Hsv.sat p == 0)%Q (Hsv.cluster_hsv e)).
      { rewrite List.Forall_forall in *. intros p Hp. apply Hzero.
        revert Hp. apply mask_select_In. }
      induction Hmem as [|p ps Hp _ IH]; [reflexivity|].
      cbn [List.map List.fold_right]. rewrite Hp, IH. reflexivity. }
    rewrite Hsum. unfold Qdiv. ring. }
  split; [exact Hs|].
  change (Hsv.score e)
    with (inject_Z (Z.of_nat (snd lc)) * (1 + Hsv.saturation e / 50))%Q.
  rewrite Hs. unfold Qdiv. ring.
Qed.

Section GreyColour.
Local Open Scope R_scope.

Lemma grey_entry_color (h s v : R) :
  s = 0 -> 0 <= v <= 100 ->
  exists t : Z, channel_8bit t /\ Hsv.hsv_to_rgb h s v = (t, t, t).
Proof.
  intros -> Hv. unfold Hsv.hsv_to_rgb, Colorsys.hsv_to_rgb.
  destruct (Req_dec_T (0 / 100) 0) as [_|Hn]; [|exfalso; apply Hn; Lra.lra].
  exists (Colorsys.rtrunc (v / 100 * 255)). split; [|reflexivity].
  apply rtrunc_channel. Lra.lra.
Qed.

End GreyColour.

(** X21.  On a matrix of 8-bit grey pixels (three equal channels) the HSV
    script keeps every pixel the extreme-colour filter keeps, since the
    low-saturation mask selects nothing; the saturation weight then has
    no effect, so the chosen cluster is one with the most members; and
    the colour returned is a grey, three times the same two digits. *)
Theorem greyscale_image (pixels : list rgb) (labels : list nat) :
  List.Forall rgb_8bit pixels ->
  List.Forall grey_pixel pixels ->
  List.length labels = List.length (fst (Hsv.sample pixels)) ->
  snd (Hsv.sample pixels) = Hsv.filter_pixels pixels /\
  match Hsv.select (fst (Hsv.sample pixels)) (snd (Hsv.sample pixels)) labels with
  | inr best =>
      (forall l n : nat, List.In (l, n) (Np.unique_counts labels) ->
                         (n <= Hsv.count best)%nat) /\
      exists t : Z,
        channel_8bit t /\ Hsv.entry_color best = (t, t, t) /\
        hex_color (Hsv.entry_color best) =
          String "#" (two_digits t ++ two_digits t ++ two_digits t)
  | inl _ => True
  end.
Proof.
  intros H8 Hgrey Hlen.
  pose proof (grey_sample pixels Hgrey) as Hsample.
  split; [exact Hsample|].
  pose proof (sample_lockstep pixels) as Hlock.
  pose proof (sample_sublist pixels) as Hsub.
  set (hsv_pixels := fst (Hsv.sample pixels)) in *.
  set (filtered_pixels := snd (Hsv.sample pixels)) in *.
  assert (Hrows : List.Forall hsv_row hsv_pixels).
  { rewrite Hlock. apply List.Forall_map.
    eapply List.Forall_impl; [|exact (sublist_Forall _ _ _ Hsub H8)].
    intros p. apply hsv_row_range. }
  assert (Hzero : List.Forall (fun p => Hsv.sat p == 0)%Q hsv_pixels).
  { rewrite Hlock. apply List.Forall_map.
    eapply List.Forall_impl; [|exact (sublist_Forall _ _ _ Hsub Hgrey)].
    intros p. apply grey_row. }
  unfold Hsv.select.
  destruct (Py.max_by Hsv.score _) as [best|] eqn:Hbest; [|exact I]. cbn.
  pose proof (max_by_In _ _ _ Hbest) as Hin.
  unfold Hsv.cluster_info in Hin. apply List.in_map_iff in Hin.
  destruct Hin as ([lb nb] & Hb & Hlb).
  destruct (grey_cluster_score hsv_pixels filtered_pixels labels (lb, nb) Hzero)
    as [Hsb Hscore_b].
  cbv zeta in Hsb, Hscore_b. rewrite Hb in Hsb, Hscore_b. cbn [snd] in Hscore_b.
  assert (Hcount : Hsv.count best = nb) by (rewrite <- Hb; reflexivity).
  split.
  - intros l n Hln.
    destruct (grey_cluster_score hsv_pixels filtered_pixels labels (l, n) Hzero)
      as [_ Hscore].
    cbv zeta in Hscore. cbn [snd] in Hscore.
    assert (Hle : (Hsv.score (Hsv.describe hsv_pixels filtered_pixels labels (l, n))
                   <= Hsv.score best)%Q).
    { apply (max_by_le _ _ _ _ Hbest). unfold Hsv.cluster_info.
      apply List.in_map. exact Hln. }
    rewrite Hscore, Hscore_b, <- Zle_Qle in Hle. lia.
  - destruct (describe_ranges hsv_pixels filtered_pixels labels lb nb Hlen Hrows Hlb)
      as [_ Hv].
    cbv zeta in Hv. rewrite Hb in Hv.
    destruct (grey_entry_color (Hsv.avg_h (Hsv.cluster_hsv best))
                (Q2R (Hsv.saturation best)) (Q2R (Hsv.value best)))
      as (t & Ht & Hcol).
    + rewrite (Qreals.Qeq_eqR _ _ Hsb). apply RMicromega.Q2R_0.
    + apply (Q2R_between 0 100). exact Hv.
    + exists t. unfold Hsv.entry_color. rewrite Hcol.
      split; [exact Ht|]. split; [reflexivity|].
      apply (hex_color_two_digits (t, t, t)). repeat split; apply Ht.
Qed.

Lemma greyscale_image_witness :
  List.Forall rgb_8bit [grey; grey] /\
  List.Forall grey_pixel [grey; grey] /\
  snd (Hsv.sample [grey; grey]) = [grey; grey].
Proof.
  assert (H8 : List.Forall rgb_8bit [grey; grey]).
  { repeat constructor; cbv; discriminate. }
  assert (Hg : List.Forall grey_pixel [grey; grey]).
  { repeat constructor. }
  split; [exact H8|]. split; [exact Hg|].
  exact (proj1 (greyscale_image [grey; grey] [0; 0]%nat H8 Hg eq_refl)).
Defined.
